(** * xyz2sgf: a shallow embedding of [src/xyz2sgf.js]

    The JavaScript converter reads three legacy Go record dialects (.gib,
    .ngf, .ugf/.ugi), builds a tree of [Node] objects, normalises the root
    and writes the tree as SGF text.  This development embeds the program
    function by function and proves (or refutes) statements about it.

    Conventions of the embedding.
    - A JS string is a [string] whose characters are UTF-16 code units
      below 256.  [toUpperCase] follows the source on these but for the two
      whose upper case lies beyond 255 (181 and 255), which it keeps.
    - A JS number is a [number]: NaN, the two infinities, or an exact
      decimal value.  Every finite number this program computes is a
      decimal (it comes out of [parseInt], [parseFloat], a character code,
      [+], [-], [/ 10], [/ 2], [% 2] or [Math.floor]); the 53-bit rounding
      of binary64 is not modelled, the overflow to an infinity and the
      underflow to zero of the two parsing functions are.  The model and
      the source agree on the values of up to 15 significant digits; on a
      field of 16 digits or more the source rounds and the digits it prints
      can differ from the exact ones here.
    - Exceptions are a [result]; [try { .. } catch (e) { .. }] is a match
      on it.
    - Objects that the source mutates through several references (the
      nodes) live in a store ([heap]) and are named by handles. *)

From Stdlib Require Import ZArith Ascii String List Bool Lia DecimalString.
From stdpp Require Import base list strings.

Local Open Scope Z_scope.

(* ===================================================================== *)
(** ** Exceptions *)

Inductive error := ValueError | BadBoardSize | ParserFail | UnknownFormat | TypeError.

Inductive result (A : Type) := Ok (a : A) | Throw (e : error).
Arguments Ok {A} a.
Arguments Throw {A} e.

#[global] Instance result_ret : MRet result := fun A a => Ok a.
#[global] Instance result_bind : MBind result := fun A B k r =>
  match r with Ok a => k a | Throw e => Throw e end.

(** [try { body } catch (e) { handler }] *)
Definition try_catch {A} (body : result A) (handler : error → result A) : result A :=
  match body with Ok a => Ok a | Throw e => handler e end.

Definition is_Ok {A} (r : result A) : bool :=
  match r with Ok _ => true | Throw _ => false end.

(* ===================================================================== *)
(** ** Strings *)

Module Str.

Definition code (c : ascii) : Z := Z.of_N (N_of_ascii c).
Definition chr (z : Z) : ascii := ascii_of_N (Z.to_N (z mod 256)).

Definition eqb (a b : string) : bool := String.eqb a b.
Definition len (s : string) : Z := Z.of_nat (String.length s).
Definition is_empty (s : string) : bool :=
  match s with EmptyString => true | _ => false end.

(** WhiteSpace and LineTerminator code units (below 256): TAB, LF, VT, FF,
    CR, SP, NBSP.  The same set is the regular expression class [\s]. *)
Definition is_space (c : ascii) : bool :=
  let n := code c in
  ((9 <=? n) && (n <=? 13)) || (n =? 32) || (n =? 160).

Definition is_digit (c : ascii) : bool :=
  let n := code c in (48 <=? n) && (n <=? 57).

Fixpoint trimStart (s : string) : string :=
  match s with
  | EmptyString => EmptyString
  | String c r => if is_space c then trimStart r else s
  end.

Fixpoint trimEnd (s : string) : string :=
  match s with
  | EmptyString => EmptyString
  | String c r =>
      let r' := trimEnd r in
      if is_space c && is_empty r' then EmptyString else String c r'
  end.

(** [s.trim()] *)
Definition trim (s : string) : string := trimEnd (trimStart s).

(** [s.split(sep)] for a separator of one character. *)
Fixpoint split (sep : ascii) (s : string) : list string :=
  match s with
  | EmptyString => [EmptyString]
  | String c r =>
      if Ascii.eqb c sep then EmptyString :: split sep r
      else match split sep r with
           | h :: t => String c h :: t
           | [] => [String c EmptyString]
           end
  end.

(** [s.split(/\s+/)]: [go] skips the rest of a run of white space. *)
Fixpoint split_ws_go (skipping : bool) (s : string) : list string :=
  match s with
  | EmptyString => [EmptyString]
  | String c r =>
      if is_space c then
        if skipping then split_ws_go true r
        else EmptyString :: split_ws_go true r
      else match split_ws_go false r with
           | h :: t => String c h :: t
           | [] => [String c EmptyString]
           end
  end.
Definition split_ws (s : string) : list string := split_ws_go false s.

(** [s.slice(start, end)]; [None] is an omitted [end]. *)
Definition clamp_index (n i : Z) : Z :=
  if i <? 0 then Z.max (n + i) 0 else Z.min i n.
Definition slice (s : string) (start : Z) (end_ : option Z) : string :=
  let n := len s in
  let from := clamp_index n start in
  let to := match end_ with Some e => clamp_index n e | None => n end in
  if from <? to then String.substring (Z.to_nat from) (Z.to_nat (to - from)) s
  else EmptyString.

Fixpoint startsWith (s p : string) : bool :=
  match p, s with
  | EmptyString, _ => true
  | String a p', String b s' => Ascii.eqb a b && startsWith s' p'
  | String _ _, EmptyString => false
  end.

Definition endsWith (s p : string) : bool :=
  let n := len s in let k := len p in
  (k <=? n) && eqb (slice s (n - k) None) p.

(** [s.includes(p)], also [/p/.test(s)] for a pattern without
    metacharacters. *)
Fixpoint includes (s p : string) : bool :=
  startsWith s p ||
  match s with
  | EmptyString => false
  | String _ r => includes r p
  end.

(** [s.charAt(i)]: the empty string out of range. *)
Definition charAt (s : string) (i : Z) : string :=
  if (0 <=? i) && (i <? len s) then String.substring (Z.to_nat i) 1 s
  else EmptyString.

(** [s[i]]: [undefined] out of range. *)
Definition index (s : string) (i : Z) : option string :=
  if (0 <=? i) && (i <? len s) then Some (String.substring (Z.to_nat i) 1 s)
  else None.

(** The upper case of a code unit below 256, where it is one code unit
    below 256: the letters a to z, and the letters 224 to 254 of Latin-1
    (247, the division sign, is no letter).  The upper case of 181 and of
    255 lies beyond 255; they are kept. *)
Definition upper (c : ascii) : ascii :=
  let n := code c in
  if (97 <=? n) && (n <=? 122) then chr (n - 32)
  else if (224 <=? n) && (n <=? 254) && negb (n =? 247) then chr (n - 32)
  else c.

(** [s.toUpperCase()]: the code unit 223, the sharp s, becomes the two
    letters SS, so the result can be longer than [s]. *)
Fixpoint toUpperCase (s : string) : string :=
  match s with
  | EmptyString => EmptyString
  | String c r =>
      if code c =? 223 then String "S" (String "S" (toUpperCase r))
      else String (upper c) (toUpperCase r)
  end.

(** Longest prefix of characters satisfying [p], and the rest. *)
Fixpoint span (p : ascii → bool) (s : string) : string * string :=
  match s with
  | EmptyString => (EmptyString, EmptyString)
  | String c r =>
      if p c then let '(a, b) := span p r in (String c a, b)
      else (EmptyString, s)
  end.

Fixpoint repeat (c : ascii) (n : nat) : string :=
  match n with O => EmptyString | S k => String c (repeat c k) end.

(** [xs.join(sep)] *)
Fixpoint join (sep : string) (xs : list string) : string :=
  match xs with
  | [] => EmptyString
  | [x] => x
  | x :: r => x +:+ sep +:+ join sep r
  end.

(** Truthiness of a string. *)
Definition truthy (s : string) : bool := negb (is_empty s).

End Str.

(** [xs[i]] on an array of strings, [undefined] out of range. *)
Definition at_ {A} (xs : list A) (i : nat) : option A := xs !! i.

(** Truthiness of a possibly undefined string. *)
Definition truthy_opt (o : option string) : bool :=
  match o with Some s => Str.truthy s | None => false end.

(** [String(v)] of a possibly undefined string, as the parsing functions
    apply it to their argument. *)
Definition string_of_opt (o : option string) : string :=
  match o with Some s => s | None => "undefined" end.

(* ===================================================================== *)
(** ** Numbers *)

(** [Int z] is the integer [z]; [Dec m e] is [m / 10^e] with [m] not a
    multiple of ten, a finite number that is not an integer. *)
Inductive number :=
  | NaN
  | Infinity
  | NegInfinity
  | Int (z : Z)
  | Dec (m : Z) (e : positive).

#[global] Instance number_eq_dec : EqDecision number.
Proof. solve_decision. Defined.

Module Num.

(** [m / 10^n] brought to its canonical form. *)
Fixpoint strip (m : Z) (n : nat) : number :=
  match n with
  | O => Int m
  | S k => if m mod 10 =? 0 then strip (m / 10) k else Dec m (Pos.of_succ_nat k)
  end.

(** The number [m * 10^e]. *)
Definition mk (m e : Z) : number :=
  if 0 <=? e then Int (m * 10 ^ e) else strip m (Z.to_nat (- e)).

(** Comparison; [None] when an operand is NaN. *)
Definition compare (a b : number) : option comparison :=
  match a, b with
  | NaN, _ | _, NaN => None
  | Infinity, Infinity => Some Eq
  | Infinity, _ => Some Gt
  | _, Infinity => Some Lt
  | NegInfinity, NegInfinity => Some Eq
  | NegInfinity, _ => Some Lt
  | _, NegInfinity => Some Gt
  | Int x, Int y => Some (x ?= y)
  | Int x, Dec m e => Some (x * 10 ^ Z.pos e ?= m)
  | Dec m e, Int y => Some (m ?= y * 10 ^ Z.pos e)
  | Dec m1 e1, Dec m2 e2 => Some (m1 * 10 ^ Z.pos e2 ?= m2 * 10 ^ Z.pos e1)
  end.

(** [a < b], [a > b], [a >= b], [a <= b], [a === b] on numbers: all false
    when an operand is NaN. *)
Definition lt (a b : number) : bool :=
  match compare a b with Some Lt => true | _ => false end.
Definition gt (a b : number) : bool :=
  match compare a b with Some Gt => true | _ => false end.
Definition ge (a b : number) : bool :=
  match compare a b with Some Gt | Some Eq => true | _ => false end.
Definition le (a b : number) : bool :=
  match compare a b with Some Lt | Some Eq => true | _ => false end.
Definition eq (a b : number) : bool :=
  match compare a b with Some Eq => true | _ => false end.

Definition neg (a : number) : number :=
  match a with
  | NaN => NaN
  | Infinity => NegInfinity
  | NegInfinity => Infinity
  | Int z => Int (- z)
  | Dec m e => Dec (- m) e
  end.

(** [a + b] *)
Definition add (a b : number) : number :=
  match a, b with
  | NaN, _ | _, NaN => NaN
  | Infinity, NegInfinity | NegInfinity, Infinity => NaN
  | Infinity, _ | _, Infinity => Infinity
  | NegInfinity, _ | _, NegInfinity => NegInfinity
  | Int x, Int y => Int (x + y)
  | Int x, Dec m e => mk (x * 10 ^ Z.pos e + m) (- Z.pos e)
  | Dec m e, Int y => mk (m + y * 10 ^ Z.pos e) (- Z.pos e)
  | Dec m1 e1, Dec m2 e2 =>
      mk (m1 * 10 ^ Z.pos e2 + m2 * 10 ^ Z.pos e1) (- (Z.pos e1 + Z.pos e2))
  end.

(** [a - b] *)
Definition sub (a b : number) : number := add a (neg b).

(** [a / 10], exact: the source gives the binary64 number nearest to it,
    which prints with the same digits for up to 15 significant digits. *)
Definition div10 (a : number) : number :=
  match a with
  | Int z => mk z (-1)
  | Dec m e => Dec m (e + 1)
  | other => other
  end.

(** [a / 2], which is [5 a / 10]. *)
Definition div2 (a : number) : number :=
  match a with
  | Int z => mk (5 * z) (-1)
  | Dec m e => mk (5 * m) (- (Z.pos e + 1))
  | other => other
  end.

(** [a % 2]: the remainder has the sign of the dividend. *)
Definition rem2 (a : number) : number :=
  match a with
  | Int z => Int (Z.rem z 2)
  | Dec m e => mk (Z.rem m (2 * 10 ^ Z.pos e)) (- Z.pos e)
  | _ => NaN
  end.

(** [Math.floor(a)] *)
Definition floor (a : number) : number :=
  match a with
  | Dec m e => Int (m / 10 ^ Z.pos e)
  | other => other
  end.

(** Truthiness: zero and NaN are falsy. *)
Definition truthy (a : number) : bool :=
  match a with
  | NaN => false
  | Int z => negb (z =? 0)
  | Dec m _ => negb (m =? 0)
  | _ => true
  end.

(** [Number.isInteger(a)] and [Number.isFinite(a)] *)
Definition isInteger (a : number) : bool :=
  match a with Int _ => true | _ => false end.
Definition isFinite (a : number) : bool :=
  match a with Int _ | Dec _ _ => true | _ => false end.

(** Decimal digits of a natural number. *)
Definition digits (z : Z) : string :=
  NilZero.string_of_uint (N.to_uint (Z.to_N z)).

(** Value of a string of digits in the given radix (10 or 16). *)
Definition digit_value (c : ascii) : Z :=
  let n := Str.code c in
  if (48 <=? n) && (n <=? 57) then n - 48
  else if (97 <=? n) && (n <=? 102) then n - 87
  else if (65 <=? n) && (n <=? 70) then n - 55
  else 0.
Fixpoint value_go (radix : Z) (acc : Z) (s : string) : Z :=
  match s with
  | EmptyString => acc
  | String c r => value_go radix (acc * radix + digit_value c) r
  end.
Definition value (radix : Z) (s : string) : Z := value_go radix 0 s.

(** A digit string without its trailing zeros, and how many there were. *)
Fixpoint strip_zeros (s : string) : string * Z :=
  match s with
  | EmptyString => (EmptyString, 0)
  | String c r =>
      let '(r', k) := strip_zeros r in
      if Str.is_empty r' && Ascii.eqb c "0" then (EmptyString, k + 1)
      else (String c r', k)
  end.

(** [Number::toString] of a positive value with significant digits [s]
    (no trailing zero) and decimal point after the [n]-th digit. *)
Definition format (s : string) (n : Z) : string :=
  let k := Str.len s in
  if (k <=? n) && (n <=? 21) then s +:+ Str.repeat "0" (Z.to_nat (n - k))
  else if (0 <? n) && (n <=? 21) then
    Str.slice s 0 (Some n) +:+ "." +:+ Str.slice s n None
  else if (-6 <? n) && (n <=? 0) then
    "0." +:+ Str.repeat "0" (Z.to_nat (- n)) +:+ s
  else
    let e := n - 1 in
    let exp := (if e <? 0 then "-" else "+") +:+ digits (Z.abs e) in
    if k =? 1 then s +:+ "e" +:+ exp
    else Str.slice s 0 (Some 1) +:+ "." +:+ Str.slice s 1 None +:+ "e" +:+ exp.

(** [a.toString()], [String(a)] and the conversion of template literals. *)
Definition toString (a : number) : string :=
  match a with
  | NaN => "NaN"
  | Infinity => "Infinity"
  | NegInfinity => "-Infinity"
  | Int z =>
      if z =? 0 then "0"
      else
        let '(s, t) := strip_zeros (digits (Z.abs z)) in
        (if z <? 0 then "-" else "") +:+ format s (Str.len s + t)
  | Dec m e =>
      if m =? 0 then "0"
      else
        let s := digits (Z.abs m) in
        (if m <? 0 then "-" else "") +:+ format s (Str.len s - Z.pos e)
  end.

(** Overflow and underflow of a parsed literal [m * 10^e]: magnitudes from
    [2^1024 - 2^970] on round to an infinity, magnitudes up to [2^-1075]
    round to zero. *)
Definition of_literal (m e : Z) : number :=
  let big := 2 ^ 1024 - 2 ^ 970 in
  if m =? 0 then Int 0
  else if 0 <=? e then
    (if big <=? Z.abs m * 10 ^ e then (if m <? 0 then NegInfinity else Infinity)
     else Int (m * 10 ^ e))
  else if big * 10 ^ (- e) <=? Z.abs m then
    (if m <? 0 then NegInfinity else Infinity)
  else if Z.abs m * 2 ^ 1075 <=? 10 ^ (- e) then Int 0
  else mk m e.

(** An optional sign: the factor and the rest. *)
Definition read_sign (s : string) : Z * string :=
  match s with
  | String "-" r => (-1, r)
  | String "+" r => (1, r)
  | _ => (1, s)
  end.

Definition is_hex_digit (c : ascii) : bool :=
  let n := Str.code c in
  ((48 <=? n) && (n <=? 57)) || ((97 <=? n) && (n <=? 102)) ||
  ((65 <=? n) && (n <=? 70)).

(** [parseInt(s)] without a radix argument. *)
Definition parseInt (s : string) : number :=
  let '(sign, r) := read_sign (Str.trimStart s) in
  let '(radix, r) :=
    if Str.startsWith r "0x" || Str.startsWith r "0X"
    then (16, Str.slice r 2 None) else (10, r) in
  let '(ds, _) := Str.span (if radix =? 16 then is_hex_digit else Str.is_digit) r in
  if Str.is_empty ds then NaN else of_literal (sign * value radix ds) 0.

(** The exponent part of a decimal literal, if one is there. *)
Definition read_exponent (s : string) : Z :=
  match s with
  | String c r =>
      if Ascii.eqb c "e" || Ascii.eqb c "E" then
        let '(sign, r) := read_sign r in
        let '(ds, _) := Str.span Str.is_digit r in
        if Str.is_empty ds then 0 else sign * value 10 ds
      else 0
  | EmptyString => 0
  end.

(** [parseFloat(s)]: the longest prefix that is a decimal literal. *)
Definition parseFloat (s : string) : number :=
  let '(sign, r) := read_sign (Str.trimStart s) in
  if Str.startsWith r "Infinity" then
    (if sign <? 0 then NegInfinity else Infinity)
  else
    let '(ip, r) := Str.span Str.is_digit r in
    let '(fp, r) :=
      match r with
      | String "." r' => Str.span Str.is_digit r'
      | _ => (EmptyString, r)
      end in
    if Str.is_empty ip && Str.is_empty fp then NaN
    else of_literal (sign * value 10 (ip +:+ fp)) (read_exponent r - Str.len fp).

(** [String.fromCharCode(a)]: the code unit [ToUint16(a)]. *)
Definition toUint16 (a : number) : Z :=
  match a with
  | Int z => z mod 65536
  | Dec m e => (Z.quot m (10 ^ Z.pos e)) mod 65536
  | _ => 0
  end.
Definition fromCharCode (a : number) : string :=
  String (Str.chr (toUint16 a)) EmptyString.

(** [s.charCodeAt(i)]: NaN out of range. *)
Definition charCodeAt (s : string) (i : Z) : number :=
  match Str.index s i with
  | Some (String c _) => Int (Str.code c)
  | _ => NaN
  end.

End Num.

(** [parseInt(v)] and [parseFloat(v)] of a possibly undefined string or of a
    number: the argument is converted to a string first. *)
Definition parseInt_opt (o : option string) : number := Num.parseInt (string_of_opt o).
Definition parseFloat_opt (o : option string) : number := Num.parseFloat (string_of_opt o).
Definition parseInt_num (a : number) : number := Num.parseInt (Num.toString a).

(* ===================================================================== *)
(** ** The property tree *)

(** A JS [Map] from keys to arrays of strings: insertion order is kept,
    [set] on a key that is present keeps its position. *)
Module PMap.

Definition t := list (string * list string).

Fixpoint get (m : t) (k : string) : option (list string) :=
  match m with
  | [] => None
  | (k', v) :: r => if Str.eqb k' k then Some v else get r k
  end.

Definition has (m : t) (k : string) : bool :=
  match get m k with Some _ => true | None => false end.

Fixpoint set (m : t) (k : string) (v : list string) : t :=
  match m with
  | [] => [(k, v)]
  | (k', v') :: r => if Str.eqb k' k then (k', v) :: r else (k', v') :: set r k v
  end.

(** A [Map] holds a key once; [delete] leaves no entry of the key. *)
Fixpoint delete (m : t) (k : string) : t :=
  match m with
  | [] => []
  | (k', v') :: r => if Str.eqb k' k then delete r k else (k', v') :: delete r k
  end.

End PMap.

(** Nodes are objects reached through several variables ([root], [node],
    [parent.children]); they live in a store and are named by the position
    at which [new Node] put them. *)
Abbreviation handle := nat (only parsing).

Record Node := mkNode {
  properties : PMap.t;
  children : list handle;
  parent : option handle
}.

Abbreviation heap := (list Node) (only parsing).

Definition with_properties (f : PMap.t → PMap.t) (n : Node) : Node :=
  mkNode (f (properties n)) (children n) (parent n).
Definition push_child (c : handle) (n : Node) : Node :=
  mkNode (properties n) (children n ++ [c]) (parent n).

(** [new Node(parent)] *)
Definition new_Node (h : heap) (parent : option handle) : heap * handle :=
  let this := length h in
  let h := h ++ [mkNode [] [] parent] in
  (match parent with
   | Some p => alter (push_child this) p h
   | None => h
   end, this).

(** [safeString(s)]: a backslash before every [\] and every []]. *)
Fixpoint safeString (s : string) : string :=
  match s with
  | EmptyString => EmptyString
  | String c r =>
      if Ascii.eqb c "]" || Ascii.eqb c "\"
      then String "\" (String c (safeString r))
      else String c (safeString r)
  end.

(** [node.safeCommit(key, value)] *)
Definition safeCommit (h : heap) (node : handle) (key value : string) : heap :=
  let safe_s := safeString value in
  if Str.truthy safe_s
  then alter (with_properties (fun m => PMap.set m key [safe_s])) node h
  else alter (with_properties (fun m => PMap.delete m key)) node h.

(** [node.addValue(key, value)], [value] already a string. *)
Definition add_value (key value : string) (m : PMap.t) : PMap.t :=
  let m := if negb (PMap.has m key) then PMap.set m key [] else m in
  match PMap.get m key with
  | Some vs =>
      if negb (existsb (Str.eqb value) vs) then PMap.set m key (vs ++ [value]) else m
  | None => m
  end.
Definition addValue (h : heap) (node : handle) (key value : string) : heap :=
  alter (with_properties (add_value key value)) node h.

(** [node.setValue(key, value)], [value] already a string. *)
Definition setValue (h : heap) (node : handle) (key value : string) : heap :=
  alter (with_properties (fun m => PMap.set m key [value])) node h.

(** [node.properties], [node.children] *)
Definition props_of (h : heap) (node : handle) : PMap.t :=
  match h !! node with Some n => properties n | None => [] end.
Definition children_of (h : heap) (node : handle) : list handle :=
  match h !! node with Some n => children n | None => [] end.

(* ===================================================================== *)
(** ** Coordinates and handicap points *)

(** [stringFromPoint(x, y)] *)
Definition stringFromPoint (x y : number) : result string :=
  if Num.lt x (Int 1) || Num.gt x (Int 26) || Num.lt y (Int 1) || Num.gt y (Int 26)
  then Throw ValueError
  else
    let s := EmptyString in
    let s := s +:+ Num.fromCharCode (Num.add x (Int 96)) in
    let s := s +:+ Num.fromCharCode (Num.add y (Int 96)) in
    Ok s.

Definition point := (number * number)%type.

(** [handicapPoints(boardsize, handicap, tygem)].  The [Set] holds arrays;
    every [points.add([a, b])] adds a fresh array object, which the set
    (comparing objects by identity) never finds present: the set is the list
    of the added points in insertion order. *)
Definition handicapPoints (boardsize handicap : number) (tygem : bool) : list point :=
  let points := [] in
  if Num.lt boardsize (Int 4) then points
  else
    let handicap := if Num.gt handicap (Int 9) then Int 9 else handicap in
    let d := if Num.lt boardsize (Int 13) then Int 2 else Int 3 in
    let lo := Num.add (Int 1) d in
    let hi := Num.sub boardsize d in
    let points :=
      if Num.ge handicap (Int 2) then points ++ [(hi, lo); (lo, hi)] else points in
    let points :=
      if Num.ge handicap (Int 3)
      then points ++ [if tygem then (lo, lo) else (hi, hi)] else points in
    let points :=
      if Num.ge handicap (Int 4)
      then points ++ [if tygem then (hi, hi) else (lo, lo)] else points in
    if Num.eq (Num.rem2 boardsize) (Int 0) then points
    else
      let mid := Num.floor (Num.div2 (Num.add boardsize (Int 1))) in
      let among (l : list Z) := existsb (fun k => Num.eq (Int k) handicap) l in
      let points := if among [5; 7; 9] then points ++ [(mid, mid)] else points in
      let points :=
        if among [6; 7; 8; 9] then points ++ [(lo, mid); (hi, mid)] else points in
      let points :=
        if among [8; 9] then points ++ [(mid, lo); (mid, hi)] else points in
      points.

(* ===================================================================== *)
(** ** Loops over lines *)

(** What one turn of a [for (let line of lines)] body leaves: the state,
    and whether the turn ran to its end or left through [continue]. *)
Inductive turn (S : Type) := Next (s : S) | Continue (s : S).
Arguments Next {S} s.
Arguments Continue {S} s.

(** [for (const x of xs) { body }], with a body that may throw. *)
Fixpoint for_of {S X} (body : S → X → result S) (s : S) (xs : list X) : result S :=
  match xs with
  | [] => Ok s
  | x :: r => s' ← body s x; for_of body s' r
  end.

(* ===================================================================== *)
(** ** Parser A: [parseGib] *)

(** The handle of the first node made on an empty store: [root]. *)
Definition root : handle := 0%nat.

(** [line.match(/PRE(\d+),/)]: the digits of the leftmost match.  At a
    position where [PRE] is, the greedy [\d+] takes every digit there, and
    giving some back cannot make a comma follow. *)
Fixpoint match_number (pre : string) (s : string) : option string :=
  let here :=
    if Str.startsWith s pre then
      let '(ds, rest) := Str.span Str.is_digit (Str.slice s (Str.len pre) None) in
      if negb (Str.is_empty ds) && Str.startsWith rest "," then Some ds else None
    else None in
  match here with
  | Some ds => Some ds
  | None =>
      match s with
      | EmptyString => None
      | String _ r => match_number pre r
      end
  end.

(** [line.match(/C(\d\d\d\d):(\d\d):(\d\d)/)]: the three groups of the
    leftmost match. *)
Definition all_digits (s : string) (n : Z) : bool :=
  (Str.len s =? n) && Str.is_empty (snd (Str.span Str.is_digit s)).
Fixpoint match_date (s : string) : option (list string) :=
  let y := Str.slice s 1 (Some 5) in
  let m := Str.slice s 6 (Some 8) in
  let d := Str.slice s 9 (Some 11) in
  if Str.startsWith s "C" && all_digits y 4 && Str.eqb (Str.charAt s 5) ":" &&
     all_digits m 2 && Str.eqb (Str.charAt s 8) ":" && all_digits d 2
  then Some [y; m; d]
  else match s with
       | EmptyString => None
       | String _ r => match_date r
       end.

(** [gibMakeResult(grlt, zipsu)].  [grlt in easycases] asks whether the
    string of [grlt] is one of the keys 3, 4, 7, 8. *)
Definition gibMakeResult (grlt zipsu : number) : string :=
  let key := Num.toString grlt in
  if Str.eqb key "3" then "B+R"
  else if Str.eqb key "4" then "W+R"
  else if Str.eqb key "7" then "B+T"
  else if Str.eqb key "8" then "W+T"
  else if Num.eq grlt (Int 0) || Num.eq grlt (Int 1) then
    (if Num.eq grlt (Int 0) then "B" else "W") +:+ "+" +:+ Num.toString (Num.div10 zipsu)
  else "".

(** [gibGetResult(line, grltRegex, zipsuRegex)], the two regular
    expressions given by the text before their [(\d+),]. *)
Definition gibGetResult (line grltPre zipsuPre : string) : string :=
  match match_number grltPre line with
  | Some g =>
      let grlt := Num.parseInt g in
      match match_number zipsuPre line with
      | Some z => gibMakeResult grlt (Num.parseInt z)
      | None => ""
      end
  | None => ""
  end.

(** [parsePlayerName(raw)] *)
Definition parsePlayerName (raw : string) : string * string :=
  let name := "" in
  let rank := "" in
  let foo := Str.split "(" raw in
  let '(name, rank) :=
    match foo with
    | [foo0; foo1] =>
        if Str.eqb (Str.charAt foo1 (Str.len foo1 - 1)) ")"
        then (Str.trim foo0, Str.slice foo1 0 (Some (-1)))
        else (name, rank)
    | _ => (name, rank)
    end in
  if Str.truthy name then (name, rank) else (raw, "").

(** The [GAMEBLACKNAME] / [GAMEWHITENAME] step of the loop body; [tag] is
    the opening text, [kname] and [krank] the two keys. *)
Definition gib_name (tag kname krank : string) (h : heap) (line : string) : heap :=
  if Str.startsWith line tag && Str.endsWith line "\]" then
    let s := Str.slice line 16 (Some (-2)) in
    let '(name, rank) := parsePlayerName s in
    let h := if Str.truthy name then safeCommit h root kname name else h in
    let h := if Str.truthy rank then safeCommit h root krank rank else h in
    h
  else h.

(** The [GAMEINFOMAIN] step. *)
Definition gib_infomain (h : heap) (line : string) : heap :=
  if Str.startsWith line "\[GAMEINFOMAIN=" then
    let h :=
      if negb (PMap.has (props_of h root) "RE") then
        let result := gibGetResult line "GRLT:" "ZIPSU:" in
        if Str.truthy result then setValue h root "RE" result else h
      else h in
    let h :=
      if negb (PMap.has (props_of h root) "KM") then
        match match_number "GONGJE:" line with
        | Some g =>
            let komi := Num.div10 (Num.parseInt g) in
            if Num.truthy komi then setValue h root "KM" (Num.toString komi) else h
        | None => h
        end
      else h in
    h
  else h.

(** The [GAMETAG] step. *)
Definition gib_gametag (h : heap) (line : string) : heap :=
  if Str.startsWith line "\[GAMETAG=" then
    let h :=
      if negb (PMap.has (props_of h root) "DT") then
        match match_date line with
        | Some groups => setValue h root "DT" (Str.join "-" groups)
        | None => h
        end
      else h in
    let h :=
      if negb (PMap.has (props_of h root) "RE") then
        let result := gibGetResult line ",W" ",Z" in
        if Str.truthy result then setValue h root "RE" result else h
      else h in
    let h :=
      if negb (PMap.has (props_of h root) "KM") then
        match match_number ",G" line with
        | Some g =>
            let komi := Num.div10 (Num.parseInt g) in
            setValue h root "KM" (Num.toString komi)
        | None => h
        end
      else h in
    h
  else h.

(** The four metadata steps, in the order of the loop body. *)
Definition gib_meta (h : heap) (line : string) : heap :=
  let h := gib_name "\[GAMEBLACKNAME=" "PB" "BR" h line in
  let h := gib_name "\[GAMEWHITENAME=" "PW" "WR" h line in
  let h := gib_infomain h line in
  gib_gametag h line.

(** The [INI] step: the handicap line. *)
Definition gib_ini (h : heap) (node : handle) (line : string) : result (turn heap) :=
  if Str.eqb (Str.slice line 0 (Some 3)) "INI" then
    if negb (Nat.eqb node root) then Throw ParserFail
    else
      let setup := Str.split_ws (Str.trim line) in
      if truthy_opt (at_ setup 3) then
        let handicap := parseInt_opt (at_ setup 3) in
        if Num.lt handicap (Int 0) || Num.gt handicap (Int 9) then Throw ParserFail
        else if Num.ge handicap (Int 2) then
          let h := setValue h node "HA" (Num.toString handicap) in
          let stones := handicapPoints (Int 19) handicap true in
          h ← for_of (fun h (pt : point) =>
                        v ← stringFromPoint (fst pt) (snd pt);
                        Ok (addValue h node "AB" v)) h stones;
          Ok (Next h)
        else Ok (Next h)
      else Ok (Continue h)
  else Ok (Next h).

(** The [STO] step: a move. *)
Definition gib_sto (h : heap) (node : handle) (line : string) : heap * handle :=
  if Str.eqb (Str.slice line 0 (Some 3)) "STO" then
    let move := Str.split_ws (Str.trim line) in
    let key := if decide (at_ move 3 = Some "1") then "B" else "W" in
    if truthy_opt (at_ move 4) then
      let x := Num.add (parseInt_opt (at_ move 4)) (Int 1) in
      if truthy_opt (at_ move 5) then
        let y := Num.add (parseInt_opt (at_ move 5)) (Int 1) in
        match stringFromPoint x y with
        | Ok value =>
            let '(h, node) := new_Node h (Some node) in
            (setValue h node key value, node)
        | Throw _ => (h, node)
        end
      else (h, node)
    else (h, node)
  else (h, node).

(** One turn of the loop of [parseGib]. *)
Definition gib_line (st : heap * handle) (line : string) : result (heap * handle) :=
  let '(h, node) := st in
  let line := Str.trim line in
  let h := gib_meta h line in
  t ← gib_ini h node line;
  match t with
  | Continue h => Ok (h, node)
  | Next h => Ok (gib_sto h node line)
  end.

(** [parseGib(gib)] up to the end of its loop. *)
Definition parseGib_loop (gib : string) : result (heap * handle) :=
  let '(h, root) := new_Node [] None in
  let node := root in
  let lines := Str.split "010" gib in
  for_of gib_line (h, node) lines.

(** [parseGib(gib)]: the store and the root it returns. *)
Definition parseGib (gib : string) : result (heap * handle) :=
  '(h, _) ← parseGib_loop gib;
  if (length (children_of h root) =? 0)%nat then Throw ParserFail
  else Ok (h, root).

(* ===================================================================== *)
(** ** Parser B: [parseNgf] *)

(** The values [parseNgf] reads off the fixed lines, as the source computes
    them. *)
Definition ngf_boardsize (lines : list string) : number :=
  let boardsize := parseInt_opt (at_ lines 1) in
  if Num.isInteger boardsize then Int 19 else boardsize.

Definition ngf_handicap (lines : list string) : number :=
  let handicap := parseInt_opt (at_ lines 5) in
  if Num.isInteger handicap then Int 0 else handicap.

Definition ngf_komi (lines : list string) : number :=
  let handicap := ngf_handicap lines in
  let komi := parseFloat_opt (at_ lines 7) in
  let komi := if Num.isFinite komi then Int 0 else komi in
  if Num.eq handicap (Int 0) && Num.eq (parseInt_num komi) komi
  then Num.add komi (Dec 5 1) else komi.

(** The first space-separated word of a line, [""] for a missing line. *)
Definition ngf_player (line : option string) : string :=
  match line with
  | Some l =>
      if Str.truthy l then
        match Str.split_ws (Str.trim l) with w :: _ => w | [] => "" end
      else ""
  | None => ""
  end.

Definition ngf_rawdate (lines : list string) : string :=
  match at_ lines 8 with
  | Some l => if Str.truthy l then Str.slice l 0 (Some 8) else ""
  | None => ""
  end.

Definition ngf_re (lines : list string) : string :=
  let re := "" in
  match at_ lines 10 with
  | Some l =>
      if Str.truthy l then
        if Str.includes l "hite win" then "W+"
        else if Str.includes l "lack win" then "B+"
        else re
      else re
  | None => re
  end.

(** The date check: all eight characters among the digits. *)
Definition ngf_date_ok (rawdate : string) : bool :=
  forallb (fun n => Str.includes "0123456789" (string_of_opt (Str.index rawdate n)))
          [0; 1; 2; 3; 4; 5; 6; 7].

(** The root values set before the main loop. *)
Definition ngf_root (lines : list string) : result heap :=
  let boardsize := ngf_boardsize lines in
  let handicap := ngf_handicap lines in
  let pw := ngf_player (at_ lines 2) in
  let pb := ngf_player (at_ lines 3) in
  let rawdate := ngf_rawdate lines in
  let komi := ngf_komi lines in
  let re := ngf_re lines in
  if Num.lt handicap (Int 0) || Num.gt handicap (Int 9) then Throw ParserFail
  else
    let '(h, root) := new_Node [] None in
    let h := setValue h root "SZ" (Num.toString boardsize) in
    h ← (if Num.ge handicap (Int 2) then
           let h := setValue h root "HA" (Num.toString handicap) in
           let stones := handicapPoints boardsize handicap true in
           for_of (fun h (pt : point) =>
                     v ← stringFromPoint (fst pt) (snd pt);
                     Ok (addValue h root "AB" v)) h stones
         else Ok h);
    let h := if Num.truthy komi then setValue h root "KM" (Num.toString komi) else h in
    let h :=
      if Str.len rawdate =? 8 then
        if ngf_date_ok rawdate then
          let date := Str.slice rawdate 0 (Some 4) +:+ "-" +:+
                      Str.slice rawdate 4 (Some 6) +:+ "-" +:+
                      Str.slice rawdate 6 (Some 8) in
          setValue h root "DT" date
        else h
      else h in
    let h := if Str.truthy pw then safeCommit h root "PW" pw else h in
    let h := if Str.truthy pb then safeCommit h root "PB" pb else h in
    let h := if Str.truthy re then setValue h root "RE" re else h in
    Ok h.

(** One turn of the main loop: a [PM] move line. *)
Definition ngf_line (st : heap * handle) (line : string) : result (heap * handle) :=
  let '(h, node) := st in
  let line := Str.toUpperCase (Str.trim line) in
  if 7 <=? Str.len line then
    if Str.eqb (Str.slice line 0 (Some 2)) "PM" then
      if existsb (Str.eqb (Str.charAt line 4)) ["B"; "W"] then
        let key := Str.charAt line 4 in
        let x := Num.sub (Num.charCodeAt line 5) (Int 65) in
        let y := Num.sub (Num.charCodeAt line 6) (Int 65) in
        match stringFromPoint x y with
        | Ok value =>
            let '(h, node) := new_Node h (Some node) in
            Ok (setValue h node key value, node)
        | Throw _ => Ok (h, node)
        end
      else Ok (h, node)
    else Ok (h, node)
  else Ok (h, node).

(** [parseNgf(ngf)] up to the end of its loop. *)
Definition parseNgf_loop (ngf : string) : result (heap * handle) :=
  let ngf := Str.trim ngf in
  let lines := Str.split "010" ngf in
  h ← ngf_root lines;
  for_of ngf_line (h, root) lines.

(** [parseNgf(ngf)] *)
Definition parseNgf (ngf : string) : result (heap * handle) :=
  '(h, _) ← parseNgf_loop ngf;
  if (length (children_of h root) =? 0)%nat then Throw ParserFail
  else Ok (h, root).

(* ===================================================================== *)
(** ** Parser C: [parseUgf] *)

(** The variables of [parseUgf]; [None] is [null]. *)
Record ugf_state := mkUgf {
  u_heap : heap;
  u_node : handle;
  u_boardsize : option number;
  u_handicap : option number;
  u_handicapStonesSet : number;
  u_coordinateType : string;
  u_section : option string
}.

(** A number where the source may hold [null]: [null] counts as 0 in
    arithmetic and in comparisons. *)
Definition num_of (o : option number) : number :=
  match o with Some n => n | None => Int 0 end.

(** [line.chatAt(0)].  Strings have no method of this name: the property
    is [undefined], and calling it throws a TypeError. *)
Definition chatAt (line : string) (i : Z) : result string := Throw TypeError.

(** The [try] block at the head of the loop body.  [Ok true] is its
    [continue]; [Ok false] is falling out of the [if].  The section name it
    reads is a [const] of the inner block, the [section] of the function is
    not assigned. *)
Definition ugf_header_check (st : ugf_state) (line : string) : result bool :=
  c ← chatAt line 0;
  if Str.eqb c "[" && Str.eqb (Str.charAt line (Str.len line - 1)) "]" then
    let section := Str.toUpperCase line in
    if Str.eqb section "[DATA]" then
      match u_handicap st, u_boardsize st with
      | Some handicap, Some boardsize =>
          if Num.lt boardsize (Int 1) || Num.gt boardsize (Int 19) ||
             Num.lt handicap (Int 0)
          then Throw ParserFail
          else Ok true
      | _, _ => Throw ParserFail
      end
    else Ok true
  else Ok false.

Definition set_heap (st : ugf_state) (h : heap) : ugf_state :=
  mkUgf h (u_node st) (u_boardsize st) (u_handicap st) (u_handicapStonesSet st)
        (u_coordinateType st) (u_section st).

(** The second field of [line.split("=")], [undefined] when there is none. *)
Definition after_eq (line : string) : option string := at_ (Str.split "=" line) 1.

(** The branch of the loop body for the header section.  The [HDCP] case
    runs inside a [try] whose handler is [continue]; a missing field after
    the [=] makes the method call on [undefined] throw a TypeError. *)
Definition ugf_header_line (st : ugf_state) (line : string) : result ugf_state :=
  let up := Str.toUpperCase line in
  let h := u_heap st in
  if Str.startsWith up "HDCP=" then
    try_catch
      (v ← (match after_eq line with Some v => Ok v | None => Throw TypeError end);
       let fields := Str.split "," v in
       let handicap := parseInt_opt (at_ fields 0) in
       let h := if Num.ge handicap (Int 2)
                then setValue h root "HA" (Num.toString handicap) else h in
       let komi := parseFloat_opt (at_ fields 1) in
       let h := setValue h root "KM" (Num.toString komi) in
       Ok (mkUgf h (u_node st) (u_boardsize st) (Some handicap)
                 (u_handicapStonesSet st) (u_coordinateType st) (u_section st)))
      (fun _ => Ok st)
  else if Str.startsWith up "SIZE=" then
    let boardsize := parseInt_opt (after_eq line) in
    let h := setValue h root "SZ" (Num.toString boardsize) in
    Ok (mkUgf h (u_node st) (Some boardsize) (u_handicap st)
              (u_handicapStonesSet st) (u_coordinateType st) (u_section st))
  else if Str.startsWith up "COORDINATETYPE=" then
    v ← (match after_eq line with Some v => Ok v | None => Throw TypeError end);
    Ok (mkUgf h (u_node st) (u_boardsize st) (u_handicap st)
              (u_handicapStonesSet st) (Str.toUpperCase v) (u_section st))
  else if Str.startsWith up "PLAYERB=" then
    Ok (set_heap st (safeCommit h root "PB" (Str.slice line 8 None)))
  else if Str.startsWith up "PLAYERW=" then
    Ok (set_heap st (safeCommit h root "PW" (Str.slice line 8 None)))
  else if Str.startsWith up "PLACE=" then
    Ok (set_heap st (safeCommit h root "PC" (Str.slice line 6 None)))
  else if Str.startsWith up "TITLE=" then
    Ok (set_heap st (safeCommit h root "GN" (Str.slice line 6 None)))
  else if Str.startsWith up "WINNER=B" then
    Ok (set_heap st (setValue h root "RE" "B+"))
  else if Str.startsWith up "WINNER=W" then
    Ok (set_heap st (setValue h root "RE" "W+"))
  else Ok st.

(** The branch of the loop body for the data section: one record.  The
    state is returned unchanged where the source leaves through
    [continue]. *)
Definition ugf_data_line (st : ugf_state) (line : string) : ugf_state :=
  let line := Str.toUpperCase line in
  let slist := Str.split "," line in
  match at_ slist 0, at_ slist 1 with
  | Some s0, Some s1 =>
      let xChr := Str.charAt s0 0 in
      let yChr := Str.charAt s0 1 in
      let colour := Str.charAt s1 0 in
      if Str.is_empty xChr || Str.is_empty yChr || Str.is_empty colour then st
      else
        let nodeChr :=
          match at_ slist 2 with
          | Some s2 => if Str.truthy s2 then Str.charAt s2 0 else ""
          | None => ""
          end in
        if negb (existsb (Str.eqb colour) ["B"; "W"]) then st
        else
          let boardsize := num_of (u_boardsize st) in
          let x := Num.sub (Num.charCodeAt xChr 0) (Int 64) in
          let y :=
            if Str.eqb (u_coordinateType st) "IGS"
            then Num.add (Num.sub boardsize (Num.sub (Num.charCodeAt yChr 0) (Int 64))) (Int 1)
            else Num.sub (Num.charCodeAt yChr 0) (Int 64) in
          let value :=
            if Num.gt x boardsize || Num.lt x (Int 1) ||
               Num.gt y boardsize || Num.lt y (Int 1)
            then Ok ""
            else stringFromPoint x y in
          match value with
          | Throw _ => st
          | Ok value =>
              let differs :=
                match u_handicap st with
                | Some hc => negb (Num.eq (u_handicapStonesSet st) hc)
                | None => true
                end in
              if Num.ge (num_of (u_handicap st)) (Int 2) && differs &&
                 Str.eqb nodeChr "0" && Str.eqb colour "B" &&
                 Nat.eqb (u_node st) root
              then
                mkUgf (addValue (u_heap st) (u_node st) "AB" value) (u_node st)
                      (u_boardsize st) (u_handicap st)
                      (Num.add (u_handicapStonesSet st) (Int 1))
                      (u_coordinateType st) (u_section st)
              else
                let '(h, node) := new_Node (u_heap st) (Some (u_node st)) in
                mkUgf (setValue h node colour value) node
                      (u_boardsize st) (u_handicap st) (u_handicapStonesSet st)
                      (u_coordinateType st) (u_section st)
          end
  | _, _ => st
  end.

(** One turn of the loop of [parseUgf].  The handler of the first [try] is
    empty: whatever the block throws, the body goes on below it. *)
Definition ugf_line (st : ugf_state) (line : string) : result ugf_state :=
  let line := Str.trim line in
  match try_catch (ugf_header_check st line) (fun _ => Ok false) with
  | Ok true => Ok st
  | _ =>
      if decide (u_section st = Some "[HEADER]") then ugf_header_line st line
      else if decide (u_section st = Some "[DATA]") then Ok (ugf_data_line st line)
      else Ok st
  end.

(** [parseUgf(ugf)] up to the end of its loop. *)
Definition parseUgf_loop (ugf : string) : result ugf_state :=
  let '(h, root) := new_Node [] None in
  let lines := Str.split "010" ugf in
  for_of ugf_line (mkUgf h root None None (Int 0) "" None) lines.

(** [parseUgf(ugf)] *)
Definition parseUgf (ugf : string) : result (heap * handle) :=
  st ← parseUgf_loop ugf;
  if (length (children_of (u_heap st) root) =? 0)%nat then Throw ParserFail
  else Ok (u_heap st, root).

(* ===================================================================== *)
(** ** [parse]: dispatch and normalisation of the root *)

(** The table [loaders]: the parser and the text encoding of an extension. *)
Definition loaders : list (string * ((string → result (heap * handle)) * string)) :=
  [(".gib", (parseGib, "utf8"));
   (".ngf", (parseNgf, "gb18030"));
   (".ugf", (parseUgf, "shift_jisx0213"));
   (".ugi", (parseUgf, "shift_jisx0213"))].

Fixpoint loader_of (tbl : list (string * ((string → result (heap * handle)) * string)))
    (ext : string) : option (string → result (heap * handle)) :=
  match tbl with
  | [] => None
  | (e, (f, _)) :: r => if Str.eqb e ext then Some f else loader_of r ext
  end.

(** The statements of [parse] after the parser has returned [root]. *)
Definition normalize (h : heap) (root : handle) : result (heap * handle) :=
  let h := setValue h root "FF" (Num.toString (Int 4)) in
  let h := setValue h root "GM" (Num.toString (Int 1)) in
  let h := setValue h root "CA" "UTF-8" in
  let '(size, h) :=
    match PMap.get (props_of h root) "SZ" with
    | Some vs => (parseInt_opt (at_ vs 0), h)
    | None => (Int 19, setValue h root "SZ" "19")
    end in
  if Num.gt size (Int 19) || Num.lt size (Int 1) then Throw BadBoardSize
  else Ok (h, root).

(** [parse(contents, ext)]; an extension outside the table makes the
    lookup of ["function"] on [undefined] throw a TypeError. *)
Definition parse (contents ext : string) : result (heap * handle) :=
  match loader_of loaders ext with
  | Some f => '(h, root) ← f contents; normalize h root
  | None => Throw TypeError
  end.

(* ===================================================================== *)
(** ** The serializer: [writeTree] *)

(** [writeTree] only reads [node.properties] and [node.children]; what it
    sees from a node is a finite tree of property maps. *)
#[warnings="-register-all"]
Inductive tree := TNode (props : PMap.t) (kids : list tree).

Definition tree_props (t : tree) : PMap.t := match t with TNode p _ => p end.
Definition tree_kids (t : tree) : list tree := match t with TNode _ k => k end.

(** The tree under a handle of the store, to the given depth. *)
Fixpoint tree_of (fuel : nat) (h : heap) (n : handle) : tree :=
  match fuel with
  | O => TNode (props_of h n) []
  | S k => TNode (props_of h n) (map (tree_of k h) (children_of h n))
  end.

(** One call of [writeStream.write], by the place in [writeTree] that makes
    it. *)
Inductive chunk :=
  | GroupOpen                 (* write("(")  *)
  | NodeStart                 (* write(";")  *)
  | Key (k : string)          (* write(key)  *)
  | Value (v : string)        (* write(`[${value}]`) *)
  | GroupClose.               (* write(")\n") *)

Definition chunk_text (c : chunk) : string :=
  match c with
  | GroupOpen => "("
  | NodeStart => ";"
  | Key k => k
  | Value v => "[" +:+ v +:+ "]"
  | GroupClose => String ")" (String "010" EmptyString)
  end.

(** The writes of the [for] over [node.properties]. *)
Definition write_props (m : PMap.t) : list chunk :=
  flat_map (fun '(key, values) => Key key :: map Value values) m.

(** The [while (true)] loop of [writeTree] from a node on: the node's
    statement, then the single child in the same group, or every child in a
    group of its own, or nothing. *)
Fixpoint write_loop (node : tree) : list chunk :=
  match node with
  | TNode props kids =>
      NodeStart :: write_props props ++
      match kids with
      | [] => []
      | [child] => write_loop child
      | _ => flat_map (fun child => GroupOpen :: write_loop child ++ [GroupClose]) kids
      end
  end.

(** [writeTree(writeStream, node)]: the writes it makes, in order. *)
Definition writeTree (node : tree) : list chunk :=
  GroupOpen :: write_loop node ++ [GroupClose].

(** What the stream holds after the writes. *)
Definition stream_text (cs : list chunk) : string :=
  fold_right (fun c acc => chunk_text c +:+ acc) EmptyString cs.

(** [xyz2sgf(str, ext)]: the string the promise resolves to. *)
Definition xyz2sgf (str ext : string) : result string :=
  '(h, root) ← parse str ext;
  Ok (stream_text (writeTree (tree_of (length h) h root))).

(* ===================================================================== *)
(** ** File names: [getExtension], [load], [fileToConvertedString], [baseName] *)

(** The string methods of this part of the source. *)
Module StrMore.

(** [s.lastIndexOf(c)] for a [c] of one character: -1 when it is absent. *)
Fixpoint lastIndexOf (s : string) (c : ascii) : Z :=
  match s with
  | EmptyString => -1
  | String x r =>
      let i := lastIndexOf r c in
      if 0 <=? i then i + 1 else if Ascii.eqb x c then 0 else -1
  end.

(** [s.substring(start, end)]: both bounds are brought into the string and
    put in order; [None] is an omitted [end]. *)
Definition substring (s : string) (start : Z) (end_ : option Z) : string :=
  let n := Str.len s in
  let a := Z.min (Z.max start 0) n in
  let b := match end_ with Some e => Z.min (Z.max e 0) n | None => n end in
  String.substring (Z.to_nat (Z.min a b)) (Z.to_nat (Z.max a b - Z.min a b)) s.

Definition lower (c : ascii) : ascii :=
  let n := Str.code c in
  if (65 <=? n) && (n <=? 90) then Str.chr (n + 32) else c.

(** [s.toLowerCase()] on the letters A to Z, all that the match of
    [getExtension] can hold. *)
Fixpoint toLowerCase (s : string) : string :=
  match s with
  | EmptyString => EmptyString
  | String c r => String (lower c) (toLowerCase r)
  end.

(** The class [\w]: letters, digits and the underscore. *)
Definition is_word (c : ascii) : bool :=
  let n := Str.code c in
  ((48 <=? n) && (n <=? 57)) || ((65 <=? n) && (n <=? 90)) || (n =? 95) ||
  ((97 <=? n) && (n <=? 122)).

Fixpoint all_word (s : string) : bool :=
  match s with
  | EmptyString => true
  | String c r => is_word c && all_word r
  end.

End StrMore.

(** [filename.match(/(\.\w+)$/)]: the group of the leftmost match.  The
    expression matches at a dot that is followed by word characters, one at
    least, up to the end of the string. *)
Fixpoint match_extension (s : string) : option string :=
  match s with
  | EmptyString => None
  | String c r =>
      if Ascii.eqb c "." && negb (Str.is_empty r) && StrMore.all_word r then Some s
      else match_extension r
  end.

(** [getExtension(filename)]; [None] is [null]. *)
Definition getExtension (filename : string) : option string :=
  match match_extension filename with
  | Some m => Some (StrMore.toLowerCase m)
  | None => None
  end.

(** The encoding the table [loaders] gives for an extension. *)
Fixpoint encoding_of (tbl : list (string * ((string → result (heap * handle)) * string)))
    (ext : string) : option string :=
  match tbl with
  | [] => None
  | (e, (_, enc)) :: r => if Str.eqb e ext then Some enc else encoding_of r ext
  end.

(** [load(filename)].  [readFileSync filename encoding] is the text
    [fs.readFileSync] returns, [None] when it throws; that exception bubbles
    up, and is the [None] of the result.  The message on the console is left
    out. *)
Definition load (readFileSync : string → string → option string) (filename : string)
    : option (result (heap * handle)) :=
  match getExtension filename with
  | Some ext =>
      match encoding_of loaders ext with
      | Some encoding =>
          match readFileSync filename encoding with
          | Some contents => Some (parse contents ext)
          | None => None
          end
      | None => Some (Throw UnknownFormat)
      end
  | None => Some (Throw UnknownFormat)
  end.

(** [fileToConvertedString(filename)]: what the promise resolves to, or is
    rejected with. *)
Definition fileToConvertedString (readFileSync : string → string → option string)
    (filename : string) : option (result string) :=
  match load readFileSync filename with
  | Some r =>
      Some ('(h, root) ← r; Ok (stream_text (writeTree (tree_of (length h) h root))))
  | None => None
  end.

(** [baseName(str)] *)
Definition baseName (str : string) : string :=
  let base := StrMore.substring str (StrMore.lastIndexOf str "/" + 1) None in
  if negb (StrMore.lastIndexOf base "." =? -1)
  then StrMore.substring base 0 (Some (StrMore.lastIndexOf base "."))
  else base.

(* ===================================================================== *)
(** * The vocabulary of the statements *)

(** ** Ranges, coordinates, handicap points *)

(** The [n] integers from [lo] on. *)
Definition zrange (lo : Z) (n : nat) : list Z :=
  map (fun i => lo + Z.of_nat i) (seq 0 n).

(** The string of the two code units [a] and [b]. *)
Definition two_chars (a b : Z) : string :=
  String (Str.chr a) (String (Str.chr b) EmptyString).

(** A .gib text of two moves, the second with the column "x". *)
Definition gib_bad_coordinate : string :=
  Str.join (String "010" EmptyString) ["STO 0 1 1 3 3"; "STO 0 2 2 x 3"].

(** The number of points the rules give: none below two stones, the
    handicap itself on an odd board, at most the four corner points on an
    even board. *)
Definition documented_count (boardsize handicap : Z) : Z :=
  if handicap <? 2 then 0
  else if Z.even boardsize then Z.min handicap 4
  else handicap.

(** The number of distinct coordinates among the points. *)
Definition distinct_points (pts : list point) : Z :=
  Z.of_nat (length (remove_dups pts)).

Definition on_board (boardsize : Z) (p : point) : bool :=
  match p with
  | (Int x, Int y) => (1 <=? x) && (x <=? boardsize) && (1 <=? y) && (y <=? boardsize)
  | _ => false
  end.

(** The statement in question at one board size and handicap. *)
Definition handicap_claim (boardsize handicap : Z) (tygem : bool) : Prop :=
  let pts := handicapPoints (Int boardsize) (Int handicap) tygem in
  distinct_points pts = documented_count boardsize handicap ∧
  forallb (on_board boardsize) pts = true.

(** What holds at every board size: as many points as documented (points
    of equal coordinates counted each), all on the board; distinct
    coordinates except on the board of size 5, where every point is the
    centre. *)
Definition handicap_check (boardsize handicap : Z) (tygem : bool) : bool :=
  let pts := handicapPoints (Int boardsize) (Int handicap) tygem in
  (Z.of_nat (length pts) =? documented_count boardsize handicap) &&
  forallb (on_board boardsize) pts &&
  (if boardsize =? 5
   then forallb (fun p => bool_decide (p = (Int 3, Int 3))) pts
   else distinct_points pts =? documented_count boardsize handicap).

(** ** The writes of the serializer *)

(** The chain of nodes with the given property maps: each node but the
    last has the next one as its only child. *)
Fixpoint chain (first : PMap.t) (rest : list PMap.t) : tree :=
  match rest with
  | [] => TNode first []
  | next :: rest' => TNode first [chain next rest']
  end.

(** The writes for one node: its [;] and its properties. *)
Definition node_statement (m : PMap.t) : list chunk := NodeStart :: write_props m.

Definition is_open (c : chunk) : bool := match c with GroupOpen => true | _ => false end.
Definition is_close (c : chunk) : bool := match c with GroupClose => true | _ => false end.
Definition is_node (c : chunk) : bool := match c with NodeStart => true | _ => false end.

(** How many of the writes satisfy [p]. *)
Fixpoint count (p : chunk → bool) (cs : list chunk) : nat :=
  match cs with
  | [] => 0
  | c :: r => (if p c then 1 else 0) + count p r
  end%nat.

(** Depth of nesting after the writes [cs], starting at depth [d]; [None]
    if a group is closed that was not open. *)
Fixpoint depth_after (d : nat) (cs : list chunk) : option nat :=
  match cs with
  | [] => Some d
  | GroupOpen :: r => depth_after (S d) r
  | GroupClose :: r => match d with O => None | S d' => depth_after d' r end
  | _ :: r => depth_after d r
  end.

(** One group, closed by its own last write: an opening, a body that
    closes exactly the groups it opens, a closing. *)
Definition closed_group (cs : list chunk) : Prop :=
  ∃ body, cs = GroupOpen :: body ++ [GroupClose] ∧ depth_after 0 body = Some 0%nat.

(** ** Sample texts and what a parser leaves on the root *)

(** A .gib text with both player names and a result, and no move. *)
Definition gib_without_moves : string :=
  Str.join (String "010" EmptyString)
    ["\[GAMEBLACKNAME=Alice (1d)\]";
     "\[GAMEWHITENAME=Bob (2d)\]";
     "\[GAMEINFOMAIN=GBKIND:3,GRLT:0,ZIPSU:65,GONGJE:65,\]"].

Definition gib_without_moves_heap : heap :=
  [mkNode [("PB", ["Alice"]); ("BR", ["1d"]); ("PW", ["Bob"]); ("WR", ["2d"]);
           ("RE", ["B+6.5"]); ("KM", ["6.5"])] [] None].

(** The values of a key on the root a parser returned, [None] when the key
    is absent or the parser threw. *)
Definition root_value (r : result (heap * handle)) (key : string) : option (list string) :=
  match r with
  | Ok (h, root) => PMap.get (props_of h root) key
  | Throw _ => None
  end.

(** A .ngf text with the given board-size, handicap and komi lines, and two
    moves. *)
Definition ngf_text (size handicap komi : string) : string :=
  Str.join (String "010" EmptyString)
    ["Rated game"; size; "white 5d"; "black 4d"; "www"; handicap; "0"; komi;
     "20160326 [17:29]"; "0"; "White wins by resignation"; "PMABBQD"; "PMACWDQ"].

(** The board size [parse] reads off a root. *)
Definition size_of (m : PMap.t) : number :=
  match PMap.get m "SZ" with
  | Some vs => parseInt_opt (at_ vs 0)
  | None => Int 19
  end.

(** ** What the lines of a .gib text offer for the fields of the root *)

(** The lines as the loop body sees them. *)
Definition gib_lines (gib : string) : list string :=
  map Str.trim (Str.split "010" gib).

(** What a line would store in a field, if it stores anything: the result
    ([RE]) from a [GAMEINFOMAIN] or a [GAMETAG] line, likewise the komi
    ([KM]), the date ([DT]) from a [GAMETAG] line, a player's name and rank
    from a name line. *)
Definition infomain_re (line : string) : option string :=
  if Str.startsWith line "\[GAMEINFOMAIN=" then
    let result := gibGetResult line "GRLT:" "ZIPSU:" in
    if Str.truthy result then Some result else None
  else None.

Definition gametag_re (line : string) : option string :=
  if Str.startsWith line "\[GAMETAG=" then
    let result := gibGetResult line ",W" ",Z" in
    if Str.truthy result then Some result else None
  else None.

Definition infomain_km (line : string) : option string :=
  if Str.startsWith line "\[GAMEINFOMAIN=" then
    match match_number "GONGJE:" line with
    | Some g =>
        let komi := Num.div10 (Num.parseInt g) in
        if Num.truthy komi then Some (Num.toString komi) else None
    | None => None
    end
  else None.

Definition gametag_km (line : string) : option string :=
  if Str.startsWith line "\[GAMETAG=" then
    match match_number ",G" line with
    | Some g => Some (Num.toString (Num.div10 (Num.parseInt g)))
    | None => None
    end
  else None.

Definition or_else {A} (a b : option A) : option A :=
  match a with Some x => Some x | None => b end.

Definition re_offer (line : string) : option string :=
  or_else (infomain_re line) (gametag_re line).
Definition km_offer (line : string) : option string :=
  or_else (infomain_km line) (gametag_km line).

Definition dt_offer (line : string) : option string :=
  if Str.startsWith line "\[GAMETAG=" then
    match match_date line with
    | Some groups => Some (Str.join "-" groups)
    | None => None
    end
  else None.

Definition name_offer (tag : string) (line : string) : option (string * string) :=
  if Str.startsWith line tag && Str.endsWith line "\]"
  then Some (parsePlayerName (Str.slice line 16 (Some (-2))))
  else None.

Definition escaped_if_any (s : string) : option string :=
  if Str.truthy s then Some (safeString s) else None.

Definition pb_offer (line : string) : option string :=
  match name_offer "\[GAMEBLACKNAME=" line with
  | Some (name, _) => escaped_if_any name
  | None => None
  end.
Definition br_offer (line : string) : option string :=
  match name_offer "\[GAMEBLACKNAME=" line with
  | Some (_, rank) => escaped_if_any rank
  | None => None
  end.
Definition pw_offer (line : string) : option string :=
  match name_offer "\[GAMEWHITENAME=" line with
  | Some (name, _) => escaped_if_any name
  | None => None
  end.
Definition wr_offer (line : string) : option string :=
  match name_offer "\[GAMEWHITENAME=" line with
  | Some (_, rank) => escaped_if_any rank
  | None => None
  end.

(** The value of the first line that offers one, and of the last. *)
Fixpoint first_some {A} (offer : string → option A) (lines : list string) : option A :=
  match lines with
  | [] => None
  | l :: r => or_else (offer l) (first_some offer r)
  end.

Fixpoint last_some {A} (offer : string → option A) (lines : list string) : option A :=
  match lines with
  | [] => None
  | l :: r => or_else (last_some offer r) (offer l)
  end.

Definition single (v : string) : list string := [v].

(** The statement in question for one field: the root a successful parse
    returns holds what the first offering line offered. *)
Definition first_wins (key : string) (offer : string → option string) : Prop :=
  ∀ gib h r, parseGib gib = Ok (h, r) →
    PMap.get (props_of h r) key = single <$> first_some offer (gib_lines gib).

(** Two name lines for Black, and a move. *)
Definition gib_two_names : string :=
  Str.join (String "010" EmptyString)
    ["\[GAMEBLACKNAME=Alice (1d)\]";
     "\[GAMEBLACKNAME=Bob (2d)\]";
     "STO 0 2 1 15 15"].

(** How one turn changes a field where the first offer stays, and one
    where every offer overwrites. *)
Definition keep_first (cur : option (list string)) (offer : option string) :=
  match cur with Some v => Some v | None => single <$> offer end.
Definition take_last (cur : option (list string)) (offer : option string) :=
  match offer with Some v => Some [v] | None => cur end.

(** The value a key has on the root. *)
Definition stored (h : heap) (k : string) : option (list string) :=
  PMap.get (props_of h root) k.

(** Two result lines and two name lines for Black, and a move. *)
Definition gib_fields_example : string :=
  Str.join (String "010" EmptyString)
    ["\[GAMEBLACKNAME=Alice (1d)\]";
     "\[GAMEINFOMAIN=GRLT:0,ZIPSU:65,GONGJE:65,\]";
     "\[GAMEINFOMAIN=GRLT:3,ZIPSU:0,GONGJE:5,\]";
     "\[GAMEBLACKNAME=Bob (2d)\]";
     "STO 0 2 1 15 15"].

Definition gib_fields_example_heap : heap :=
  [mkNode [("PB", ["Bob"]); ("BR", ["2d"]); ("RE", ["B+6.5"]); ("KM", ["6.5"])]
          [1%nat] None;
   mkNode [("B", ["pp"])] [] (Some 0%nat)].

(** ** Reading a written value back *)

(** The reader's side of [safeString]: after the opening bracket of a value
    a backslash makes the next character literal, and the first bracket
    that is not escaped closes the value.  The result is the value read and
    the text after the closing bracket. *)
Fixpoint read_value (s : string) : option (string * string) :=
  match s with
  | EmptyString => None
  | String c r =>
      if Ascii.eqb c "]" then Some (EmptyString, r)
      else if Ascii.eqb c "\" then
        match r with
        | String c' r' =>
            match read_value r' with
            | Some (v, rest) => Some (String c' v, rest)
            | None => None
            end
        | EmptyString => None
        end
      else
        match read_value r with
        | Some (v, rest) => Some (String c v, rest)
        | None => None
        end
  end.

(** ** Maps and trees as a whole *)

(** The keys of a map, in insertion order. *)
Definition keys (m : PMap.t) : list string := map fst m.

(** The values of a key, none for a key that is absent. *)
Definition values_of (m : PMap.t) (k : string) : list string :=
  match PMap.get m k with Some vs => vs | None => [] end.

(** The number of nodes of a tree. *)
Fixpoint tree_size (t : tree) : nat :=
  match t with
  | TNode _ kids => S (list_sum (map tree_size kids))
  end.

(** The number of groups [writeTree] opens for a tree: its own, and those of
    the children of every node with two children or more. *)
Fixpoint groups_under (t : tree) : nat :=
  match t with
  | TNode _ kids =>
      match kids with
      | [] => 0
      | [child] => groups_under child
      | _ => list_sum (map (fun child => S (groups_under child)) kids)
      end
  end.

(** ** Characters of a string *)

(** Whether the character occurs in the string. *)
Fixpoint has_char (c : ascii) (s : string) : bool :=
  match s with
  | EmptyString => false
  | String x r => Ascii.eqb x c || has_char c r
  end.

(** ** The shape of what the parsers build *)

(** The properties of a move: one key, [B] or [W], with one value of two
    characters. *)
Definition move_props (m : PMap.t) : Prop :=
  ∃ k v, m = [(k, [v])] ∧ (k = "B" ∨ k = "W") ∧ String.length v = 2%nat.

(** A store that is one line of nodes: every node but the last has the next
    node as its only child, every node but the first has the node before as
    its parent, no node holds a key twice, and every node after the first
    is a move. *)
Definition linear (h : heap) : Prop :=
  ∀ i nd, h !! i = Some nd →
    children nd = (if (S i <? length h)%nat then [S i] else []) ∧
    parent nd = (match i with O => None | S j => Some j end) ∧
    NoDup (keys (properties nd)) ∧
    (i ≠ 0%nat → move_props (properties nd)).

(** The state of a parser's loop: a linear store with at least the root,
    and [node] its last node. *)
Definition at_tip (h : heap) (node : handle) : Prop :=
  (0 < length h)%nat ∧ node = (length h - 1)%nat ∧ linear h.

(** ** [parseNgf] in two steps *)

(** The statements of [parseNgf] that set the root values after the
    handicap stones: komi, date, players, result. *)
Definition ngf_root_tail (lines : list string) (h : heap) : heap :=
  let komi := ngf_komi lines in
  let rawdate := ngf_rawdate lines in
  let pw := ngf_player (at_ lines 2) in
  let pb := ngf_player (at_ lines 3) in
  let re := ngf_re lines in
  let h := if Num.truthy komi then setValue h root "KM" (Num.toString komi) else h in
  let h :=
    if Str.len rawdate =? 8 then
      if ngf_date_ok rawdate then
        let date := Str.slice rawdate 0 (Some 4) +:+ "-" +:+
                    Str.slice rawdate 4 (Some 6) +:+ "-" +:+
                    Str.slice rawdate 6 (Some 8) in
        setValue h root "DT" date
      else h
    else h in
  let h := if Str.truthy pw then safeCommit h root "PW" pw else h in
  let h := if Str.truthy pb then safeCommit h root "PB" pb else h in
  let h := if Str.truthy re then setValue h root "RE" re else h in
  h.

(** The statements before them: the root with its board size, and the
    handicap with its stones. *)
Definition ngf_root_head (lines : list string) : result heap :=
  let boardsize := ngf_boardsize lines in
  let handicap := ngf_handicap lines in
  let h := setValue [mkNode [] [] None] root "SZ" (Num.toString boardsize) in
  if Num.ge handicap (Int 2) then
    let h := setValue h root "HA" (Num.toString handicap) in
    let stones := handicapPoints boardsize handicap true in
    for_of (fun h (pt : point) =>
              v ← stringFromPoint (fst pt) (snd pt);
              Ok (addValue h root "AB" v)) h stones
  else Ok h.

(** ** The keys a parser can leave on the root *)

Definition gib_root_keys : list string :=
  ["PB"; "BR"; "PW"; "WR"; "RE"; "KM"; "DT"; "HA"; "AB"].

Definition ngf_root_keys : list string :=
  ["SZ"; "KM"; "DT"; "PW"; "PB"; "RE"].

(** No key of the list is [k]. *)
Definition none_is (k : string) (ks : list string) : bool :=
  forallb (fun w => negb (Str.eqb w k)) ks.

(** The store [parseNgf] returns for [ngf_text "19" "0" "6"]. *)
Definition ngf_example_heap : heap :=
  [mkNode [("SZ", ["19"]); ("KM", ["0.5"]); ("DT", ["2016-03-26"]);
           ("PW", ["white"]); ("PB", ["black"]); ("RE", ["W+"])]
          [1%nat] None;
   mkNode [("B", ["pc"])] [2%nat] (Some 0%nat);
   mkNode [("W", ["cp"])] [] (Some 1%nat)].

(** ** The moves *)

(** The properties of the nodes after the root, in the order of the store. *)
Definition moves_of (h : heap) : list PMap.t := map properties (drop 1 h).

(** The move a line of a .gib text adds, if it adds one: the line as the
    loop body sees it, trimmed. *)
Definition gib_move (line : string) : option PMap.t :=
  if Str.eqb (Str.slice line 0 (Some 3)) "STO" then
    let move := Str.split_ws (Str.trim line) in
    let key := if decide (at_ move 3 = Some "1") then "B" else "W" in
    if truthy_opt (at_ move 4) && truthy_opt (at_ move 5) then
      match stringFromPoint (Num.add (parseInt_opt (at_ move 4)) (Int 1))
                            (Num.add (parseInt_opt (at_ move 5)) (Int 1)) with
      | Ok value => Some [(key, [value])]
      | Throw _ => None
      end
    else None
  else None.

(** The move a line of an .ngf text adds, if it adds one. *)
Definition ngf_move (line : string) : option PMap.t :=
  let line := Str.toUpperCase (Str.trim line) in
  if (7 <=? Str.len line) && Str.eqb (Str.slice line 0 (Some 2)) "PM" &&
     existsb (Str.eqb (Str.charAt line 4)) ["B"; "W"] then
    match stringFromPoint (Num.sub (Num.charCodeAt line 5) (Int 65))
                          (Num.sub (Num.charCodeAt line 6) (Int 65)) with
    | Ok value => Some [(Str.charAt line 4, [value])]
    | Throw _ => None
    end
  else None.


(** A .gib text of three moves between two lines of metadata. *)
Definition gib_moves_example : string :=
  Str.join (String "010" EmptyString)
    ["\[GAMEBLACKNAME=Alice (1d)\]"; "STO 0 2 1 15 15"; "STO 0 3 2 3 3";
     "\[GAMEINFOMAIN=GRLT:3,ZIPSU:0,GONGJE:5,\]"; "STO 0 4 1 16 2"].

Definition gib_moves_example_heap : heap :=
  [mkNode [("PB", ["Alice"]); ("BR", ["1d"]); ("RE", ["B+R"]); ("KM", ["0.5"])]
          [1%nat] None;
   mkNode [("B", ["pp"])] [2%nat] (Some 0%nat);
   mkNode [("W", ["dd"])] [3%nat] (Some 1%nat);
   mkNode [("B", ["qc"])] [] (Some 2%nat)].

(** ** When the parsers give up *)

(** Whether the loop of [parseGib] throws at a line, [moved] telling whether
    a move was made before: a line that begins with INI is refused after a
    move, and when its fourth field reads as a number outside 0..9. *)
Definition ini_refused (moved : bool) (line : string) : bool :=
  Str.eqb (Str.slice line 0 (Some 3)) "INI" &&
  (moved ||
   (truthy_opt (at_ (Str.split_ws (Str.trim line)) 3) &&
    (Num.lt (parseInt_opt (at_ (Str.split_ws (Str.trim line)) 3)) (Int 0) ||
     Num.gt (parseInt_opt (at_ (Str.split_ws (Str.trim line)) 3)) (Int 9)))).

Definition is_move (m : option PMap.t) : bool :=
  match m with Some _ => true | None => false end.

Fixpoint gib_refused (moved : bool) (lines : list string) : bool :=
  match lines with
  | [] => false
  | line :: rest =>
      ini_refused moved line || gib_refused (moved || is_move (gib_move line)) rest
  end.

(** Whether the store holds a move. *)
Definition has_moves (h : heap) : bool :=
  match moves_of h with [] => false | _ :: _ => true end.

(* ===================================================================== *)
(** * Properties *)

(** ** The primitives on sample inputs *)

Example parseInt_examples :
  Num.parseInt "19" = Int 19 ∧ Num.parseInt " -7x" = Int (-7) ∧
  Num.parseInt "0x1f" = Int 31 ∧ Num.parseInt "abc" = NaN ∧
  Num.parseInt "" = NaN ∧ parseInt_opt None = NaN ∧
  parseInt_num (Int 0) = Int 0 ∧ parseInt_num Infinity = NaN.
Proof. repeat split; reflexivity. Qed.

Example parseFloat_examples :
  Num.parseFloat "6.5" = Dec 65 1 ∧ Num.parseFloat "5." = Int 5 ∧
  Num.parseFloat ".5e1" = Int 5 ∧ Num.parseFloat "-0.50" = Dec (-5) 1 ∧
  Num.parseFloat "1e3x" = Int 1000 ∧ Num.parseFloat "." = NaN ∧
  Num.parseFloat "-Infinity" = NegInfinity ∧ Num.parseFloat "1e400" = Infinity ∧
  parseFloat_opt None = NaN.
Proof. repeat split; vm_compute; reflexivity. Qed.

Example toString_examples :
  Num.toString (Int 19) = "19" ∧ Num.toString (Dec 65 1) = "6.5" ∧
  Num.toString (Dec (-5) 3) = "-0.005" ∧ Num.toString (Int 1200) = "1200" ∧
  Num.toString (Num.div10 (Int 65)) = "6.5" ∧ Num.toString (Num.div10 (Int 70)) = "7" ∧
  Num.toString (Int (10 ^ 21)) = "1e+21" ∧ Num.toString (Dec 12 8) = "1.2e-7" ∧
  Num.toString (Num.add (Int 0) (Dec 5 1)) = "0.5".
Proof. repeat split; vm_compute; reflexivity. Qed.

Example handicapPoints_19_9 :
  handicapPoints (Int 19) (Int 9) true =
  [(Int 16, Int 4); (Int 4, Int 16); (Int 4, Int 4); (Int 16, Int 16);
   (Int 10, Int 10); (Int 4, Int 10); (Int 16, Int 10); (Int 10, Int 4);
   (Int 10, Int 16)].
Proof. reflexivity. Qed.

Example stringFromPoint_examples :
  stringFromPoint (Int 16) (Int 4) = Ok "pd" ∧
  stringFromPoint (Int 0) (Int 4) = Throw ValueError ∧
  stringFromPoint (Int 4) (Int 27) = Throw ValueError.
Proof. repeat split; reflexivity. Qed.

(** ** Property maps and the store *)

Section PMapFacts.
Implicit Types (m : PMap.t) (k : string) (v : list string).

Lemma eqb_refl k : Str.eqb k k = true.
Proof. apply String.eqb_refl. Qed.

Lemma eqb_trans_false k0 k k' :
  Str.eqb k0 k = true → Str.eqb k k' = false → Str.eqb k0 k' = false.
Proof.
  unfold Str.eqb. rewrite String.eqb_eq, !String.eqb_neq. congruence.
Qed.

Lemma get_set_eq m k v : PMap.get (PMap.set m k v) k = Some v.
Proof.
  induction m as [|[k0 v0] m IH]; simpl.
  - now rewrite eqb_refl.
  - destruct (Str.eqb k0 k) eqn:E; simpl; rewrite E; auto.
Qed.

Lemma get_set_ne m k k' v :
  Str.eqb k k' = false → PMap.get (PMap.set m k v) k' = PMap.get m k'.
Proof.
  intros Hne. induction m as [|[k0 v0] m IH]; simpl.
  - now rewrite Hne.
  - destruct (Str.eqb k0 k) eqn:E; simpl.
    + now rewrite (eqb_trans_false _ _ _ E Hne).
    + destruct (Str.eqb k0 k'); auto.
Qed.

Lemma get_delete_eq m k : PMap.get (PMap.delete m k) k = None.
Proof.
  induction m as [|[k0 v0] m IH]; simpl; auto.
  destruct (Str.eqb k0 k) eqn:E; simpl; auto. now rewrite E.
Qed.

Lemma get_delete_ne m k k' :
  Str.eqb k k' = false → PMap.get (PMap.delete m k) k' = PMap.get m k'.
Proof.
  intros Hne. induction m as [|[k0 v0] m IH]; simpl; auto.
  destruct (Str.eqb k0 k) eqn:E; simpl.
  - now rewrite (eqb_trans_false _ _ _ E Hne).
  - destruct (Str.eqb k0 k'); auto.
Qed.

Lemma get_add_value_ne m k k' (x : string) :
  Str.eqb k k' = false → PMap.get (add_value k x m) k' = PMap.get m k'.
Proof.
  intros Hne. unfold add_value.
  destruct (negb (PMap.has m k)).
  - rewrite get_set_eq. simpl.
    now rewrite !get_set_ne by assumption.
  - destruct (PMap.get m k) as [vs|]; auto.
    destruct (negb (existsb (Str.eqb x) vs)); auto.
    now rewrite get_set_ne.
Qed.
End PMapFacts.

Section HeapFacts.
Implicit Types (h : heap) (n : handle).

Lemma props_of_alter_eq h n (f : PMap.t → PMap.t) :
  (n < length h)%nat →
  props_of (alter (with_properties f) n h) n = f (props_of h n).
Proof.
  intros Hlt. unfold props_of.
  destruct (lookup_lt_is_Some_2 h n Hlt) as [nd Hnd].
  rewrite list_lookup_alter_eq, Hnd. reflexivity.
Qed.

Lemma props_of_alter_ne h n n' (f : Node → Node) :
  n ≠ n' → props_of (alter f n h) n' = props_of h n'.
Proof.
  intros Hne. unfold props_of. now rewrite list_lookup_alter_ne.
Qed.

Lemma props_of_push_child h n n' c :
  props_of (alter (push_child c) n h) n' = props_of h n'.
Proof.
  unfold props_of. destruct (decide (n = n')) as [->|Hne].
  - rewrite list_lookup_alter_eq. now destruct (h !! n').
  - now rewrite list_lookup_alter_ne.
Qed.

Lemma props_of_app h n (l : list Node) :
  (n < length h)%nat → props_of (h ++ l) n = props_of h n.
Proof.
  intros Hlt. unfold props_of. now rewrite lookup_app_l.
Qed.

(** [new Node(parent)] leaves the properties of the nodes there are. *)
Lemma props_of_new_Node h p n :
  (n < length h)%nat → props_of (fst (new_Node h p)) n = props_of h n.
Proof.
  intros Hlt. unfold new_Node. destruct p as [p|]; simpl.
  - rewrite props_of_push_child. now apply props_of_app.
  - now apply props_of_app.
Qed.

Lemma length_new_Node h p : length (fst (new_Node h p)) = S (length h).
Proof.
  unfold new_Node. destruct p; simpl;
    rewrite ?length_alter, length_app; simpl; lia.
Qed.

End HeapFacts.

Lemma safeString_empty (s : string) :
  Str.is_empty (safeString s) = Str.is_empty s.
Proof.
  destruct s as [|c r]; simpl; auto.
  destruct (Ascii.eqb c "]" || Ascii.eqb c "\"); reflexivity.
Qed.

(** ** C10: [safeCommit] *)

(** C10.  For every node of the store, key and value, [safeCommit] leaves
    the escaped value as the single value of the key when the escaped form is
    not empty, and leaves the node without the key when the value is the
    empty string (whatever the key held before); the escaped form is empty
    exactly for the empty value. *)
Theorem safeCommit_stores_or_deletes (h : heap) (node : handle) (key value : string) :
  (node < length h)%nat →
  (safeString value ≠ "" →
     PMap.get (props_of (safeCommit h node key value) node) key
       = Some [safeString value]) ∧
  (value = "" →
     PMap.has (props_of (safeCommit h node key value) node) key = false) ∧
  (safeString value = "" ↔ value = "").
Proof.
  intros Hlt. unfold safeCommit, Str.truthy.
  rewrite safeString_empty.
  split; [|split].
  - intros Hne. destruct value as [|c r]; [now contradiction Hne|].
    simpl Str.is_empty. simpl negb. cbv iota.
    rewrite props_of_alter_eq by assumption. apply get_set_eq.
  - intros ->. simpl.
    rewrite props_of_alter_eq by assumption.
    unfold PMap.has. now rewrite get_delete_eq.
  - pose proof (safeString_empty value) as E.
    destruct value, (safeString _); simpl in E; split; congruence.
Qed.

Lemma safeCommit_stores_or_deletes_witness :
  let h := [mkNode [("PB", ["old"]); ("PW", ["w"])] [] None] in
  (0 < length h)%nat ∧
  PMap.get (props_of (safeCommit h 0%nat "PB" "a]b") 0%nat) "PB" = Some ["a\]b"] ∧
  PMap.has (props_of (safeCommit h 0%nat "PB" "") 0%nat) "PB" = false.
Proof.
  intros h.
  assert (Hlt : (0 < length h)%nat) by (simpl; lia).
  split; [exact Hlt|]. split.
  - apply (safeCommit_stores_or_deletes h 0%nat "PB" "a]b" Hlt). discriminate.
  - apply (safeCommit_stores_or_deletes h 0%nat "PB" "" Hlt). reflexivity.
Defined.

(** ** Finite ranges of integers, for checks by evaluation *)

Lemma in_zrange lo n b : lo ≤ b < lo + Z.of_nat n → In b (zrange lo n).
Proof.
  intros Hb. unfold zrange. apply in_map_iff.
  exists (Z.to_nat (b - lo)). split; [lia|].
  apply in_seq. lia.
Qed.

Lemma forallb_zrange (P : Z → bool) lo n :
  forallb P (zrange lo n) = true → ∀ b, lo ≤ b < lo + Z.of_nat n → P b = true.
Proof.
  intros H b Hb. rewrite forallb_forall in H. apply H. now apply in_zrange.
Qed.

(** ** C9: [stringFromPoint] *)

Lemma lt_Int a b : Num.lt (Int a) (Int b) = (a <? b).
Proof. reflexivity. Qed.
Lemma gt_Int a b : Num.gt (Int a) (Int b) = (a >? b).
Proof. reflexivity. Qed.
Lemma code_chr z : 0 ≤ z < 256 → Str.code (Str.chr z) = z.
Proof.
  intros Hz. unfold Str.code, Str.chr.
  rewrite N_ascii_embedding.
  - rewrite Z2N.id; [apply Z.mod_small; lia | apply Z.mod_pos_bound; lia].
  - assert (z mod 256 < 256) by (apply Z.mod_pos_bound; lia).
    assert (0 ≤ z mod 256) by (apply Z.mod_pos_bound; lia). lia.
Qed.

Lemma stringFromPoint_in_range (x y : Z) :
  1 ≤ x ≤ 26 → 1 ≤ y ≤ 26 →
  stringFromPoint (Int x) (Int y) = Ok (two_chars (x + 96) (y + 96)).
Proof.
  intros Hx Hy. unfold stringFromPoint.
  rewrite !lt_Int, !gt_Int.
  replace (x <? 1) with false by lia. replace (x >? 26) with false by lia.
  replace (y <? 1) with false by lia. replace (y >? 26) with false by lia.
  simpl. unfold two_chars, Num.fromCharCode, Num.toUint16, Str.chr.
  rewrite !(Z.mod_small (_ + 96) 65536) by lia. reflexivity.
Qed.

Lemma stringFromPoint_out_of_range (x y : Z) :
  ¬ (1 ≤ x ≤ 26 ∧ 1 ≤ y ≤ 26) →
  stringFromPoint (Int x) (Int y) = Throw ValueError.
Proof.
  intros Hout. unfold stringFromPoint.
  rewrite !lt_Int, !gt_Int.
  destruct (x <? 1) eqn:E1; [reflexivity|].
  destruct (x >? 26) eqn:E2; [reflexivity|].
  destruct (y <? 1) eqn:E3; [reflexivity|].
  destruct (y >? 26) eqn:E4; [reflexivity|].
  exfalso. apply Hout. lia.
Qed.

(** On integer coordinates [stringFromPoint] throws [ValueError] unless
    both lie in 1..26; there it returns the two letters with codes [x + 96]
    and [y + 96], it is injective, (1,1) gives "aa" and (19,19) gives
    "ss".  The coordinates the callers pass are not always integers: the
    statement after this one is about NaN. *)
Theorem stringFromPoint_range_injective (x y x' y' : Z) :
  (¬ (1 ≤ x ≤ 26 ∧ 1 ≤ y ≤ 26) →
     stringFromPoint (Int x) (Int y) = Throw ValueError) ∧
  (1 ≤ x ≤ 26 → 1 ≤ y ≤ 26 →
     stringFromPoint (Int x) (Int y) = Ok (two_chars (x + 96) (y + 96))) ∧
  (1 ≤ x ≤ 26 → 1 ≤ y ≤ 26 → 1 ≤ x' ≤ 26 → 1 ≤ y' ≤ 26 →
     stringFromPoint (Int x) (Int y) = stringFromPoint (Int x') (Int y') →
     x = x' ∧ y = y') ∧
  stringFromPoint (Int 1) (Int 1) = Ok "aa" ∧
  stringFromPoint (Int 19) (Int 19) = Ok "ss".
Proof.
  split; [apply stringFromPoint_out_of_range|].
  split; [apply stringFromPoint_in_range|].
  split; [|split; reflexivity].
  intros Hx Hy Hx' Hy' E.
  rewrite !stringFromPoint_in_range in E by assumption.
  injection E as Ex Ey.
  apply (f_equal Str.code) in Ex, Ey.
  rewrite !code_chr in Ex, Ey by lia. lia.
Qed.

Lemma stringFromPoint_range_injective_witness :
  (¬ (1 ≤ 0 ≤ 26 ∧ 1 ≤ 27 ≤ 26) ∧
   stringFromPoint (Int 0) (Int 27) = Throw ValueError) ∧
  ((1 ≤ 16 ≤ 26 ∧ 1 ≤ 4 ≤ 26) ∧
   stringFromPoint (Int 16) (Int 4) = Ok "pd") ∧
  (stringFromPoint (Int 16) (Int 4) = stringFromPoint (Int 16) (Int 4) ∧
   16 = 16 ∧ 4 = 4).
Proof.
  assert (H16 : 1 ≤ 16 ≤ 26) by lia.
  assert (H4 : 1 ≤ 4 ≤ 26) by lia.
  assert (Hout : ¬ (1 ≤ 0 ≤ 26 ∧ 1 ≤ 27 ≤ 26)) by lia.
  split; [split; [exact Hout|]|split; [split; [split; [exact H16 | exact H4]|]|]].
  - apply (stringFromPoint_range_injective 0 27 0 27). exact Hout.
  - apply (stringFromPoint_range_injective 16 4 16 4); assumption.
  - split; [reflexivity|].
    apply (stringFromPoint_range_injective 16 4 16 4); try assumption.
    reflexivity.
Defined.

(** C9, a defect of the code.  [stringFromPoint] does not throw on every
    pair outside 1..26: NaN is below no bound and above none, so the guard
    lets it through and the result holds the code unit 0 in place of a
    letter, for NaN in either place and in both, and with any coordinate
    of 1..26 in the other place.  The input is one the program meets:
    [parseGib] computes [parseInt("x") + 1], which is NaN, for the column
    "x" of a move line, and the move becomes a node of the tree it returns,
    where the [try] around the call was to skip the line. *)
Theorem stringFromPoint_NaN_passes_guard :
  stringFromPoint NaN (Int 4) = Ok (String "000" (String "d" EmptyString)) ∧
  stringFromPoint (Int 4) NaN = Ok (String "d" (String "000" EmptyString)) ∧
  stringFromPoint NaN NaN = Ok (String "000" (String "000" EmptyString)) ∧
  forallb (fun y => is_Ok (stringFromPoint NaN (Int y)) &&
                    is_Ok (stringFromPoint (Int y) NaN)) (zrange 1 26) = true ∧
  Num.add (parseInt_opt (Some "x")) (Int 1) = NaN ∧
  parseGib gib_bad_coordinate
    = Ok ([mkNode [] [1%nat] None;
           mkNode [("B", ["dd"])] [2%nat] (Some 0%nat);
           mkNode [("W", [String "000" (String "d" EmptyString)])] [] (Some 1%nat)],
          root).
Proof. repeat split; vm_compute; reflexivity. Qed.

(** ** C2: [handicapPoints] *)

Lemma handicap_check_all :
  forallb (fun b =>
    forallb (fun hc =>
      forallb (handicap_check b hc) [true; false]) (zrange 0 10)) (zrange 4 22) = true.
Proof. vm_compute. reflexivity. Qed.

Lemma handicap_check_holds (boardsize handicap : Z) (tygem : bool) :
  4 ≤ boardsize ≤ 25 → 0 ≤ handicap ≤ 9 →
  handicap_check boardsize handicap tygem = true.
Proof.
  intros Hb Hh.
  pose proof (forallb_zrange _ _ _ handicap_check_all boardsize) as H1.
  simpl Z.of_nat in H1. specialize (H1 ltac:(lia)).
  pose proof (forallb_zrange _ _ _ H1 handicap) as H2.
  simpl Z.of_nat in H2. specialize (H2 ltac:(lia)).
  simpl in H2. destruct tygem.
  - now apply andb_prop in H2 as [H2 _].
  - apply andb_prop in H2 as [_ H2]. now apply andb_prop in H2 as [H2 _].
Qed.

(** On the 5x5 board the four points of a four-stone handicap are all the
    centre (3,3): one coordinate where four are documented. *)
Lemma handicap_claim_fails_on_5 : ¬ handicap_claim 5 4 false.
Proof.
  unfold handicap_claim. intros [Hcount _].
  vm_compute in Hcount. discriminate Hcount.
Qed.

(** C2, amended.  For every board size in 4..25 and handicap in 0..9,
    [handicapPoints] returns as many points as documented, each with both
    coordinates between 1 and the board size; on every board size but 5 the
    points have pairwise distinct coordinates, so the statement in question
    holds there; on the board of size 5 every point is the centre (3,3). *)
Theorem handicapPoints_count_and_bounds (boardsize handicap : Z) (tygem : bool) :
  4 ≤ boardsize ≤ 25 → 0 ≤ handicap ≤ 9 →
  let pts := handicapPoints (Int boardsize) (Int handicap) tygem in
  Z.of_nat (length pts) = documented_count boardsize handicap ∧
  (∀ p, In p pts → ∃ x y, p = (Int x, Int y) ∧
                    1 ≤ x ≤ boardsize ∧ 1 ≤ y ≤ boardsize) ∧
  (boardsize ≠ 5 → handicap_claim boardsize handicap tygem) ∧
  (boardsize = 5 → ∀ p, In p pts → p = (Int 3, Int 3)).
Proof.
  intros Hb Hh pts.
  pose proof (handicap_check_holds boardsize handicap tygem Hb Hh) as H.
  unfold handicap_check in H. fold pts in H.
  apply andb_prop in H as [H H3]. apply andb_prop in H as [H1 H2].
  split; [lia|]. split; [|split].
  - intros p Hp. rewrite forallb_forall in H2. specialize (H2 p Hp).
    destruct p as [[| | |x|] [| | |y|]]; simpl in H2; try discriminate.
    exists x, y. split; [reflexivity|lia].
  - intros Hne. unfold handicap_claim. fold pts.
    destruct (boardsize =? 5) eqn:E; [lia|]. split; [lia|assumption].
  - intros -> p Hp. simpl in H3. rewrite forallb_forall in H3.
    specialize (H3 p Hp). now apply bool_decide_eq_true in H3.
Qed.

Lemma handicapPoints_count_and_bounds_witness :
  (4 ≤ 19 ≤ 25 ∧ 0 ≤ 9 ≤ 9 ∧ 19 ≠ 5) ∧ handicap_claim 19 9 true.
Proof.
  assert (Hb : 4 ≤ 19 ≤ 25) by lia.
  assert (Hh : 0 ≤ 9 ≤ 9) by lia.
  assert (Hne : 19 ≠ 5) by lia.
  split; [auto|].
  apply (handicapPoints_count_and_bounds 19 9 true Hb Hh). exact Hne.
Defined.

(** ** C7: the shape of what [writeTree] writes *)

(** Induction on trees, with the property known for every child. *)
Lemma tree_forall_ind (P : tree → Prop) :
  (∀ props kids, Forall P kids → P (TNode props kids)) → ∀ t, P t.
Proof.
  intros step. fix IH 1. intros [props kids]. apply step.
  induction kids as [|k kids IHk]; constructor; [apply IH | exact IHk].
Qed.

Lemma count_app p a b : count p (a ++ b) = (count p a + count p b)%nat.
Proof. induction a as [|c a IH]; simpl; [reflexivity|rewrite IH; lia]. Qed.

Lemma count_values p values :
  (∀ v, p (Value v) = false) → count p (map Value values) = 0%nat.
Proof.
  intros Hv. induction values as [|v vs IH]; simpl; [reflexivity|].
  now rewrite Hv, IH.
Qed.

Lemma count_write_props p m :
  (∀ k, p (Key k) = false) → (∀ v, p (Value v) = false) →
  count p (write_props m) = 0%nat.
Proof.
  intros Hk Hv. unfold write_props.
  induction m as [|[key values] m IH]; [reflexivity|].
  cbn [flat_map]. rewrite count_app, IH. cbn [count].
  now rewrite Hk, count_values.
Qed.

Lemma depth_after_app d a b :
  depth_after d (a ++ b) = d' ← depth_after d a; depth_after d' b.
Proof.
  revert d. induction a as [|c a IH]; intros d; [reflexivity|].
  destruct c; simpl; try apply IH. destruct d; [reflexivity|apply IH].
Qed.

Lemma depth_after_write_props d m : depth_after d (write_props m) = Some d.
Proof.
  unfold write_props. induction m as [|[key values] m IH]; [reflexivity|].
  assert (E : depth_after d (map Value values) = Some d)
    by (induction values; simpl; auto).
  cbn [flat_map]. rewrite depth_after_app. cbn [depth_after].
  rewrite E. exact IH.
Qed.

Lemma write_loop_chain first rest :
  write_loop (chain first rest) = flat_map node_statement (first :: rest).
Proof.
  revert first. induction rest as [|next rest IH]; intros first.
  - simpl. now rewrite !app_nil_r.
  - change (chain first (next :: rest)) with (TNode first [chain next rest]).
    simpl write_loop. rewrite IH. reflexivity.
Qed.

Lemma count_node_statement p m :
  (∀ k, p (Key k) = false) → (∀ v, p (Value v) = false) →
  count p (node_statement m) = (if p NodeStart then 1 else 0)%nat.
Proof.
  intros Hk Hv. unfold node_statement. cbn [count].
  rewrite count_write_props by assumption. lia.
Qed.

Lemma count_chain_statements p rest first :
  (∀ k, p (Key k) = false) → (∀ v, p (Value v) = false) →
  count p (flat_map node_statement (first :: rest)) =
  (if p NodeStart then S (length rest) else 0)%nat.
Proof.
  intros Hk Hv. revert first. induction rest as [|next rest IH]; intros first.
  - cbn [flat_map]. rewrite app_nil_r, count_node_statement by assumption.
    now destruct (p NodeStart).
  - change (flat_map node_statement (first :: next :: rest))
      with (node_statement first ++ flat_map node_statement (next :: rest)).
    rewrite count_app, IH, count_node_statement by assumption.
    destruct (p NodeStart); simpl; lia.
Qed.

(** Every tree is written as one closed group. *)
Lemma write_loop_balanced : ∀ t d, depth_after d (write_loop t) = Some d.
Proof.
  induction t as [props kids IH] using tree_forall_ind. intros d.
  cbn [write_loop depth_after].
  rewrite depth_after_app, depth_after_write_props. cbn [mbind option_bind].
  destruct kids as [|k1 [|k2 kids]].
  - reflexivity.
  - inversion IH; subst. auto.
  - generalize dependent (k1 :: k2 :: kids). intros l Hl.
    induction Hl as [|k ks Hk _ IHks]; [reflexivity|].
    cbn [flat_map app depth_after].
    rewrite <- app_assoc, depth_after_app, Hk.
    cbn [mbind option_bind app depth_after]. exact IHks.
Qed.

Lemma writeTree_closed_group t : closed_group (writeTree t).
Proof.
  exists (write_loop t). split; [reflexivity|apply write_loop_balanced].
Qed.

(** C7.  A chain of N nodes without branching is written as one opening,
    the N node statements, one closing: one [GroupOpen], N [NodeStart], one
    [GroupClose], no group inside.  From a node with two or more children
    on, the loop writes the node's statement and one complete [writeTree]
    group per child, each closed on its own, and nothing after them: the
    group the node is in closes next. *)
Theorem writeTree_chain_and_branch :
  (∀ first rest,
     writeTree (chain first rest)
       = GroupOpen :: flat_map node_statement (first :: rest) ++ [GroupClose] ∧
     count is_open (writeTree (chain first rest)) = 1%nat ∧
     count is_node (writeTree (chain first rest)) = S (length rest) ∧
     count is_close (writeTree (chain first rest)) = 1%nat) ∧
  (∀ props kids, (2 ≤ length kids)%nat →
     write_loop (TNode props kids)
       = node_statement props ++ flat_map writeTree kids ∧
     writeTree (TNode props kids)
       = GroupOpen :: node_statement props ++ flat_map writeTree kids ++ [GroupClose] ∧
     length (map writeTree kids) = length kids ∧
     Forall closed_group (map writeTree kids)).
Proof.
  split.
  - intros first rest. unfold writeTree. rewrite write_loop_chain.
    split; [reflexivity|].
    change (GroupOpen :: ?l ++ [GroupClose]) with ([GroupOpen] ++ l ++ [GroupClose]).
    rewrite !count_app, !count_chain_statements by reflexivity.
    simpl. repeat split; lia.
  - intros props kids Hk.
    assert (E : write_loop (TNode props kids)
                = node_statement props ++ flat_map writeTree kids).
    { cbn [write_loop].
      destruct kids as [|k1 [|k2 kids]]; simpl in Hk; try lia. reflexivity. }
    split; [exact E|]. split; [|split].
    + unfold writeTree. rewrite E, <- app_assoc. reflexivity.
    + apply length_map.
    + apply List.Forall_forall. intros cs Hin.
      apply in_map_iff in Hin as [t [<- _]]. apply writeTree_closed_group.
Qed.

Lemma writeTree_chain_and_branch_witness :
  let a := TNode [("B", ["aa"])] [] in
  let b := TNode [("W", ["bb"])] [] in
  (2 ≤ length [a; b])%nat ∧
  writeTree (TNode [("SZ", ["19"])] [a; b])
    = [GroupOpen; NodeStart; Key "SZ"; Value "19";
       GroupOpen; NodeStart; Key "B"; Value "aa"; GroupClose;
       GroupOpen; NodeStart; Key "W"; Value "bb"; GroupClose;
       GroupClose].
Proof.
  intros a b.
  assert (H2 : (2 ≤ length [a; b])%nat) by (simpl; lia).
  split; [exact H2|].
  destruct writeTree_chain_and_branch as [_ Hbranch].
  destruct (Hbranch [("SZ", ["19"])] [a; b] H2) as (_ & E & _).
  rewrite E. reflexivity.
Defined.

(** ** C1: [parseUgf] never gets past its section check *)

Lemma ugf_header_check_throws st line : ugf_header_check st line = Throw TypeError.
Proof. reflexivity. Qed.

(** With [section] still [null], a turn of the loop changes nothing. *)
Lemma ugf_line_inert st line : u_section st = None → ugf_line st line = Ok st.
Proof.
  intros Hs. unfold ugf_line. rewrite ugf_header_check_throws. simpl.
  rewrite Hs. reflexivity.
Qed.

Lemma ugf_loop_inert lines : ∀ st,
  u_section st = None → for_of ugf_line st lines = Ok st.
Proof.
  induction lines as [|line lines IH]; intros st Hs; [reflexivity|].
  simpl. rewrite ugf_line_inert by assumption. simpl. now apply IH.
Qed.

(** C1.  The section check of [parseUgf] throws a TypeError on every line
    (and the [catch] swallows it), the loop ends with [section] still [null]
    and a root without properties or children, and [parseUgf] throws
    [ParserFail] on every input string. *)
Theorem parseUgf_always_fails (ugf : string) :
  (∀ st line,
     ugf_header_check st line = Throw TypeError ∧
     try_catch (ugf_header_check st line) (fun _ => Ok false) = Ok false) ∧
  (∃ st, parseUgf_loop ugf = Ok st ∧ u_section st = None ∧
         u_heap st = [mkNode [] [] None]) ∧
  parseUgf ugf = Throw ParserFail.
Proof.
  assert (E : parseUgf_loop ugf
              = Ok (mkUgf [mkNode [] [] None] root None None (Int 0) "" None)).
  { unfold parseUgf_loop. simpl new_Node. cbv iota beta.
    now apply ugf_loop_inert. }
  split; [intros st line; split; reflexivity|]. split.
  - eexists. split; [exact E|]. split; reflexivity.
  - unfold parseUgf. rewrite E. reflexivity.
Qed.

(** ** C6: no child under the root, no tree *)

(** C6.  Each of the three parsers throws [ParserFail] when its loop ends
    with no child under the root, whatever the root holds by then; a root
    any of them returns has a child. *)
Theorem parsers_fail_without_children :
  (∀ gib h node, parseGib_loop gib = Ok (h, node) →
     children_of h root = [] → parseGib gib = Throw ParserFail) ∧
  (∀ ngf h node, parseNgf_loop ngf = Ok (h, node) →
     children_of h root = [] → parseNgf ngf = Throw ParserFail) ∧
  (∀ ugf st, parseUgf_loop ugf = Ok st →
     children_of (u_heap st) root = [] → parseUgf ugf = Throw ParserFail) ∧
  (∀ (f : string → result (heap * handle)) text h r,
     f = parseGib ∨ f = parseNgf ∨ f = parseUgf →
     f text = Ok (h, r) → children_of h r ≠ []).
Proof.
  split; [|split; [|split]].
  - intros gib h node E Hc. unfold parseGib. rewrite E. simpl. now rewrite Hc.
  - intros ngf h node E Hc. unfold parseNgf. rewrite E. simpl. now rewrite Hc.
  - intros ugf st E Hc. unfold parseUgf. rewrite E. simpl. now rewrite Hc.
  - intros f text h r [-> | [-> | ->]] E.
    + unfold parseGib in E. destruct (parseGib_loop text) as [[h' n']|]; simpl in E;
        [|discriminate].
      destruct (children_of h' root) eqn:Hc; simpl in E; [discriminate|].
      injection E as <- <-. now rewrite Hc.
    + unfold parseNgf in E. destruct (parseNgf_loop text) as [[h' n']|]; simpl in E;
        [|discriminate].
      destruct (children_of h' root) eqn:Hc; simpl in E; [discriminate|].
      injection E as <- <-. now rewrite Hc.
    + unfold parseUgf in E. destruct (parseUgf_loop text) as [st|]; simpl in E;
        [|discriminate].
      destruct (children_of (u_heap st) root) eqn:Hc; simpl in E; [discriminate|].
      injection E as <- <-. now rewrite Hc.
Qed.

Lemma parsers_fail_without_children_witness :
  parseGib_loop gib_without_moves = Ok (gib_without_moves_heap, root) ∧
  children_of gib_without_moves_heap root = [] ∧
  parseGib gib_without_moves = Throw ParserFail.
Proof.
  assert (E : parseGib_loop gib_without_moves = Ok (gib_without_moves_heap, root))
    by (vm_compute; reflexivity).
  assert (Hc : children_of gib_without_moves_heap root = []) by reflexivity.
  split; [exact E|]. split; [exact Hc|].
  destruct parsers_fail_without_children as [Hgib _].
  exact (Hgib gib_without_moves gib_without_moves_heap root E Hc).
Defined.

(** ** C3, C4, C5: the fixed lines of [parseNgf] and the board size *)

(** C3.  What [parseNgf] does where the statement fails: with the
    board-size line "abc" the stored size is NaN, not 19 (and with the
    line "13" it is 19, not 13); with the handicap line "x" the handicap is
    NaN, not 0; with the handicap line "12", outside 0..9, the handicap
    becomes 0 and the parse returns a tree instead of throwing. *)
Theorem parseNgf_defaults_inverted :
  root_value (parseNgf (ngf_text "abc" "0" "6")) "SZ" = Some ["NaN"] ∧
  root_value (parseNgf (ngf_text "13" "0" "6")) "SZ" = Some ["19"] ∧
  ngf_handicap (Str.split "010" (ngf_text "19" "x" "6")) = NaN ∧
  ngf_handicap (Str.split "010" (ngf_text "19" "12" "6")) = Int 0 ∧
  is_Ok (parseNgf (ngf_text "19" "12" "6")) = true.
Proof. repeat split; vm_compute; reflexivity. Qed.

(** C4.  What [parseNgf] does where the statement fails: with handicap 0
    and the komi line "6" the stored komi is 0.5, not 6.5; with the handicap
    line "2" and the komi line "5.5" the stored komi is 0.5 as well, and no
    handicap is recorded. *)
Theorem parseNgf_komi_discarded :
  root_value (parseNgf (ngf_text "19" "0" "6")) "KM" = Some ["0.5"] ∧
  ngf_komi (Str.split "010" (ngf_text "19" "0" "6")) = Dec 5 1 ∧
  root_value (parseNgf (ngf_text "19" "2" "5.5")) "KM" = Some ["0.5"] ∧
  root_value (parseNgf (ngf_text "19" "2" "5.5")) "HA" = None.
Proof. repeat split; vm_compute; reflexivity. Qed.

(** C5.  What [parse] does where the statement fails: the tree
    [parseNgf] returns for a board-size line "abc" carries the size NaN,
    which is no size in 1..19, and [parse] returns it, with the three fixed
    tags set, instead of throwing [BadBoardSize]. *)
Theorem parse_accepts_NaN_size :
  is_Ok (parse (ngf_text "abc" "0" "6") ".ngf") = true ∧
  root_value (parse (ngf_text "abc" "0" "6") ".ngf") "SZ" = Some ["NaN"] ∧
  parseInt_opt (Some "NaN") = NaN ∧
  root_value (parse (ngf_text "abc" "0" "6") ".ngf") "FF" = Some ["4"] ∧
  root_value (parse (ngf_text "abc" "0" "6") ".ngf") "GM" = Some ["1"] ∧
  root_value (parse (ngf_text "abc" "0" "6") ".ngf") "CA" = Some ["UTF-8"].
Proof. repeat split; vm_compute; reflexivity. Qed.

(** What [normalize] does on any root: it throws [BadBoardSize] exactly
    when the size read off the root compares above 19 or below 1 (a NaN
    compares neither way); a root it returns has the three fixed tags, the
    size 19 if it had none, and its own size otherwise. *)
Lemma normalize_spec (h : heap) (r : handle) :
  (r < length h)%nat →
  let size := size_of (props_of h r) in
  (normalize h r = Throw BadBoardSize ↔
     Num.gt size (Int 19) || Num.lt size (Int 1) = true) ∧
  (∀ h' r', normalize h r = Ok (h', r') →
     r' = r ∧
     PMap.get (props_of h' r) "FF" = Some ["4"] ∧
     PMap.get (props_of h' r) "GM" = Some ["1"] ∧
     PMap.get (props_of h' r) "CA" = Some ["UTF-8"] ∧
     PMap.get (props_of h' r) "SZ" =
       match PMap.get (props_of h r) "SZ" with
       | Some vs => Some vs
       | None => Some ["19"]
       end).
Proof.
  intros Hlt size. unfold normalize. cbv zeta.
  set (h1 := setValue h r "FF" (Num.toString (Int 4))).
  set (h2 := setValue h1 r "GM" (Num.toString (Int 1))).
  set (h3 := setValue h2 r "CA" "UTF-8").
  assert (L1 : (r < length h1)%nat) by (unfold h1, setValue; now rewrite length_alter).
  assert (L2 : (r < length h2)%nat) by (unfold h2, setValue; now rewrite length_alter).
  assert (L3 : (r < length h3)%nat) by (unfold h3, setValue; now rewrite length_alter).
  assert (P3 : ∀ k, PMap.get (props_of h3 r) k =
                 if Str.eqb "CA" k then Some ["UTF-8"]
                 else if Str.eqb "GM" k then Some ["1"]
                 else if Str.eqb "FF" k then Some ["4"]
                 else PMap.get (props_of h r) k).
  { intros k. unfold h3, h2, h1, setValue.
    rewrite !props_of_alter_eq by (rewrite ?length_alter; assumption).
    destruct (Str.eqb "CA" k) eqn:E1.
    { apply String.eqb_eq in E1 as <-. apply get_set_eq. }
    rewrite get_set_ne by assumption.
    destruct (Str.eqb "GM" k) eqn:E2.
    { apply String.eqb_eq in E2 as <-. apply get_set_eq. }
    rewrite get_set_ne by assumption.
    destruct (Str.eqb "FF" k) eqn:E3.
    { apply String.eqb_eq in E3 as <-. apply get_set_eq. }
    now rewrite get_set_ne by assumption. }
  assert (S3 : PMap.get (props_of h3 r) "SZ" = PMap.get (props_of h r) "SZ")
    by (rewrite P3; reflexivity).
  rewrite S3. subst size. unfold size_of.
  destruct (PMap.get (props_of h r) "SZ") as [vs|] eqn:Esz.
  - destruct (Num.gt (parseInt_opt (at_ vs 0)) (Int 19)
              || Num.lt (parseInt_opt (at_ vs 0)) (Int 1)) eqn:Ecmp.
    + split; [tauto|]. intros h' r' E. discriminate E.
    + split; [split; intros E; discriminate E|].
      intros h' r' E. injection E as <- <-.
      rewrite !P3. repeat split; try reflexivity. exact Esz.
  - simpl. split; [split; intros E; discriminate E|].
    intros h' r' E. injection E as <- <-.
    unfold setValue at 1 2 3 4. rewrite !props_of_alter_eq by assumption.
    rewrite get_set_eq, !get_set_ne, !P3 by reflexivity.
    repeat split; reflexivity.
Qed.

(** ** C8: which line decides a metadata field in [parseGib] *)

(** The second name line overwrites what the first stored. *)
Lemma first_wins_fails_for_names : ¬ first_wins "PB" pb_offer.
Proof.
  intros H.
  assert (E : parseGib gib_two_names
              = Ok ([mkNode [("PB", ["Bob"]); ("BR", ["2d"])] [1%nat] None;
                     mkNode [("B", ["pp"])] [] (Some 0%nat)], 0%nat))
    by (vm_compute; reflexivity).
  specialize (H _ _ _ E). vm_compute in H. discriminate H.
Qed.

Section RootFields.
Implicit Types (h : heap) (k key : string).

Lemma length_setValue h n key v : length (setValue h n key v) = length h.
Proof. apply length_alter. Qed.

Lemma length_safeCommit h n key v : length (safeCommit h n key v) = length h.
Proof. unfold safeCommit. destruct (Str.truthy _); apply length_alter. Qed.

Lemma length_addValue h n key v : length (addValue h n key v) = length h.
Proof. apply length_alter. Qed.

Lemma get_setValue h n key v k :
  (n < length h)%nat →
  PMap.get (props_of (setValue h n key v) n) k =
  if Str.eqb key k then Some [v] else PMap.get (props_of h n) k.
Proof.
  intros Hlt. unfold setValue. rewrite props_of_alter_eq by assumption.
  destruct (Str.eqb key k) eqn:E.
  - apply String.eqb_eq in E as <-. apply get_set_eq.
  - now apply get_set_ne.
Qed.

Lemma get_safeCommit_truthy h n key v k :
  (n < length h)%nat → Str.truthy v = true →
  PMap.get (props_of (safeCommit h n key v) n) k =
  if Str.eqb key k then Some [safeString v] else PMap.get (props_of h n) k.
Proof.
  intros Hlt Hv. unfold safeCommit, Str.truthy in *.
  rewrite safeString_empty, Hv. apply (get_setValue h n key (safeString v) k Hlt).
Qed.

Lemma get_addValue_ne h n key v k :
  Str.eqb key k = false →
  PMap.get (props_of (addValue h n key v) n) k = PMap.get (props_of h n) k.
Proof.
  intros Hne. unfold addValue, props_of. rewrite list_lookup_alter_eq.
  destruct (h !! n) as [nd|]; simpl; [|reflexivity].
  now apply get_add_value_ne.
Qed.

Lemma has_get (m : PMap.t) k :
  PMap.has m k = match PMap.get m k with Some _ => true | None => false end.
Proof. reflexivity. Qed.
End RootFields.

Section GibNameLines.
Variables (h : heap) (line : string).
Hypothesis Hroot : (0 < length h)%nat.

Lemma gib_name_length tag kn kr :
  length (gib_name tag kn kr h line) = length h.
Proof.
  unfold gib_name. destruct (_ && _); [|reflexivity].
  destruct (parsePlayerName _) as [name rank].
  destruct (Str.truthy name), (Str.truthy rank);
    now rewrite ?length_safeCommit.
Qed.

(** A name line: the rank is committed after the name. *)
Lemma gib_name_stored tag kn kr k :
  stored (gib_name tag kn kr h line) k =
  match name_offer tag line with
  | Some (name, rank) =>
      if Str.eqb kr k && Str.truthy rank then Some [safeString rank]
      else if Str.eqb kn k && Str.truthy name then Some [safeString name]
      else stored h k
  | None => stored h k
  end.
Proof.
  unfold stored, gib_name, name_offer. destruct (_ && _); [|reflexivity].
  destruct (parsePlayerName _) as [name rank].
  destruct (Str.truthy name) eqn:En, (Str.truthy rank) eqn:Er;
    rewrite ?andb_true_r, ?andb_false_r;
    rewrite ?get_safeCommit_truthy by (rewrite ?length_safeCommit; assumption);
    reflexivity.
Qed.
End GibNameLines.
Lemma keep_first_none cur : keep_first cur None = cur.
Proof. now destruct cur. Qed.

Ltac eqb_concrete :=
  match goal with
  | |- context [Str.eqb ?a ?b] =>
      let v := eval vm_compute in (Str.eqb a b) in
      lazymatch v with
      | true => change (Str.eqb a b) with true
      | false => change (Str.eqb a b) with false
      end
  end.

Ltac innermost c :=
  lazymatch c with
  | context [if _ then _ else _] => fail
  | context [match _ with Some _ => _ | None => _ end] => fail
  | _ => idtac
  end.

Ltac fields_step :=
  first
    [ rewrite get_setValue by (rewrite ?length_setValue; assumption)
    | rewrite get_safeCommit_truthy by (rewrite ?length_setValue, ?length_safeCommit; assumption)
    | eqb_concrete
    | progress cbn [negb andb orb keep_first take_last fmap option_fmap option_map single]
    | match goal with
      | H : PMap.get (props_of ?h root) ?k = _ |- context [PMap.get (props_of ?h root) ?k] =>
          rewrite H
      | H : Str.eqb ?a ?b = _ |- context [Str.eqb ?a ?b] => rewrite H
      end
    | match goal with
      | |- context [if ?c then _ else _] => innermost c; destruct c eqn:?
      | |- context [match ?c with Some _ => _ | None => _ end] =>
          innermost c; destruct c eqn:?
      end ].

Ltac fields :=
  repeat fields_step; rewrite ?keep_first_none; try reflexivity; try congruence.

(** Split on whether [k] is one of the given keys. *)
Ltac key_is k s :=
  let E := fresh "Ek" in
  destruct (Str.eqb s k) eqn:E; [apply String.eqb_eq in E; subst k|].

Section GibInfoLines.
Variables (h : heap) (line : string).
Hypothesis Hroot : (0 < length h)%nat.

Lemma gib_infomain_length : length (gib_infomain h line) = length h.
Proof.
  unfold gib_infomain.
  repeat match goal with
         | |- context [if ?c then _ else _] => destruct c
         | |- context [match ?c with Some _ => _ | None => _ end] => destruct c
         end; now rewrite ?length_setValue.
Qed.

Lemma gib_infomain_stored k :
  stored (gib_infomain h line) k =
  if Str.eqb "KM" k then keep_first (stored h "KM") (infomain_km line)
  else if Str.eqb "RE" k then keep_first (stored h "RE") (infomain_re line)
  else stored h k.
Proof.
  unfold stored, gib_infomain, infomain_km, infomain_re.
  cbv zeta. rewrite ?has_get.
  key_is k "KM"; [|key_is k "RE"]; fields.
Qed.

Lemma gib_gametag_length : length (gib_gametag h line) = length h.
Proof.
  unfold gib_gametag.
  repeat match goal with
         | |- context [if ?c then _ else _] => destruct c
         | |- context [match ?c with Some _ => _ | None => _ end] => destruct c
         end; now rewrite ?length_setValue.
Qed.

Lemma gib_gametag_stored k :
  stored (gib_gametag h line) k =
  if Str.eqb "KM" k then keep_first (stored h "KM") (gametag_km line)
  else if Str.eqb "RE" k then keep_first (stored h "RE") (gametag_re line)
  else if Str.eqb "DT" k then keep_first (stored h "DT") (dt_offer line)
  else stored h k.
Proof.
  unfold stored, gib_gametag, gametag_km, gametag_re, dt_offer.
  cbv zeta. rewrite ?has_get.
  key_is k "KM"; [|key_is k "RE"; [|key_is k "DT"]]; fields.
Qed.
End GibInfoLines.

(** The four metadata steps together, field by field. *)
Lemma gib_meta_stored (h : heap) (line : string) :
  (0 < length h)%nat →
  length (gib_meta h line) = length h ∧
  stored (gib_meta h line) "RE" = keep_first (stored h "RE") (re_offer line) ∧
  stored (gib_meta h line) "KM" = keep_first (stored h "KM") (km_offer line) ∧
  stored (gib_meta h line) "DT" = keep_first (stored h "DT") (dt_offer line) ∧
  stored (gib_meta h line) "PB" = take_last (stored h "PB") (pb_offer line) ∧
  stored (gib_meta h line) "BR" = take_last (stored h "BR") (br_offer line) ∧
  stored (gib_meta h line) "PW" = take_last (stored h "PW") (pw_offer line) ∧
  stored (gib_meta h line) "WR" = take_last (stored h "WR") (wr_offer line).
Proof.
  intros Hroot. unfold gib_meta.
  set (h1 := gib_name "\[GAMEBLACKNAME=" "PB" "BR" h line).
  set (h2 := gib_name "\[GAMEWHITENAME=" "PW" "WR" h1 line).
  set (h3 := gib_infomain h2 line).
  assert (L1 : length h1 = length h) by apply gib_name_length.
  assert (L2 : length h2 = length h) by (unfold h2; now rewrite gib_name_length).
  assert (L3 : length h3 = length h) by (unfold h3; now rewrite gib_infomain_length).
  split; [now rewrite gib_gametag_length|].
  rewrite !gib_gametag_stored by lia.
  unfold h3. rewrite !gib_infomain_stored by lia.
  unfold h2. rewrite !gib_name_stored by lia.
  unfold h1. rewrite !gib_name_stored by lia.
  unfold stored.
  unfold re_offer, km_offer, pb_offer, br_offer, pw_offer, wr_offer, escaped_if_any.
  repeat eqb_concrete. cbv iota.
  destruct (name_offer "\[GAMEBLACKNAME=" line) as [[bn br]|];
  destruct (name_offer "\[GAMEWHITENAME=" line) as [[wn wr]|];
  repeat eqb_concrete; cbn [andb]; cbv iota;
  repeat split;
    try (destruct (PMap.get (props_of h root) _); simpl;
         repeat (match goal with
                 | |- context [or_else ?a _] => destruct a; simpl
                 | |- context [match ?c with Some _ => _ | None => _ end] =>
                     destruct c; simpl
                 end); reflexivity);
    try (repeat (match goal with
                 | |- context [if ?c then _ else _] => destruct c; simpl
                 end); reflexivity).
Qed.

(** The stones of the [INI] step only touch [AB]. *)
Lemma add_stones_stored (node : handle) (stones : list point) : ∀ (h h' : heap),
  for_of (fun h (pt : point) =>
            v ← stringFromPoint (fst pt) (snd pt);
            Ok (addValue h node "AB" v)) h stones = Ok h' →
  length h' = length h ∧
  ∀ n k, Str.eqb "AB" k = false →
    PMap.get (props_of h' n) k = PMap.get (props_of h n) k.
Proof.
  induction stones as [|pt stones IH]; intros h h' E; simpl in E.
  - injection E as <-. split; reflexivity.
  - destruct (stringFromPoint (fst pt) (snd pt)) as [v|]; simpl in E; [|discriminate].
    apply IH in E as [L P]. rewrite length_addValue in L. split; [exact L|].
    intros n k Hk. rewrite P by assumption.
    destruct (decide (node = n)) as [->|Hne].
    + now apply get_addValue_ne.
    + unfold addValue. now rewrite props_of_alter_ne.
Qed.

(** The [INI] step leaves the seven metadata fields as they are. *)
Lemma gib_ini_stored (h : heap) (node : handle) (line : string) (t : turn heap) :
  (0 < length h)%nat →
  gib_ini h node line = Ok t →
  let h' := match t with Next h' | Continue h' => h' end in
  length h' = length h ∧
  ∀ k, Str.eqb "HA" k = false → Str.eqb "AB" k = false → stored h' k = stored h k.
Proof.
  intros Hroot E. unfold gib_ini in E.
  destruct (Str.eqb (Str.slice line 0 (Some 3)) "INI");
    [|injection E as <-; split; reflexivity].
  destruct (negb (node =? root)%nat) eqn:En; [discriminate|].
  apply negb_false_iff, Nat.eqb_eq in En. subst node.
  destruct (truthy_opt _); [|injection E as <-; split; reflexivity].
  destruct (_ || _); [discriminate|].
  destruct (Num.ge _ _); [|injection E as <-; split; reflexivity].
  match type of E with
  | mbind _ ?c = _ => destruct c as [h2|] eqn:E2; simpl in E; [|discriminate]
  end.
  injection E as <-. apply add_stones_stored in E2 as [L P].
  rewrite length_setValue in L. split; [exact L|].
  intros k Hha Hab. unfold stored. rewrite P by assumption.
  rewrite get_setValue by assumption. now rewrite Hha.
Qed.

(** The [STO] step leaves the properties of the root as they are. *)
Lemma gib_sto_props (h : heap) (node : handle) (line : string) :
  (0 < length h)%nat →
  (0 < length (fst (gib_sto h node line)))%nat ∧
  props_of (fst (gib_sto h node line)) root = props_of h root.
Proof.
  intros Hroot. unfold gib_sto.
  destruct (Str.eqb _ "STO"); [|auto].
  destruct (truthy_opt (at_ _ 4)); [|auto].
  destruct (truthy_opt (at_ _ 5)); [|auto].
  destruct (stringFromPoint _ _) as [value|]; [|auto].
  pose proof (length_new_Node h (Some node)) as L.
  pose proof (props_of_new_Node h (Some node) root Hroot) as P.
  destruct (new_Node h (Some node)) as [h2 n2] eqn:En.
  assert (n2 = length h) by (now apply (f_equal snd) in En).
  simpl in *. rewrite length_setValue. split; [lia|].
  unfold setValue. rewrite props_of_alter_ne by (unfold root; lia). exact P.
Qed.

(** One turn of the loop, field by field. *)
Lemma gib_line_stored (h h' : heap) (node node' : handle) (line : string) :
  (0 < length h)%nat →
  gib_line (h, node) line = Ok (h', node') →
  let l := Str.trim line in
  (0 < length h')%nat ∧
  stored h' "RE" = keep_first (stored h "RE") (re_offer l) ∧
  stored h' "KM" = keep_first (stored h "KM") (km_offer l) ∧
  stored h' "DT" = keep_first (stored h "DT") (dt_offer l) ∧
  stored h' "PB" = take_last (stored h "PB") (pb_offer l) ∧
  stored h' "BR" = take_last (stored h "BR") (br_offer l) ∧
  stored h' "PW" = take_last (stored h "PW") (pw_offer l) ∧
  stored h' "WR" = take_last (stored h "WR") (wr_offer l).
Proof.
  intros Hroot E l. unfold gib_line in E. fold l in E.
  destruct (gib_meta_stored h l Hroot) as (Lm & M).
  destruct (gib_ini (gib_meta h l) node l) as [t|] eqn:Ei; simpl in E; [|discriminate].
  apply gib_ini_stored in Ei as [Li Pi]; [|lia].
  assert (Hsame : ∀ k, Str.eqb "HA" k = false → Str.eqb "AB" k = false →
                       stored h' k = stored (gib_meta h l) k ∧ (0 < length h')%nat).
  { intros k Hha Hab. destruct t as [h2|h2]; simpl in Li, Pi.
    - destruct (gib_sto_props h2 node l) as [Ls Ps]; [lia|].
      injection E as E. apply (f_equal fst) in E. simpl in E. subst h'.
      split; [|exact Ls]. unfold stored at 1. rewrite Ps. now apply Pi.
    - injection E as <- <-. split; [now apply Pi|lia]. }
  split; [apply (Hsame "RE"); reflexivity|].
  rewrite !(λ k a b, proj1 (Hsame k a b)) by reflexivity.
  exact M.
Qed.

Lemma keep_first_step (cur : option (list string)) (a b : option string) :
  keep_first (keep_first cur a) b = keep_first cur (or_else a b).
Proof. destruct cur, a; reflexivity. Qed.

Lemma take_last_step (cur : option (list string)) (a b : option string) :
  take_last (take_last cur a) b = take_last cur (or_else b a).
Proof. destruct a, b; reflexivity. Qed.

(** The whole loop, field by field: the first offer stays in [RE], [KM]
    and [DT]; the last offer stays in the names and ranks. *)
Lemma gib_loop_stored (lines : list string) : ∀ (h h' : heap) (node node' : handle),
  (0 < length h)%nat →
  for_of gib_line (h, node) lines = Ok (h', node') →
  let ls := map Str.trim lines in
  stored h' "RE" = keep_first (stored h "RE") (first_some re_offer ls) ∧
  stored h' "KM" = keep_first (stored h "KM") (first_some km_offer ls) ∧
  stored h' "DT" = keep_first (stored h "DT") (first_some dt_offer ls) ∧
  stored h' "PB" = take_last (stored h "PB") (last_some pb_offer ls) ∧
  stored h' "BR" = take_last (stored h "BR") (last_some br_offer ls) ∧
  stored h' "PW" = take_last (stored h "PW") (last_some pw_offer ls) ∧
  stored h' "WR" = take_last (stored h "WR") (last_some wr_offer ls).
Proof.
  induction lines as [|line lines IH]; intros h h' node node' Hroot E;
    cbn [for_of] in E.
  - injection E as <- <-. simpl.
    rewrite !keep_first_none. repeat split; reflexivity.
  - destruct (gib_line (h, node) line) as [[h1 n1]|] eqn:E1; simpl in E; [|discriminate].
    apply gib_line_stored in E1 as (L1 & R1 & K1 & D1 & B1 & BR1 & W1 & WR1);
      [|assumption].
    apply IH in E as (R & K & D & B & BR & W & WR); [|assumption].
    cbn [map first_some last_some].
    rewrite R, K, D, B, BR, W, WR, R1, K1, D1, B1, BR1, W1, WR1.
    rewrite !keep_first_step, !take_last_step. repeat split; reflexivity.
Qed.

(** C8, amended.  On the root a successful [parseGib] returns, the result,
    the komi and the date are what the first line offering one offered, and
    later offers are ignored; the name and the rank of each player are what
    the last line offering one offered. *)
Theorem parseGib_field_precedence (gib : string) (h : heap) (r : handle) :
  parseGib gib = Ok (h, r) →
  let lines := gib_lines gib in
  let field key := PMap.get (props_of h r) key in
  field "RE" = single <$> first_some re_offer lines ∧
  field "KM" = single <$> first_some km_offer lines ∧
  field "DT" = single <$> first_some dt_offer lines ∧
  field "PB" = single <$> last_some pb_offer lines ∧
  field "BR" = single <$> last_some br_offer lines ∧
  field "PW" = single <$> last_some pw_offer lines ∧
  field "WR" = single <$> last_some wr_offer lines.
Proof.
  intros E lines field. unfold parseGib in E.
  destruct (parseGib_loop gib) as [[h' n']|] eqn:El; simpl in E; [|discriminate].
  destruct (length (children_of h' root) =? 0)%nat; [discriminate|].
  injection E as <- <-.
  unfold parseGib_loop in El. simpl new_Node in El. cbv iota beta in El.
  apply gib_loop_stored in El; [|simpl; lia].
  fold (gib_lines gib) in El. fold lines in El.
  unfold stored in El. simpl props_of in El at 2 4 6 8 10 12 14.
  simpl PMap.get in El at 2 4 6 8 10 12 14.
  unfold field.
  destruct El as (R & K & D & B & BR & W & WR).
  rewrite R, K, D, B, BR, W, WR.
  unfold keep_first, take_last, single.
  repeat split; try reflexivity;
    match goal with |- context [last_some ?o ?l] => now destruct (last_some o l) end.
Qed.

Lemma parseGib_field_precedence_witness :
  parseGib gib_fields_example = Ok (gib_fields_example_heap, root) ∧
  first_some re_offer (gib_lines gib_fields_example) = Some "B+6.5" ∧
  last_some pb_offer (gib_lines gib_fields_example) = Some "Bob" ∧
  PMap.get (props_of gib_fields_example_heap root) "RE"
    = single <$> first_some re_offer (gib_lines gib_fields_example) ∧
  PMap.get (props_of gib_fields_example_heap root) "PB"
    = single <$> last_some pb_offer (gib_lines gib_fields_example).
Proof.
  assert (E : parseGib gib_fields_example = Ok (gib_fields_example_heap, root))
    by (vm_compute; reflexivity).
  split; [exact E|].
  split; [vm_compute; reflexivity|].
  split; [vm_compute; reflexivity|].
  destruct (parseGib_field_precedence gib_fields_example gib_fields_example_heap root E)
    as (R & _ & _ & B & _).
  split; [exact R | exact B].
Defined.

(** ** Further properties: escaping, maps, the serializer *)

Lemma append_String (c : ascii) (a b : string) :
  String c a +:+ b = String c (a +:+ b).
Proof. reflexivity. Qed.

Lemma append_assoc (a b c : string) : (a +:+ b) +:+ c = a +:+ b +:+ c.
Proof. induction a as [|x a IH]; [reflexivity|]. now rewrite !append_String, IH. Qed.

Lemma read_value_safeString (s rest : string) :
  read_value (safeString s +:+ String "]" rest) = Some (s, rest).
Proof.
  induction s as [|c s IH]; [reflexivity|].
  cbn [safeString].
  destruct (Ascii.eqb c "]") eqn:E1.
  - apply Ascii.eqb_eq in E1. subst c.
    rewrite orb_true_l, !append_String. cbn [read_value].
    change (Ascii.eqb "\" "]") with false. change (Ascii.eqb "\" "\") with true.
    cbv iota. now rewrite IH.
  - destruct (Ascii.eqb c "\") eqn:E2.
    + apply Ascii.eqb_eq in E2. subst c.
      cbn [orb]. rewrite !append_String. cbn [read_value].
      change (Ascii.eqb "\" "]") with false. change (Ascii.eqb "\" "\") with true.
      cbv iota. now rewrite IH.
    + cbn [orb]. rewrite append_String. cbn [read_value].
      now rewrite E1, E2, IH.
Qed.

(** X1.  A value escaped by [safeString] and written between brackets is
    read back unchanged, and the reader stops exactly at the bracket that
    [writeTree] wrote after it, whatever follows. *)
Theorem safeString_read_back (s rest : string) :
  chunk_text (Value (safeString s)) +:+ rest
    = String "[" (safeString s +:+ "]" +:+ rest) ∧
  read_value (safeString s +:+ "]" +:+ rest) = Some (s, rest).
Proof.
  split.
  - change (String "[" ((safeString s +:+ "]") +:+ rest)
            = String "[" (safeString s +:+ "]" +:+ rest)).
    now rewrite append_assoc.
  - apply read_value_safeString.
Qed.

Section MapKeys.
Implicit Types (m : PMap.t) (k : string) (v : list string).

Lemma str_eqb_eq k k' : Str.eqb k k' = true ↔ k = k'.
Proof. apply String.eqb_eq. Qed.

Lemma has_keys m k : PMap.has m k = true ↔ k ∈ keys m.
Proof.
  unfold PMap.has, keys. induction m as [|[k0 v0] m IH]; simpl.
  - split; [discriminate|]. intros H. now apply elem_of_nil in H.
  - rewrite elem_of_cons. destruct (Str.eqb k0 k) eqn:E.
    + apply str_eqb_eq in E. split; auto.
    + rewrite IH. apply String.eqb_neq in E. split; [auto|].
      intros [->|H]; [now contradiction E|exact H].
Qed.

Lemma keys_set m k v :
  keys (PMap.set m k v) = if PMap.has m k then keys m else keys m ++ [k].
Proof.
  unfold PMap.has, keys. induction m as [|[k0 v0] m IH]; simpl; [reflexivity|].
  destruct (Str.eqb k0 k) eqn:E; simpl; [reflexivity|].
  rewrite IH. now destruct (PMap.get m k).
Qed.

Lemma NoDup_keys_set m k v : NoDup (keys m) → NoDup (keys (PMap.set m k v)).
Proof.
  intros Hm. rewrite keys_set. destruct (PMap.has m k) eqn:E; [exact Hm|].
  apply NoDup_app. split; [exact Hm|]. split; [|apply NoDup_singleton].
  intros x Hx Hin. apply list_elem_of_singleton in Hin. subst x.
  apply has_keys in Hx. congruence.
Qed.

Lemma keys_delete m k :
  keys (PMap.delete m k) = filter (λ k', k' ≠ k) (keys m).
Proof.
  unfold keys. induction m as [|[k0 v0] m IH]; simpl; [reflexivity|].
  destruct (Str.eqb k0 k) eqn:E.
  - apply str_eqb_eq in E. subst k0.
    rewrite filter_cons_False by auto. exact IH.
  - apply String.eqb_neq in E. rewrite filter_cons_True by exact E.
    simpl. now rewrite IH.
Qed.

Lemma NoDup_keys_delete m k : NoDup (keys m) → NoDup (keys (PMap.delete m k)).
Proof. intros Hm. rewrite keys_delete. now apply NoDup_filter. Qed.

Lemma get_add_value_eq m k (x : string) :
  PMap.get (add_value k x m) k =
  Some (if existsb (Str.eqb x) (values_of m k) then values_of m k
        else values_of m k ++ [x]).
Proof.
  unfold add_value, values_of, PMap.has.
  destruct (PMap.get m k) as [vs|] eqn:E; simpl.
  - rewrite E. destruct (existsb (Str.eqb x) vs); simpl; [exact E|apply get_set_eq].
  - rewrite get_set_eq. simpl. apply get_set_eq.
Qed.

Lemma keys_add_value m k (x : string) :
  keys (add_value k x m) = if PMap.has m k then keys m else keys m ++ [k].
Proof.
  unfold add_value.
  destruct (PMap.has m k) eqn:E; simpl.
  - unfold PMap.has in E. destruct (PMap.get m k) as [vs|] eqn:G; [|discriminate].
    destruct (existsb (Str.eqb x) vs); simpl; [reflexivity|].
    rewrite keys_set. unfold PMap.has. now rewrite G.
  - rewrite get_set_eq. simpl. rewrite keys_set.
    assert (H : PMap.has (PMap.set m k []) k = true)
      by (unfold PMap.has; now rewrite get_set_eq).
    rewrite H. rewrite keys_set. now rewrite E.
Qed.

Lemma NoDup_keys_add_value m k (x : string) :
  NoDup (keys m) → NoDup (keys (add_value k x m)).
Proof.
  intros Hm. rewrite keys_add_value. rewrite <- (keys_set m k []).
  now apply NoDup_keys_set.
Qed.

Lemma add_value_idem m k (x : string) :
  add_value k x (add_value k x m) = add_value k x m.
Proof.
  pose proof (get_add_value_eq m k x) as G.
  set (m1 := add_value k x m) in *.
  unfold add_value at 1. unfold PMap.has. rewrite G. simpl. rewrite G.
  assert (Hx : existsb (Str.eqb x)
                 (if existsb (Str.eqb x) (values_of m k) then values_of m k
                  else values_of m k ++ [x]) = true).
  { destruct (existsb (Str.eqb x) (values_of m k)) eqn:E; [exact E|].
    rewrite existsb_app. simpl. now rewrite eqb_refl, orb_true_r. }
  now rewrite Hx.
Qed.
End MapKeys.

Lemma existsb_eqb_elem (x : string) (vs : list string) :
  existsb (Str.eqb x) vs = true ↔ x ∈ vs.
Proof.
  induction vs as [|v vs IH]; simpl.
  - split; [discriminate|]. intros H. now apply elem_of_nil in H.
  - rewrite orb_true_iff, elem_of_cons, IH, str_eqb_eq. tauto.
Qed.

(** X2.  [addValue] treats the values of a key as a set kept in insertion
    order: the value is appended unless it is there already, values without
    repetition stay so, adding the same value again changes nothing, and no
    other key is touched. *)
Theorem addValue_set_like (h : heap) (node : handle) (key value : string) :
  (node < length h)%nat →
  let vs := values_of (props_of h node) key in
  let h' := addValue h node key value in
  values_of (props_of h' node) key
    = (if existsb (Str.eqb value) vs then vs else vs ++ [value]) ∧
  (NoDup vs → NoDup (values_of (props_of h' node) key)) ∧
  addValue h' node key value = h' ∧
  (∀ k, Str.eqb key k = false →
        PMap.get (props_of h' node) k = PMap.get (props_of h node) k).
Proof.
  intros Hlt vs h'.
  assert (E : values_of (props_of h' node) key
              = (if existsb (Str.eqb value) vs then vs else vs ++ [value])).
  { unfold h', addValue. rewrite props_of_alter_eq by assumption.
    unfold values_of at 1. now rewrite get_add_value_eq. }
  split; [exact E|]. split; [|split].
  - intros Hnd. rewrite E. destruct (existsb (Str.eqb value) vs) eqn:Hin; [exact Hnd|].
    apply NoDup_app. split; [exact Hnd|]. split; [|apply NoDup_singleton].
    intros x Hx Hx'. apply list_elem_of_singleton in Hx'. subst x.
    apply existsb_eqb_elem in Hx. congruence.
  - unfold h', addValue. rewrite list_alter_alter_eq.
    apply list_alter_ext; [|reflexivity].
    intros nd _. unfold compose, with_properties. simpl.
    now rewrite add_value_idem.
  - intros k Hk. now apply get_addValue_ne.
Qed.

Lemma addValue_set_like_witness :
  let h := [mkNode [("AB", ["pd"; "dp"])] [] None] in
  (0 < length h)%nat ∧
  values_of (props_of (addValue h 0%nat "AB" "dd") 0%nat) "AB" = ["pd"; "dp"; "dd"] ∧
  values_of (props_of (addValue h 0%nat "AB" "dp") 0%nat) "AB" = ["pd"; "dp"].
Proof.
  intros h.
  assert (Hlt : (0 < length h)%nat) by (simpl; lia).
  split; [exact Hlt|]. split.
  - exact (proj1 (addValue_set_like h 0%nat "AB" "dd" Hlt)).
  - exact (proj1 (addValue_set_like h 0%nat "AB" "dp" Hlt)).
Defined.

(** X3.  The three writing methods of [Node] keep the keys of a node in
    insertion order and without repetition: a key that is there keeps its
    place, a new key goes last, and [safeCommit] of an empty value takes
    the key out. *)
Theorem node_methods_keep_keys (h : heap) (node : handle) (key value : string) :
  (node < length h)%nat →
  NoDup (keys (props_of h node)) →
  let old := keys (props_of h node) in
  let grown := if PMap.has (props_of h node) key then old else old ++ [key] in
  keys (props_of (setValue h node key value) node) = grown ∧
  keys (props_of (addValue h node key value) node) = grown ∧
  keys (props_of (safeCommit h node key value) node)
    = (if Str.truthy value then grown else filter (λ k, k ≠ key) old) ∧
  NoDup (keys (props_of (setValue h node key value) node)) ∧
  NoDup (keys (props_of (addValue h node key value) node)) ∧
  NoDup (keys (props_of (safeCommit h node key value) node)).
Proof.
  intros Hlt Hnd old grown.
  unfold setValue, addValue, safeCommit, Str.truthy.
  rewrite safeString_empty.
  destruct (negb (Str.is_empty value));
    rewrite !props_of_alter_eq by assumption;
    rewrite ?keys_set, ?keys_add_value, ?keys_delete;
    repeat split; try reflexivity;
    rewrite <- ?keys_delete, <- ?(keys_set _ key [value]);
    auto using NoDup_keys_set, NoDup_keys_delete.
Qed.

Lemma node_methods_keep_keys_witness :
  let h := [mkNode [("PB", ["a"]); ("PW", ["b"])] [] None] in
  ((0 < length h)%nat ∧ NoDup (keys (props_of h 0%nat))) ∧
  keys (props_of (setValue h 0%nat "PB" "c") 0%nat) = ["PB"; "PW"] ∧
  keys (props_of (addValue h 0%nat "AB" "dd") 0%nat) = ["PB"; "PW"; "AB"] ∧
  keys (props_of (safeCommit h 0%nat "PB" "") 0%nat) = ["PW"].
Proof.
  intros h.
  assert (Hlt : (0 < length h)%nat) by (simpl; lia).
  assert (Hnd : NoDup (keys (props_of h 0%nat))).
  { simpl. repeat constructor; rewrite ?elem_of_cons, ?elem_of_nil;
      intros H; decompose [or] H; discriminate || assumption. }
  split; [split; assumption|]. split; [|split].
  - exact (proj1 (node_methods_keep_keys h 0%nat "PB" "c" Hlt Hnd)).
  - exact (proj1 (proj2 (node_methods_keep_keys h 0%nat "AB" "dd" Hlt Hnd))).
  - exact (proj1 (proj2 (proj2 (node_methods_keep_keys h 0%nat "PB" "" Hlt Hnd)))).
Defined.

Lemma stream_text_app (a b : list chunk) :
  stream_text (a ++ b) = stream_text a +:+ stream_text b.
Proof.
  induction a as [|c a IH]; [reflexivity|].
  cbn [app stream_text fold_right]. fold (stream_text (a ++ b)). fold (stream_text a).
  now rewrite IH, append_assoc.
Qed.

(** The writes of the loop, counted over the whole tree. *)
Lemma write_loop_counts : ∀ t,
  count is_node (write_loop t) = tree_size t ∧
  count is_open (write_loop t) = groups_under t ∧
  count is_close (write_loop t) = groups_under t.
Proof.
  induction t as [props kids IH] using tree_forall_ind.
  cbn [write_loop]. change (NodeStart :: ?l) with ([NodeStart] ++ l).
  rewrite !count_app, !count_write_props by reflexivity.
  destruct kids as [|k1 [|k2 kids]].
  - repeat split; reflexivity.
  - inversion IH as [|? ? (N & O & C) _]; subst.
    cbn [tree_size groups_under map list_sum count is_node is_open is_close].
    rewrite N, O, C. simpl list_sum. repeat split; lia.
  - cbn [tree_size groups_under].
    generalize dependent (k1 :: k2 :: kids). intros l Hl.
    induction Hl as [|k ks (N & O & C) _ (N' & O' & C')].
    + repeat split; reflexivity.
    + cbn [flat_map map]. simpl list_sum.
      rewrite !count_app. cbn [count]. rewrite !count_app, N, O, C.
      cbn [count is_node is_open is_close] in *. repeat split; lia.
Qed.

(** X4.  Whatever the tree, [writeTree] writes every node exactly once,
    closes every group it opens, never closes one that is not open, and the
    text on the stream starts with "(;" and ends with ")" and a line
    feed. *)
Theorem writeTree_counts (t : tree) :
  count is_node (writeTree t) = tree_size t ∧
  count is_open (writeTree t) = S (groups_under t) ∧
  count is_close (writeTree t) = count is_open (writeTree t) ∧
  depth_after 0 (writeTree t) = Some 0%nat ∧
  ∃ body, stream_text (writeTree t)
          = "(;" +:+ body +:+ String ")" (String "010" EmptyString).
Proof.
  destruct (write_loop_counts t) as (N & O & C).
  unfold writeTree.
  change (GroupOpen :: ?l ++ [GroupClose]) with ([GroupOpen] ++ l ++ [GroupClose]).
  rewrite !count_app, N, O, C. cbn [count is_node is_open is_close].
  split; [lia|]. split; [lia|]. split; [lia|]. split.
  - cbn [app depth_after]. rewrite depth_after_app, write_loop_balanced. reflexivity.
  - assert (H : ∃ rest, write_loop t = NodeStart :: rest)
      by (destruct t; eexists; reflexivity).
    destruct H as [rest ->]. exists (stream_text rest).
    change (NodeStart :: rest) with ([NodeStart] ++ rest).
    change (GroupOpen :: ?l) with ([GroupOpen] ++ l).
    rewrite !stream_text_app. reflexivity.
Qed.

(** ** Further properties: handicap layout, player names, board size *)

Lemma ge_Int a b : Num.ge (Int a) (Int b) = (a >=? b).
Proof. unfold Num.ge, Z.geb. simpl. now destruct (a ?= b). Qed.

(** X5.  The [tygem] flag of [handicapPoints] only decides which corner the
    third stone takes: for a handicap of three the first two points are
    followed by the low corner with the flag and by the high corner without
    it, and for every other handicap the two layouts hold the same points,
    the third and fourth in exchanged order. *)
Theorem handicapPoints_tygem (boardsize handicap : Z) :
  (handicap ≠ 3 →
     handicapPoints (Int boardsize) (Int handicap) true
       ≡ₚ handicapPoints (Int boardsize) (Int handicap) false) ∧
  (4 ≤ boardsize →
     ∀ tygem,
       let d := if boardsize <? 13 then 2 else 3 in
       let lo := Int (1 + d) in
       let hi := Int (boardsize - d) in
       handicapPoints (Int boardsize) (Int 3) tygem
         = [(hi, lo); (lo, hi); if tygem then (lo, lo) else (hi, hi)]).
Proof.
  split.
  - intros Hne. unfold handicapPoints.
    rewrite !lt_Int, gt_Int.
    destruct (boardsize <? 4); [reflexivity|].
    assert (G : ∀ h : Z, (if h >? 9 then Int 9 else Int h) = Int (Z.min h 9)).
    { intros h. destruct (h >? 9) eqn:E; f_equal; lia. }
    rewrite G. rewrite !ge_Int.
    destruct (Z.min handicap 9 >=? 2) eqn:E2;
    destruct (Z.min handicap 9 >=? 3) eqn:E3;
    destruct (Z.min handicap 9 >=? 4) eqn:E4; try lia;
    destruct (Num.eq _ _);
    repeat match goal with
           | |- context [existsb ?f ?l] => destruct (existsb f l)
           end;
    cbn [app]; first [reflexivity | do 2 apply perm_skip; apply perm_swap].
  - intros Hb tygem d lo hi. unfold handicapPoints.
    rewrite !lt_Int, gt_Int.
    replace (boardsize <? 4) with false by lia.
    change (3 >? 9) with false. cbv iota.
    unfold lo, hi, d.
    destruct (boardsize <? 13); destruct tygem; destruct (Num.eq _ _); reflexivity.
Qed.

Lemma handicapPoints_tygem_witness :
  (4 ≠ 3 ∧ 4 ≤ 19) ∧
  handicapPoints (Int 19) (Int 4) true ≡ₚ handicapPoints (Int 19) (Int 4) false ∧
  handicapPoints (Int 19) (Int 3) true = [(Int 16, Int 4); (Int 4, Int 16); (Int 4, Int 4)].
Proof.
  assert (Hne : 4 ≠ 3) by lia.
  assert (Hb : 4 ≤ 19) by lia.
  split; [split; assumption|]. split.
  - exact (proj1 (handicapPoints_tygem 19 4) Hne).
  - exact (proj2 (handicapPoints_tygem 19 3) Hb true).
Defined.

Section StringFacts.
Implicit Types (s a b : string) (c : ascii).

Lemma split_without c s : has_char c s = false → Str.split c s = [s].
Proof.
  induction s as [|x s IH]; [reflexivity|]. cbn [has_char Str.split].
  intros H. apply orb_false_iff in H as [Hx Hs].
  now rewrite Hx, (IH Hs).
Qed.

Lemma split_at c a b :
  has_char c a = false → Str.split c (a +:+ String c b) = a :: Str.split c b.
Proof.
  induction a as [|x a IH]; intros H.
  - change (EmptyString +:+ String c b) with (String c b).
    cbn [Str.split]. now rewrite Ascii.eqb_refl.
  - cbn [has_char] in H. apply orb_false_iff in H as [Hx Ha].
    rewrite append_String. cbn [Str.split]. now rewrite Hx, (IH Ha).
Qed.

Lemma len_append a b : Str.len (a +:+ b) = Str.len a + Str.len b.
Proof.
  unfold Str.len. induction a as [|x a IH]; [reflexivity|].
  rewrite append_String. cbn [String.length]. lia.
Qed.

Lemma substring_last a c :
  String.substring (String.length a) 1 (a +:+ String c EmptyString)
    = String c EmptyString.
Proof. induction a as [|x a IH]; [reflexivity|]. exact IH. Qed.

Lemma substring_front a b :
  String.substring 0 (String.length a) (a +:+ b) = a.
Proof.
  induction a as [|x a IH]; [now destruct b|].
  rewrite append_String. cbn [String.length String.substring]. now rewrite IH.
Qed.

(** The last character of a string that ends with [c], and the string
    without it. *)
Lemma charAt_last a c :
  Str.charAt (a +:+ String c EmptyString) (Str.len (a +:+ String c EmptyString) - 1)
    = String c EmptyString.
Proof.
  unfold Str.charAt. rewrite len_append.
  change (Str.len (String c EmptyString)) with 1.
  assert (H0 : 0 ≤ Str.len a) by (unfold Str.len; lia).
  replace (0 <=? Str.len a + 1 - 1) with true by lia.
  replace (Str.len a + 1 - 1 <? Str.len a + 1) with true by lia.
  cbn [andb]. replace (Z.to_nat (Str.len a + 1 - 1)) with (String.length a)
    by (unfold Str.len; lia).
  apply substring_last.
Qed.

Lemma slice_drop_last a c :
  Str.slice (a +:+ String c EmptyString) 0 (Some (-1)) = a.
Proof.
  unfold Str.slice, Str.clamp_index. rewrite len_append.
  change (Str.len (String c EmptyString)) with 1.
  assert (H0 : 0 ≤ Str.len a) by (unfold Str.len; lia).
  change (0 <? 0) with false. change (-1 <? 0) with true. cbv iota.
  rewrite Z.min_l by lia.
  rewrite Z.max_l by lia.
  destruct (0 <? Str.len a + 1 + -1) eqn:E.
  - replace (Z.to_nat (Str.len a + 1 + -1 - 0)) with (String.length a)
      by (unfold Str.len; lia).
    apply substring_front.
  - destruct a; [reflexivity|]. unfold Str.len in E. cbn [String.length] in E.
    apply Z.ltb_ge in E. exfalso. lia.
Qed.
End StringFacts.

(** X6.  [parsePlayerName] splits "Name(Rank)" into the trimmed name and the
    rank; a string without an opening parenthesis is the name as it is, with
    an empty rank; and the name it returns is empty only for the empty
    string. *)
Theorem parsePlayerName_cases :
  (∀ name rank,
     has_char "(" name = false → has_char "(" rank = false →
     Str.trim name ≠ "" →
     parsePlayerName (name +:+ "(" +:+ rank +:+ ")") = (Str.trim name, rank)) ∧
  (∀ raw, has_char "(" raw = false → parsePlayerName raw = (raw, "")) ∧
  (∀ raw, fst (parsePlayerName raw) = "" ↔ raw = "").
Proof.
  split; [|split].
  - intros name rank Hn Hr Ht. unfold parsePlayerName.
    change ("(" +:+ rank +:+ ")") with (String "(" (rank +:+ ")")).
    rewrite split_at by exact Hn.
    rewrite split_without.
    2:{ clear -Hr. induction rank as [|x r IH]; [reflexivity|].
        cbn [has_char] in Hr. apply orb_false_iff in Hr as [Hx Hr'].
        rewrite append_String. cbn [has_char]. now rewrite Hx, (IH Hr'). }
    cbv zeta. rewrite charAt_last, slice_drop_last.
    change (Str.eqb ")" ")") with true. cbv iota.
    unfold Str.truthy. destruct (Str.trim name); [now contradiction Ht|reflexivity].
  - intros raw H. unfold parsePlayerName. rewrite split_without by exact H.
    reflexivity.
  - intros raw. destruct raw as [|c r]; [split; reflexivity|].
    split; [|discriminate]. unfold parsePlayerName. cbv zeta.
    match goal with
    | |- context [let '(name, rank) := ?e in _] => destruct e as [name rank]
    end.
    unfold Str.truthy. destruct name; simpl; discriminate.
Qed.

Lemma parsePlayerName_cases_witness :
  (has_char "(" "Alice " = false ∧ has_char "(" "1d" = false ∧ Str.trim "Alice " ≠ "") ∧
  parsePlayerName "Alice (1d)" = ("Alice", "1d") ∧
  parsePlayerName "Bob" = ("Bob", "").
Proof.
  assert (Hn : has_char "(" "Alice " = false) by reflexivity.
  assert (Hr : has_char "(" "1d" = false) by reflexivity.
  assert (Ht : Str.trim "Alice " ≠ "") by discriminate.
  assert (Hb : has_char "(" "Bob" = false) by reflexivity.
  split; [auto|]. split.
  - exact (proj1 parsePlayerName_cases "Alice " "1d" Hn Hr Ht).
  - exact (proj1 (proj2 parsePlayerName_cases) "Bob" Hb).
Defined.

Lemma normalize_throws_only (h : heap) (r : handle) (e : error) :
  normalize h r = Throw e → e = BadBoardSize.
Proof.
  unfold normalize. cbv zeta.
  match goal with
  | |- (let '(size, h0) := ?p in _) = _ → _ => destruct p as [size0 h1]
  end.
  destruct (_ || _); intros E; [now injection E|discriminate].
Qed.

(** X7.  On a root whose board size reads as the integer [n] (19 for a root
    without [SZ]), [normalize] throws [BadBoardSize] exactly when [n] is
    below 1 or above 19; otherwise it returns the same root with the three
    fixed tags, and with [SZ] 19 if it had none. *)
Theorem normalize_integer_size (h : heap) (r : handle) (n : Z) :
  (r < length h)%nat →
  size_of (props_of h r) = Int n →
  (normalize h r = Throw BadBoardSize ↔ n < 1 ∨ 19 < n) ∧
  (1 ≤ n ≤ 19 →
     ∃ h', normalize h r = Ok (h', r) ∧
           PMap.get (props_of h' r) "FF" = Some ["4"] ∧
           PMap.get (props_of h' r) "GM" = Some ["1"] ∧
           PMap.get (props_of h' r) "CA" = Some ["UTF-8"] ∧
           PMap.get (props_of h' r) "SZ" =
             Some (match PMap.get (props_of h r) "SZ" with
                   | Some vs => vs
                   | None => ["19"]
                   end)).
Proof.
  intros Hlt Hn.
  destruct (normalize_spec h r Hlt) as [Hthrow Hok]. cbv zeta in Hthrow.
  rewrite Hn, gt_Int, lt_Int in Hthrow.
  assert (Hiff : normalize h r = Throw BadBoardSize ↔ n < 1 ∨ 19 < n).
  { rewrite Hthrow, orb_true_iff. rewrite Z.gtb_lt, Z.ltb_lt. tauto. }
  split; [exact Hiff|].
  intros Hin.
  destruct (normalize h r) as [[h' r']|e] eqn:E.
  - destruct (Hok h' r' eq_refl) as (-> & F & G & C & S).
    exists h'. repeat split; try assumption.
    rewrite S. now destruct (PMap.get (props_of h r) "SZ").
  - exfalso. apply normalize_throws_only in E as E'. subst e.
    pose proof (proj1 Hiff eq_refl). lia.
Qed.

Lemma normalize_integer_size_witness :
  let h := [mkNode [("SZ", ["13"])] [] None] in
  ((0 < length h)%nat ∧ size_of (props_of h 0%nat) = Int 13 ∧ 1 ≤ 13 ≤ 19) ∧
  ∃ h', normalize h 0%nat = Ok (h', 0%nat) ∧
        PMap.get (props_of h' 0%nat) "FF" = Some ["4"] ∧
        PMap.get (props_of h' 0%nat) "GM" = Some ["1"] ∧
        PMap.get (props_of h' 0%nat) "CA" = Some ["UTF-8"] ∧
        PMap.get (props_of h' 0%nat) "SZ" = Some ["13"].
Proof.
  intros h.
  assert (Hlt : (0 < length h)%nat) by (simpl; lia).
  assert (Hs : size_of (props_of h 0%nat) = Int 13) by reflexivity.
  assert (Hin : 1 ≤ 13 ≤ 19) by lia.
  split; [auto|].
  exact (proj2 (normalize_integer_size h 0%nat 13 Hlt Hs) Hin).
Defined.

(** ** Further properties: the shape of what the parsers return *)

Section Linear.
Implicit Types (h : heap) (m : PMap.t).

Lemma linear_root_only : linear [mkNode [] [] None].
Proof.
  intros i nd H. apply list_lookup_singleton_Some in H as [-> <-].
  simpl. repeat split; [constructor|congruence].
Qed.

(** A change of the properties of the root keeps the line. *)
Lemma linear_alter_root h (f : PMap.t → PMap.t) :
  (∀ m, NoDup (keys m) → NoDup (keys (f m))) →
  linear h → linear (alter (with_properties f) root h).
Proof.
  intros Hf Hl i nd H. rewrite length_alter.
  rewrite list_lookup_alter in H. destruct (decide (root = i)) as [<-|Hne].
  - destruct (h !! root) as [nd0|] eqn:E; [|discriminate].
    injection H as <-. destruct (Hl _ _ E) as (C & P & N & M).
    simpl. repeat split; auto. intros Hr. now contradiction Hr.
  - now apply Hl.
Qed.

Lemma linear_setValue_root h k v : linear h → linear (setValue h root k v).
Proof. apply linear_alter_root. intros m. apply NoDup_keys_set. Qed.

Lemma linear_addValue_root h k v : linear h → linear (addValue h root k v).
Proof. apply linear_alter_root. intros m. apply NoDup_keys_add_value. Qed.

Lemma linear_safeCommit_root h k v : linear h → linear (safeCommit h root k v).
Proof.
  unfold safeCommit. destruct (Str.truthy _); apply linear_alter_root; intros m.
  - apply NoDup_keys_set.
  - apply NoDup_keys_delete.
Qed.

(** [new Node(node)] at the tip and [setValue] of a move on the new node
    make the line one node longer. *)
Lemma linear_new_move h node k v :
  at_tip h node → (k = "B" ∨ k = "W") → String.length v = 2%nat →
  at_tip (setValue (fst (new_Node h (Some node))) (snd (new_Node h (Some node))) k v)
         (snd (new_Node h (Some node))).
Proof.
  intros (Hpos & -> & Hl) Hk Hv. unfold new_Node. cbn [fst snd].
  set (n := length h). set (tip := (n - 1)%nat).
  set (h1 := h ++ [mkNode [] [] (Some tip)]).
  assert (L : length (setValue (alter (push_child n) tip h1) n k v) = S n).
  { rewrite length_setValue, length_alter. unfold h1. rewrite length_app. simpl. lia. }
  split; [lia|]. split; [lia|].
  intros i nd H. rewrite L.
  unfold setValue in H. rewrite list_lookup_alter in H.
  destruct (decide (n = i)) as [<-|Hni].
  - rewrite list_lookup_alter_ne in H by (unfold tip; lia).
    unfold h1 in H. rewrite list_lookup_middle in H by reflexivity.
    injection H as <-. simpl.
    replace (S n <? S n)%nat with false by (symmetry; apply Nat.ltb_ge; lia).
    repeat split.
    + unfold tip, n. destruct (length h); [lia|]. f_equal. lia.
    + repeat constructor. intros Hin. now apply elem_of_nil in Hin.
    + intros _. exists k, v. auto.
  - rewrite list_lookup_alter in H. destruct (decide (tip = i)) as [<-|Hti].
    + unfold h1 in H. rewrite lookup_app_l in H by (unfold tip; lia).
      destruct (h !! tip) as [nd0|] eqn:E; [|discriminate].
      injection H as <-. destruct (Hl _ _ E) as (C & P & N & M).
      simpl. rewrite C.
      replace (S tip <? length h)%nat with false
        by (symmetry; apply Nat.ltb_ge; unfold tip, n; lia).
      replace (S tip <? S n)%nat with true
        by (symmetry; apply Nat.ltb_lt; unfold tip; lia).
      repeat split; auto. simpl. f_equal. unfold tip. lia.
    + unfold h1 in H. apply lookup_snoc_Some in H as [[Hi H]|[Hi _]]; [|lia].
      destruct (Hl _ _ H) as (C & P & N & M).
      rewrite C. fold n in Hi.
      replace (S i <? length h)%nat with true
        by (symmetry; apply Nat.ltb_lt; unfold tip in Hti; fold n; lia).
      replace (S i <? S n)%nat with true by (symmetry; apply Nat.ltb_lt; lia).
      auto.
Qed.
End Linear.

Lemma stringFromPoint_length (x y : number) (v : string) :
  stringFromPoint x y = Ok v → String.length v = 2%nat.
Proof.
  unfold stringFromPoint. destruct (_ || _); [discriminate|].
  intros E. injection E as <-. reflexivity.
Qed.

(** Case analysis along the code of a step that only writes to the root. *)
Ltac linear_root_steps :=
  repeat first
    [ assumption
    | apply linear_setValue_root
    | apply linear_safeCommit_root
    | apply linear_addValue_root
    | match goal with
      | |- linear (if ?c then _ else _) => destruct c
      | |- linear (match ?c with Some _ => _ | None => _ end) => destruct c
      | |- linear (let '(_, _) := ?c in _) => destruct c
      end ].

Lemma linear_gib_name (tag kn kr : string) (h : heap) (line : string) :
  linear h → linear (gib_name tag kn kr h line).
Proof. intros Hl. unfold gib_name. cbv zeta. linear_root_steps. Qed.

Lemma linear_gib_infomain (h : heap) (line : string) :
  linear h → linear (gib_infomain h line).
Proof. intros Hl. unfold gib_infomain. cbv zeta. linear_root_steps. Qed.

Lemma linear_gib_gametag (h : heap) (line : string) :
  linear h → linear (gib_gametag h line).
Proof. intros Hl. unfold gib_gametag. cbv zeta. linear_root_steps. Qed.

Lemma linear_gib_meta (h : heap) (line : string) :
  linear h → linear (gib_meta h line).
Proof.
  intros Hl. unfold gib_meta. cbv zeta.
  now apply linear_gib_gametag, linear_gib_infomain, linear_gib_name,
    linear_gib_name.
Qed.

Lemma linear_add_stones (stones : list point) : ∀ (h h' : heap),
  for_of (fun h (pt : point) =>
            v ← stringFromPoint (fst pt) (snd pt);
            Ok (addValue h root "AB" v)) h stones = Ok h' →
  linear h → linear h'.
Proof.
  induction stones as [|pt stones IH]; intros h h' E Hl; cbn [for_of] in E.
  - now injection E as <-.
  - destruct (stringFromPoint (fst pt) (snd pt)) as [v|]; simpl in E; [|discriminate].
    apply IH in E; [exact E|]. now apply linear_addValue_root.
Qed.

Lemma linear_gib_ini (h : heap) (node : handle) (line : string) (t : turn heap) :
  gib_ini h node line = Ok t → linear h →
  linear (match t with Next h' | Continue h' => h' end).
Proof.
  intros E Hl. unfold gib_ini in E.
  destruct (Str.eqb (Str.slice line 0 (Some 3)) "INI"); [|now injection E as <-].
  destruct (negb (node =? root)%nat) eqn:En; [discriminate|].
  apply negb_false_iff, Nat.eqb_eq in En. subst node.
  destruct (truthy_opt _); [|now injection E as <-].
  destruct (_ || _); [discriminate|].
  destruct (Num.ge _ _); [|now injection E as <-].
  match type of E with
  | mbind _ ?c = _ => destruct c as [h2|] eqn:E2; simpl in E; [|discriminate]
  end.
  injection E as <-. apply linear_add_stones in E2; [exact E2|].
  now apply linear_setValue_root.
Qed.

Lemma at_tip_gib_sto (h : heap) (node : handle) (line : string) :
  at_tip h node →
  at_tip (fst (gib_sto h node line)) (snd (gib_sto h node line)).
Proof.
  intros Ht. unfold gib_sto.
  destruct (Str.eqb _ "STO"); [|exact Ht].
  destruct (truthy_opt (at_ _ 4)); [|exact Ht].
  destruct (truthy_opt (at_ _ 5)); [|exact Ht].
  destruct (stringFromPoint _ _) as [value|] eqn:Ev; [|exact Ht].
  apply stringFromPoint_length in Ev.
  pose proof (linear_new_move h node
                (if decide (at_ (Str.split_ws (Str.trim line)) 3 = Some "1")
                 then "B" else "W") value Ht) as H.
  destruct (new_Node h (Some node)) as [h2 n2]. cbn [fst snd] in *.
  apply H; [|exact Ev]. destruct (decide _); auto.
Qed.

Lemma at_tip_gib_line (h h' : heap) (node node' : handle) (line : string) :
  at_tip h node → gib_line (h, node) line = Ok (h', node') → at_tip h' node'.
Proof.
  intros (Hpos & Hn & Hl) E. unfold gib_line in E.
  set (l := Str.trim line) in *.
  destruct (gib_meta_stored h l Hpos) as (Lm & _).
  pose proof (linear_gib_meta h l Hl) as Hm.
  destruct (gib_ini (gib_meta h l) node l) as [t|] eqn:Ei; simpl in E; [|discriminate].
  pose proof (linear_gib_ini _ _ _ _ Ei Hm) as Hi.
  apply gib_ini_stored in Ei as [Li _]; [|lia].
  destruct t as [h2|h2]; simpl in Li, Hi.
  - assert (Ht : at_tip h2 node) by (split; [lia|split; [lia|exact Hi]]).
    pose proof (at_tip_gib_sto h2 node l Ht) as Hs.
    injection E as E. now rewrite E in Hs.
  - injection E as <- <-. split; [lia|split; [lia|exact Hi]].
Qed.

Lemma at_tip_gib_loop (lines : list string) : ∀ (h h' : heap) (node node' : handle),
  at_tip h node → for_of gib_line (h, node) lines = Ok (h', node') → at_tip h' node'.
Proof.
  induction lines as [|line lines IH]; intros h h' node node' Ht E; cbn [for_of] in E.
  - now injection E as <- <-.
  - destruct (gib_line (h, node) line) as [[h1 n1]|] eqn:E1; simpl in E; [|discriminate].
    eapply IH; [|exact E]. eapply at_tip_gib_line; eassumption.
Qed.

(** [ngf_root] is its two steps, after the range check of the handicap. *)
Lemma ngf_root_steps (lines : list string) :
  ngf_root lines =
  if Num.lt (ngf_handicap lines) (Int 0) || Num.gt (ngf_handicap lines) (Int 9)
  then Throw ParserFail
  else h ← ngf_root_head lines; Ok (ngf_root_tail lines h).
Proof. reflexivity. Qed.

Lemma ngf_root_tail_length (lines : list string) (h : heap) :
  length (ngf_root_tail lines h) = length h.
Proof.
  unfold ngf_root_tail. cbv zeta.
  repeat match goal with
         | |- context [if ?c then _ else _] => destruct c
         end; now rewrite ?length_setValue, ?length_safeCommit, ?length_setValue.
Qed.

Lemma ngf_root_head_tip (lines : list string) (h : heap) :
  ngf_root_head lines = Ok h → length h = 1%nat ∧ linear h.
Proof.
  unfold ngf_root_head. cbv zeta.
  set (h0 := setValue [mkNode [] [] None] root "SZ" _).
  assert (H0 : linear h0) by apply linear_setValue_root, linear_root_only.
  destruct (Num.ge _ _); [|intros E; injection E as <-; now split].
  intros E. pose proof (add_stones_stored _ _ _ _ E) as [L _].
  apply linear_add_stones in E; [|now apply linear_setValue_root].
  split; [|exact E]. now rewrite L, length_setValue.
Qed.

Lemma at_tip_ngf_root (lines : list string) (h : heap) :
  ngf_root lines = Ok h → at_tip h root.
Proof.
  rewrite ngf_root_steps. destruct (_ || _); [discriminate|].
  destruct (ngf_root_head lines) as [h1|] eqn:E1; simpl; [|discriminate].
  intros E. injection E as <-. apply ngf_root_head_tip in E1 as [L Hl].
  split; [rewrite ngf_root_tail_length; lia|].
  split; [rewrite ngf_root_tail_length; unfold root; lia|].
  unfold ngf_root_tail. cbv zeta. linear_root_steps.
Qed.

Lemma at_tip_ngf_line (h h' : heap) (node node' : handle) (line : string) :
  at_tip h node → ngf_line (h, node) line = Ok (h', node') → at_tip h' node'.
Proof.
  intros Ht E. unfold ngf_line in E.
  set (l := Str.toUpperCase (Str.trim line)) in *.
  destruct (7 <=? Str.len l); [|now injection E as <- <-].
  destruct (Str.eqb _ "PM"); [|now injection E as <- <-].
  destruct (existsb _ _) eqn:Ek; [|now injection E as <- <-].
  destruct (stringFromPoint _ _) as [value|] eqn:Ev; [|now injection E as <- <-].
  apply stringFromPoint_length in Ev.
  assert (Hk : Str.charAt l 4 = "B" ∨ Str.charAt l 4 = "W").
  { simpl in Ek. rewrite orb_false_r in Ek. apply orb_true_iff in Ek.
    destruct Ek as [Ek|Ek]; apply str_eqb_eq in Ek; auto. }
  pose proof (linear_new_move h node (Str.charAt l 4) value Ht Hk Ev) as H.
  destruct (new_Node h (Some node)) as [h2 n2]. cbn [fst snd] in *.
  now injection E as <- <-.
Qed.

Lemma at_tip_ngf_loop (lines : list string) : ∀ (h h' : heap) (node node' : handle),
  at_tip h node → for_of ngf_line (h, node) lines = Ok (h', node') → at_tip h' node'.
Proof.
  induction lines as [|line lines IH]; intros h h' node node' Ht E; cbn [for_of] in E.
  - now injection E as <- <-.
  - destruct (ngf_line (h, node) line) as [[h1 n1]|] eqn:E1; simpl in E; [|discriminate].
    eapply IH; [|exact E]. eapply at_tip_ngf_line; eassumption.
Qed.

Lemma at_tip_parseGib_loop (gib : string) (h : heap) (node : handle) :
  parseGib_loop gib = Ok (h, node) → at_tip h node.
Proof.
  unfold parseGib_loop. simpl new_Node. cbv iota beta.
  apply at_tip_gib_loop. split; [simpl; lia|]. split; [reflexivity|].
  apply linear_root_only.
Qed.

Lemma at_tip_parseNgf_loop (ngf : string) (h : heap) (node : handle) :
  parseNgf_loop ngf = Ok (h, node) → at_tip h node.
Proof.
  unfold parseNgf_loop. cbv zeta.
  destruct (ngf_root _) as [h0|] eqn:E0; simpl; [|discriminate].
  apply at_tip_ngf_loop. now apply at_tip_ngf_root in E0.
Qed.

(** What a parser returns, from what its loop leaves. *)
Lemma parser_returns (text : string) (h : heap) (r : handle) :
  parseGib text = Ok (h, r) ∨ parseNgf text = Ok (h, r) →
  r = root ∧ children_of h root ≠ [] ∧ ∃ node, at_tip h node.
Proof.
  intros [E|E]; [unfold parseGib in E|unfold parseNgf in E];
    match type of E with
    | mbind _ ?c = _ => destruct c as [[h' n']|] eqn:El; simpl in E; [|discriminate]
    end;
    destruct (children_of h' root) eqn:Hc; simpl in E; try discriminate;
    injection E as <- <-; (split; [reflexivity|]); (split; [now rewrite Hc|]);
    exists n'; [now apply at_tip_parseGib_loop in El|now apply at_tip_parseNgf_loop in El].
Qed.

Lemma parsers_returns_tip (text : string) (h : heap) :
  parseGib text = Ok (h, root) ∨ parseNgf text = Ok (h, root) →
  (2 ≤ length h)%nat ∧ linear h.
Proof.
  intros E. apply parser_returns in E as (_ & Hc & node & Hpos & _ & Hl).
  split; [|exact Hl].
  unfold children_of in Hc. destruct (h !! root) as [nd|] eqn:E;
    [|now contradiction Hc].
  destruct (Hl _ _ E) as (C & _). rewrite C in Hc.
  destruct (S root <? length h)%nat eqn:B; [|now contradiction Hc].
  apply Nat.ltb_lt in B. unfold root in B. lia.
Qed.

(** X8.  The store [parseGib] or [parseNgf] returns is one line of nodes
    from the root on: every node has at most one child, the next node; the
    root is followed by at least one node; every node after the root holds
    exactly one key, [B] or [W], with exactly one value of two characters;
    and no node holds a key twice. *)
Theorem parsers_build_a_line (text : string) (h : heap) (r : handle) :
  parseGib text = Ok (h, r) ∨ parseNgf text = Ok (h, r) →
  r = root ∧ (2 ≤ length h)%nat ∧ linear h.
Proof.
  intros E. assert (r = root) as -> by apply (parser_returns text h r E).
  split; [reflexivity|]. now apply (parsers_returns_tip text).
Qed.

Lemma parsers_build_a_line_witness :
  (parseGib gib_fields_example = Ok (gib_fields_example_heap, root) ∨
   parseNgf gib_fields_example = Ok (gib_fields_example_heap, root)) ∧
  (2 ≤ length gib_fields_example_heap)%nat ∧ linear gib_fields_example_heap.
Proof.
  assert (E : parseGib gib_fields_example = Ok (gib_fields_example_heap, root)
              ∨ parseNgf gib_fields_example = Ok (gib_fields_example_heap, root))
    by (left; vm_compute; reflexivity).
  split; [exact E|].
  exact (proj2 (parsers_build_a_line gib_fields_example gib_fields_example_heap root E)).
Defined.

(** ** Further properties: from the text in to the text out *)


Lemma parseUgf_never_returns (ugf : string) : parseUgf ugf = Throw ParserFail.
Proof.
  assert (E : parseUgf_loop ugf
              = Ok (mkUgf [mkNode [] [] None] root None None (Int 0) "" None)).
  { unfold parseUgf_loop. simpl new_Node. cbv iota beta.
    now apply ugf_loop_inert. }
  unfold parseUgf. rewrite E. reflexivity.
Qed.





(** ** Further properties: what the parsers throw, and what they never do *)

(** [parseInt] gives NaN, an infinity or an integer. *)
Lemma parseInt_cases (s : string) :
  Num.parseInt s = NaN ∨ Num.parseInt s = Infinity ∨
  Num.parseInt s = NegInfinity ∨ ∃ z, Num.parseInt s = Int z.
Proof.
  assert (L : ∀ m, Num.of_literal m 0 = Infinity ∨ Num.of_literal m 0 = NegInfinity ∨
                   ∃ z, Num.of_literal m 0 = Int z).
  { intros m. unfold Num.of_literal. cbv zeta.
    destruct (m =? 0); [right; right; now eexists|].
    change (0 <=? 0) with true. cbv iota.
    destruct (_ <=? _); [destruct (m <? 0); auto|].
    right; right. now eexists. }
  unfold Num.parseInt.
  destruct (Num.read_sign _) as [sign r].
  destruct (_ || _); cbv beta iota;
    destruct (Str.span _ _) as [ds rest];
    (destruct (Str.is_empty ds); [now left|]);
    right; apply L.
Qed.

(** The handicap that passes the range check of [parseGib] and asks for
    stones is an integer from 2 to 9. *)
Lemma handicap_in_range (s : string) :
  Num.lt (Num.parseInt s) (Int 0) || Num.gt (Num.parseInt s) (Int 9) = false →
  Num.ge (Num.parseInt s) (Int 2) = true →
  ∃ z, Num.parseInt s = Int z ∧ 2 ≤ z ≤ 9.
Proof.
  destruct (parseInt_cases s) as [-> | [-> | [-> | [z ->]]]]; try discriminate.
  rewrite lt_Int, gt_Int, ge_Int. intros H1 H2. exists z. split; [reflexivity|lia].
Qed.

Lemma stones_of_19_encodable :
  forallb (fun z =>
    forallb (fun pt : point => is_Ok (stringFromPoint (fst pt) (snd pt)))
            (handicapPoints (Int 19) (Int z) true)) (zrange 2 8) = true.
Proof. vm_compute. reflexivity. Qed.

Lemma add_stones_ok (node : handle) (stones : list point) : ∀ (h : heap),
  forallb (fun pt : point => is_Ok (stringFromPoint (fst pt) (snd pt))) stones = true →
  ∃ h', for_of (fun h (pt : point) =>
                  v ← stringFromPoint (fst pt) (snd pt);
                  Ok (addValue h node "AB" v)) h stones = Ok h'.
Proof.
  induction stones as [|pt stones IH]; intros h H; cbn [for_of forallb] in *.
  - now eexists.
  - apply andb_prop in H as [Hpt Hrest].
    destruct (stringFromPoint (fst pt) (snd pt)) as [v|]; [|discriminate].
    simpl. now apply IH.
Qed.

Lemma gib_ini_throws_only (h : heap) (node : handle) (line : string) (e : error) :
  gib_ini h node line = Throw e → e = ParserFail.
Proof.
  unfold gib_ini.
  destruct (Str.eqb _ "INI"); [|discriminate].
  destruct (negb _); [intros E; now injection E|].
  destruct (truthy_opt _); [|discriminate].
  unfold parseInt_opt.
  destruct (_ || _) eqn:Hr; [intros E; now injection E|].
  destruct (Num.ge _ _) eqn:Hg; [|discriminate].
  destruct (handicap_in_range _ Hr Hg) as (z & -> & Hz).
  pose proof (forallb_zrange _ _ _ stones_of_19_encodable z) as Hs.
  simpl Z.of_nat in Hs. specialize (Hs ltac:(lia)).
  destruct (add_stones_ok node _ (setValue h node "HA" (Num.toString (Int z))) Hs)
    as [h' ->].
  discriminate.
Qed.

Lemma gib_line_throws_only (st : heap * handle) (line : string) (e : error) :
  gib_line st line = Throw e → e = ParserFail.
Proof.
  destruct st as [h node]. unfold gib_line.
  destruct (gib_ini _ _ _) as [t|e'] eqn:E; simpl.
  - destruct t; discriminate.
  - intros H. injection H as <-. now apply gib_ini_throws_only in E.
Qed.

Lemma for_of_throws_only {S X} (body : S → X → result S) (P : error → Prop) :
  (∀ s x e, body s x = Throw e → P e) →
  ∀ xs s e, for_of body s xs = Throw e → P e.
Proof.
  intros Hb. induction xs as [|x xs IH]; intros s e E; cbn [for_of] in E;
    [discriminate|].
  destruct (body s x) as [s'|e'] eqn:Eb; simpl in E.
  - now apply IH in E.
  - injection E as <-. now apply Hb in Eb.
Qed.

Lemma parseGib_throws_only (gib : string) (e : error) :
  parseGib gib = Throw e → e = ParserFail.
Proof.
  unfold parseGib. destruct (parseGib_loop gib) as [[h n]|e'] eqn:E; simpl.
  - destruct (_ =? _)%nat; [intros H; now injection H|discriminate].
  - intros H. injection H as <-. unfold parseGib_loop in E.
    simpl new_Node in E. cbv iota beta in E.
    exact (for_of_throws_only gib_line (fun e => e = ParserFail)
             gib_line_throws_only _ _ _ E).
Qed.

Lemma parseInt_opt_cases (o : option string) :
  parseInt_opt o = NaN ∨ parseInt_opt o = Infinity ∨
  parseInt_opt o = NegInfinity ∨ ∃ z, parseInt_opt o = Int z.
Proof. apply parseInt_cases. Qed.

Lemma none_is_elem (k : string) (ks : list string) :
  none_is k ks = false → k ∈ ks.
Proof.
  induction ks as [|w ks IH]; simpl; [discriminate|].
  destruct (Str.eqb w k) eqn:E; simpl.
  - intros _. apply str_eqb_eq in E as ->. apply elem_of_cons. now left.
  - intros H. apply elem_of_cons. right. now apply IH.
Qed.

Lemma keys_stored (h : heap) (k : string) :
  k ∈ keys (props_of h root) → stored h k ≠ None.
Proof.
  intros H. apply has_keys in H. rewrite has_get in H. unfold stored.
  now destruct (PMap.get _ _).
Qed.

(** *** [parseNgf]: what the root can hold *)

Lemma ngf_handicap_cases (lines : list string) :
  ngf_handicap lines = Int 0 ∨ ngf_handicap lines = NaN ∨
  ngf_handicap lines = Infinity ∨ ngf_handicap lines = NegInfinity.
Proof.
  unfold ngf_handicap. cbv zeta.
  destruct (parseInt_opt_cases (at_ lines 5)) as [-> | [-> | [-> | [z ->]]]];
    simpl; auto.
Qed.

Lemma ngf_boardsize_cases (lines : list string) :
  ngf_boardsize lines = Int 19 ∨ ngf_boardsize lines = NaN ∨
  ngf_boardsize lines = Infinity ∨ ngf_boardsize lines = NegInfinity.
Proof.
  unfold ngf_boardsize. cbv zeta.
  destruct (parseInt_opt_cases (at_ lines 1)) as [-> | [-> | [-> | [z ->]]]];
    simpl; auto.
Qed.

Lemma ngf_komi_cases (lines : list string) :
  ngf_komi lines = Dec 5 1 ∨ ngf_komi lines = Int 0 ∨ ngf_komi lines = NaN ∨
  ngf_komi lines = Infinity ∨ ngf_komi lines = NegInfinity.
Proof.
  unfold ngf_komi. cbv zeta.
  destruct (parseFloat_opt (at_ lines 7)) as [| | |z|m e];
    destruct (ngf_handicap_cases lines) as [-> | [-> | [-> | ->]]];
    vm_compute; auto 6.
Qed.

Lemma ngf_root_head_ok (lines : list string) :
  Num.lt (ngf_handicap lines) (Int 0) || Num.gt (ngf_handicap lines) (Int 9) = false →
  ngf_root_head lines =
  Ok (setValue [mkNode [] [] None] root "SZ" (Num.toString (ngf_boardsize lines))).
Proof.
  intros G. unfold ngf_root_head. cbv zeta.
  destruct (ngf_handicap_cases lines) as [E | [E | [E | E]]]; rewrite E in *;
    try discriminate G;
    (destruct (Num.ge _ _) eqn:G2; [discriminate G2|reflexivity]).
Qed.

Lemma ngf_root_tail_stored (lines : list string) (h : heap) (k : string) :
  (0 < length h)%nat →
  none_is k ["DT"; "PW"; "PB"; "RE"] = true →
  stored (ngf_root_tail lines h) k =
  if Num.truthy (ngf_komi lines) && Str.eqb "KM" k
  then Some [Num.toString (ngf_komi lines)] else stored h k.
Proof.
  intros Hroot Hk. unfold none_is in Hk. cbn [forallb] in Hk.
  repeat (apply andb_prop in Hk as [?%negb_true_iff Hk]).
  unfold stored, ngf_root_tail. cbv zeta.
  destruct (Num.truthy (ngf_komi lines)), (Str.eqb "KM" k) eqn:K; cbn [andb];
  repeat match goal with
         | |- context [if ?c then _ else _] => innermost c; destruct c eqn:?
         end;
    repeat first
      [ rewrite get_setValue
          by (repeat rewrite ?length_setValue, ?length_safeCommit; assumption)
      | rewrite get_safeCommit_truthy
          by (repeat rewrite ?length_setValue, ?length_safeCommit; assumption)
      | match goal with
        | H : Str.eqb ?a ?b = _ |- context [Str.eqb ?a ?b] => rewrite H
        end ];
    cbn [andb]; try reflexivity; try congruence.
Qed.

(** A line of the loop never throws and never touches the root. *)
Lemma ngf_line_root (h : heap) (node : handle) (line : string) :
  (0 < length h)%nat →
  ∃ h' node', ngf_line (h, node) line = Ok (h', node') ∧
              (0 < length h')%nat ∧ props_of h' root = props_of h root.
Proof.
  intros Hroot. unfold ngf_line.
  destruct (7 <=? _); [|now eauto].
  destruct (Str.eqb _ "PM"); [|now eauto].
  destruct (existsb _ _); [|now eauto].
  destruct (stringFromPoint _ _) as [value|]; [|now eauto].
  pose proof (length_new_Node h (Some node)) as L.
  pose proof (props_of_new_Node h (Some node) root Hroot) as P.
  destruct (new_Node h (Some node)) as [h2 n2] eqn:En.
  assert (n2 = length h) by (now apply (f_equal snd) in En).
  simpl in *. do 2 eexists. split; [reflexivity|].
  rewrite length_setValue. split; [lia|].
  unfold setValue. rewrite props_of_alter_ne by (unfold root; lia). exact P.
Qed.

Lemma ngf_loop_root (lines : list string) : ∀ (h : heap) (node : handle),
  (0 < length h)%nat →
  ∃ h' node', for_of ngf_line (h, node) lines = Ok (h', node') ∧
              props_of h' root = props_of h root.
Proof.
  induction lines as [|line lines IH]; intros h node Hroot; cbn [for_of].
  - now eauto.
  - destruct (ngf_line_root h node line Hroot) as (h1 & n1 & -> & L1 & P1).
    simpl. destruct (IH h1 n1 L1) as (h' & node' & -> & P).
    do 2 eexists. split; [reflexivity|]. now rewrite P.
Qed.

Lemma parseNgf_loop_throws_only (ngf : string) (e : error) :
  parseNgf_loop ngf = Throw e → e = ParserFail.
Proof.
  unfold parseNgf_loop. cbv zeta. rewrite ngf_root_steps.
  destruct (_ || _) eqn:G; [intros E; now injection E|].
  rewrite (ngf_root_head_ok _ G). cbn [mbind result_bind].
  match goal with
  | |- for_of _ (?h0, _) ?ls = _ → _ =>
      destruct (ngf_loop_root ls h0 root) as (h' & n' & -> & _);
        [rewrite ngf_root_tail_length, length_setValue; simpl; lia|discriminate]
  end.
Qed.

Lemma parseNgf_throws_only (ngf : string) (e : error) :
  parseNgf ngf = Throw e → e = ParserFail.
Proof.
  unfold parseNgf. destruct (parseNgf_loop ngf) as [[h n]|e'] eqn:E; simpl.
  - destruct (_ =? _)%nat; [intros H; now injection H|discriminate].
  - intros H. injection H as <-. now apply parseNgf_loop_throws_only in E.
Qed.

(** The root [parseNgf] returns holds what [ngf_root] left on it. *)
Lemma parseNgf_root_props (ngf : string) (h : heap) (r : handle) :
  parseNgf ngf = Ok (h, r) →
  props_of h root =
  props_of (ngf_root_tail (Str.split "010" (Str.trim ngf))
              (setValue [mkNode [] [] None] root "SZ"
                 (Num.toString (ngf_boardsize (Str.split "010" (Str.trim ngf))))))
           root.
Proof.
  intros H. unfold parseNgf in H.
  destruct (parseNgf_loop ngf) as [[h1 n1]|] eqn:E; cbn [mbind result_bind] in H;
    [|discriminate].
  destruct (_ =? _)%nat in H; [discriminate|]. injection H as <- <-.
  unfold parseNgf_loop in E. cbv zeta in E.
  rewrite ngf_root_steps in E.
  destruct (_ || _) eqn:G; [discriminate|].
  rewrite (ngf_root_head_ok _ G) in E. cbn [mbind result_bind] in E.
  match type of E with
  | for_of _ (?h0, _) ?ls = _ =>
      destruct (ngf_loop_root ls h0 root) as (h' & n' & E' & P);
        [rewrite ngf_root_tail_length, length_setValue; simpl; lia|]
  end.
  rewrite E' in E. injection E as <- <-. exact P.
Qed.

(** The root [parseNgf] returns, field by field. *)
Lemma parseNgf_root (ngf : string) (h : heap) (r : handle) :
  parseNgf ngf = Ok (h, r) →
  let lines := Str.split "010" (Str.trim ngf) in
  ∀ k, none_is k ["DT"; "PW"; "PB"; "RE"] = true →
    stored h k =
    if Num.truthy (ngf_komi lines) && Str.eqb "KM" k
    then Some [Num.toString (ngf_komi lines)]
    else if Str.eqb "SZ" k then Some [Num.toString (ngf_boardsize lines)]
    else None.
Proof.
  intros H lines k Hk. subst lines.
  unfold stored at 1. rewrite (parseNgf_root_props ngf h r H).
  fold (stored (ngf_root_tail
    (Str.split "010" (Str.trim ngf))
    (setValue [mkNode [] [] None] root "SZ"
       (Num.toString (ngf_boardsize (Str.split "010" (Str.trim ngf)))))) k).
  rewrite ngf_root_tail_stored by (rewrite ?length_setValue; simpl; lia || assumption).
  destruct (_ && _); [reflexivity|].
  unfold stored. rewrite get_setValue by (simpl; unfold root; lia).
  destruct (Str.eqb "SZ" k); reflexivity.
Qed.

Lemma ngf_re_cases (lines : list string) :
  ngf_re lines = "" ∨ ngf_re lines = "W+" ∨ ngf_re lines = "B+".
Proof.
  unfold ngf_re. cbv zeta. destruct (at_ lines 10) as [l|]; [|now left].
  destruct (Str.truthy l); [|now left].
  destruct (Str.includes l "hite win"); [now right; left|].
  destruct (Str.includes l "lack win"); [now right; right|now left].
Qed.

Lemma ngf_root_tail_re (lines : list string) (h : heap) :
  (0 < length h)%nat →
  stored (ngf_root_tail lines h) "RE" =
  if Str.truthy (ngf_re lines) then Some [ngf_re lines] else stored h "RE".
Proof.
  intros Hroot. unfold stored, ngf_root_tail. cbv zeta.
  destruct (Str.truthy (ngf_re lines));
  repeat match goal with
         | |- context [if ?c then _ else _] => innermost c; destruct c eqn:?
         end;
    repeat first
      [ rewrite get_setValue
          by (repeat rewrite ?length_setValue, ?length_safeCommit; assumption)
      | rewrite get_safeCommit_truthy
          by (repeat rewrite ?length_setValue, ?length_safeCommit; assumption)
      | eqb_concrete
      | progress cbv iota ];
    reflexivity.
Qed.

Lemma parseNgf_root_re (ngf : string) (h : heap) (r : handle) :
  parseNgf ngf = Ok (h, r) →
  stored h "RE" = None ∨ stored h "RE" = Some ["W+"] ∨ stored h "RE" = Some ["B+"].
Proof.
  intros H. unfold stored at 1 2 3. rewrite (parseNgf_root_props ngf h r H).
  set (lines := Str.split "010" (Str.trim ngf)).
  set (h0 := setValue [mkNode [] [] None] root "SZ" _).
  assert (L0 : (0 < length h0)%nat) by (unfold h0; rewrite length_setValue; simpl; lia).
  fold (stored (ngf_root_tail lines h0) "RE").
  rewrite (ngf_root_tail_re lines h0 L0).
  assert (S0 : stored h0 "RE" = None).
  { unfold stored, h0. rewrite get_setValue by (simpl; unfold root; lia).
    reflexivity. }
  rewrite S0.
  destruct (ngf_re_cases lines) as [-> | [-> | ->]];
    [left|right; left|right; right]; reflexivity.
Qed.

(** X10.  Whatever the text says, the root [parseNgf] returns holds no key
    but [SZ], [KM], [DT], [PW], [PB] and [RE], so never a handicap or a
    handicap stone; its board size is 19 or the text of a non-number; and
    its komi, if it has one, is 0.5 or the text of an infinity; and its
    result, if it has one, is [W+] or [B+]. *)
Theorem parseNgf_root_fields (ngf : string) (h : heap) (r : handle) :
  parseNgf ngf = Ok (h, r) →
  (∀ k, k ∈ keys (props_of h root) → k ∈ ngf_root_keys) ∧
  stored h "HA" = None ∧ stored h "AB" = None ∧
  stored h "SZ" ∈ [Some ["19"]; Some ["NaN"]; Some ["Infinity"]; Some ["-Infinity"]] ∧
  stored h "KM" ∈ [None; Some ["0.5"]; Some ["Infinity"]; Some ["-Infinity"]] ∧
  stored h "RE" ∈ [None; Some ["W+"]; Some ["B+"]].
Proof.
  intros E. pose proof (parseNgf_root ngf h r E) as F. cbv zeta in F.
  set (lines := Str.split "010" (Str.trim ngf)) in F.
  assert (Hother : ∀ k, none_is k ngf_root_keys = true → stored h k = None).
  { intros k N. unfold none_is, ngf_root_keys in N. cbn [forallb] in N.
    apply andb_prop in N as [Hsz%negb_true_iff N].
    apply andb_prop in N as [Hkm%negb_true_iff N].
    rewrite F by exact N. now rewrite Hsz, Hkm, andb_false_r. }
  split; [|split; [|split; [|split; [|split]]]].
  - intros k Hin. apply none_is_elem.
    destruct (none_is k ngf_root_keys) eqn:N; [|reflexivity].
    now apply keys_stored in Hin; rewrite Hother in Hin.
  - now apply Hother.
  - now apply Hother.
  - rewrite F by reflexivity.
    change (Str.eqb "KM" "SZ") with false. rewrite andb_false_r.
    change (Str.eqb "SZ" "SZ") with true. cbv iota.
    destruct (ngf_boardsize_cases lines) as [-> | [-> | [-> | ->]]];
      change (Num.toString (Int 19)) with "19";
      change (Num.toString NaN) with "NaN";
      change (Num.toString Infinity) with "Infinity";
      change (Num.toString NegInfinity) with "-Infinity";
      rewrite ?elem_of_cons; auto 8.
  - rewrite F by reflexivity.
    change (Str.eqb "KM" "KM") with true. rewrite andb_true_r.
    change (Str.eqb "SZ" "KM") with false. cbv iota.
    destruct (ngf_komi_cases lines) as [-> | [-> | [-> | [-> | ->]]]];
      change (Num.truthy (Dec 5 1)) with true;
      change (Num.truthy (Int 0)) with false;
      change (Num.truthy NaN) with false;
      change (Num.truthy Infinity) with true;
      change (Num.truthy NegInfinity) with true; cbv iota;
      change (Num.toString (Dec 5 1)) with "0.5";
      change (Num.toString Infinity) with "Infinity";
      change (Num.toString NegInfinity) with "-Infinity";
      rewrite ?elem_of_cons; auto 8.
  - destruct (parseNgf_root_re ngf h r E) as [-> | [-> | ->]];
      rewrite ?elem_of_cons; auto 8.
Qed.

Lemma parseNgf_root_fields_witness :
  parseNgf (ngf_text "19" "0" "6") = Ok (ngf_example_heap, root) ∧
  (∀ k, k ∈ keys (props_of ngf_example_heap root) → k ∈ ngf_root_keys) ∧
  stored ngf_example_heap "HA" = None ∧ stored ngf_example_heap "AB" = None ∧
  stored ngf_example_heap "SZ"
    ∈ [Some ["19"]; Some ["NaN"]; Some ["Infinity"]; Some ["-Infinity"]] ∧
  stored ngf_example_heap "KM"
    ∈ [None; Some ["0.5"]; Some ["Infinity"]; Some ["-Infinity"]] ∧
  stored ngf_example_heap "RE" ∈ [None; Some ["W+"]; Some ["B+"]].
Proof.
  assert (E : parseNgf (ngf_text "19" "0" "6") = Ok (ngf_example_heap, root))
    by (vm_compute; reflexivity).
  split; [exact E|].
  exact (parseNgf_root_fields _ _ _ E).
Defined.

(** *** [parseGib]: what the root can hold *)

Lemma gib_meta_other (h : heap) (line k : string) :
  (0 < length h)%nat →
  none_is k ["PB"; "BR"; "PW"; "WR"; "RE"; "KM"; "DT"] = true →
  stored (gib_meta h line) k = stored h k.
Proof.
  intros Hroot N. unfold none_is in N. cbn [forallb] in N.
  repeat (apply andb_prop in N as [?%negb_true_iff N]).
  unfold gib_meta.
  set (h1 := gib_name "\[GAMEBLACKNAME=" "PB" "BR" h line).
  set (h2 := gib_name "\[GAMEWHITENAME=" "PW" "WR" h1 line).
  set (h3 := gib_infomain h2 line).
  assert (L1 : length h1 = length h) by apply gib_name_length.
  assert (L2 : length h2 = length h) by (unfold h2; now rewrite gib_name_length).
  assert (L3 : length h3 = length h) by (unfold h3; now rewrite gib_infomain_length).
  assert (K : ∀ a, Str.eqb a k = false → ∀ A (x y : A),
                 (if Str.eqb a k then x else y) = y)
    by (now intros a ->).
  rewrite gib_gametag_stored, !K by (assumption || lia).
  unfold h3. rewrite gib_infomain_stored, !K by (assumption || lia).
  unfold h2. rewrite gib_name_stored by lia.
  unfold h1. rewrite gib_name_stored by lia.
  repeat match goal with
         | H : Str.eqb ?a k = false |- _ => rewrite H; clear H
         end.
  cbn [andb].
  destruct (name_offer "\[GAMEBLACKNAME=" line) as [[bn br]|];
    destruct (name_offer "\[GAMEWHITENAME=" line) as [[wn wr]|]; reflexivity.
Qed.

Lemma gib_line_other (h h' : heap) (node node' : handle) (line k : string) :
  (0 < length h)%nat →
  gib_line (h, node) line = Ok (h', node') →
  none_is k gib_root_keys = true →
  (0 < length h')%nat ∧ stored h' k = stored h k.
Proof.
  intros Hroot E N. unfold gib_line in E.
  set (l := Str.trim line) in E.
  destruct (gib_meta_stored h l Hroot) as (Lm & _).
  assert (N7 : none_is k ["PB"; "BR"; "PW"; "WR"; "RE"; "KM"; "DT"] = true ∧
               Str.eqb "HA" k = false ∧ Str.eqb "AB" k = false).
  { unfold none_is, gib_root_keys in *. cbn [forallb] in *.
    repeat (apply andb_prop in N as [? N]).
    split; [|split; now apply negb_true_iff].
    repeat (apply andb_true_intro; split; try assumption). }
  destruct N7 as (N7 & Hha & Hab).
  rewrite <- (gib_meta_other h l k Hroot N7).
  destruct (gib_ini (gib_meta h l) node l) as [t|] eqn:Ei;
    cbn [mbind result_bind] in E; [|discriminate].
  apply gib_ini_stored in Ei as [Li Pi]; [|lia].
  destruct t as [h2|h2]; cbn beta iota in Li, Pi.
  - destruct (gib_sto_props h2 node l) as [Ls Ps]; [lia|].
    injection E as E. apply (f_equal fst) in E. cbn [fst] in E. subst h'.
    split; [exact Ls|]. unfold stored at 1. rewrite Ps. now apply Pi.
  - injection E as <- <-. split; [lia|now apply Pi].
Qed.

Lemma gib_loop_other (k : string) (lines : list string) :
  ∀ (h h' : heap) (node node' : handle),
  (0 < length h)%nat →
  for_of gib_line (h, node) lines = Ok (h', node') →
  none_is k gib_root_keys = true →
  stored h' k = stored h k.
Proof.
  induction lines as [|line lines IH]; intros h h' node node' Hroot E N;
    cbn [for_of] in E.
  - now injection E as <- <-.
  - destruct (gib_line (h, node) line) as [[h1 n1]|] eqn:E1;
      cbn [mbind result_bind] in E; [|discriminate].
    destruct (gib_line_other _ _ _ _ _ k Hroot E1 N) as [L1 P1].
    rewrite <- P1. eapply IH; eassumption.
Qed.

Lemma parseGib_root_other (gib : string) (h : heap) (r : handle) (k : string) :
  parseGib gib = Ok (h, r) → none_is k gib_root_keys = true → stored h k = None.
Proof.
  intros E N. unfold parseGib in E.
  destruct (parseGib_loop gib) as [[h1 n1]|] eqn:El;
    cbn [mbind result_bind] in E; [|discriminate].
  destruct (_ =? _)%nat in E; [discriminate|]. injection E as <- <-.
  unfold parseGib_loop in El. simpl new_Node in El. cbv iota beta in El.
  assert (L0 : (0 < length [mkNode [] [] None])%nat) by (simpl; lia).
  rewrite (gib_loop_other k _ _ _ _ _ L0 El N). reflexivity.
Qed.

(** [parse] on what [parseGib] returned. *)
Lemma parse_gib_returns (gib : string) (h : heap) (r : handle) :
  parseGib gib = Ok (h, r) →
  ∃ h', parse gib ".gib" = Ok (h', root) ∧
        stored h' "SZ" = Some ["19"] ∧
        ∀ k, none_is k ["FF"; "GM"; "CA"; "SZ"] = true → stored h' k = stored h k.
Proof.
  intros E.
  assert (r = root) as -> by (apply (parser_returns gib h r); now left).
  assert (Hlen : (root < length h)%nat).
  { destruct (parsers_returns_tip gib h (or_introl E)) as [L _]. unfold root. lia. }
  assert (Hsz : PMap.get (props_of h root) "SZ" = None)
    by (now apply (parseGib_root_other gib h root)).
  unfold parse, loaders. cbn [loader_of].
  change (Str.eqb ".gib" ".gib") with true. cbv iota.
  rewrite E. cbn [mbind result_bind].
  unfold normalize. cbv zeta.
  rewrite !get_setValue by (rewrite ?length_setValue; exact Hlen).
  change (Str.eqb "CA" "SZ") with false. change (Str.eqb "GM" "SZ") with false.
  change (Str.eqb "FF" "SZ") with false. cbv iota. rewrite Hsz.
  change (Num.gt (Int 19) (Int 19) || Num.lt (Int 19) (Int 1)) with false. cbv iota.
  eexists. split; [reflexivity|]. unfold stored. split.
  - now rewrite get_setValue by (rewrite ?length_setValue; exact Hlen).
  - intros k N. unfold none_is in N. cbn [forallb] in N.
    repeat (apply andb_prop in N as [?%negb_true_iff N]).
    rewrite !get_setValue by (rewrite ?length_setValue; exact Hlen).
    repeat match goal with
           | H : Str.eqb ?a k = false |- _ => rewrite H; clear H
           end.
    reflexivity.
Qed.

(** X11.  The root [parseGib] returns holds no key but the names and ranks,
    the result, the komi, the date, the handicap and its stones: never a
    board size.  So [parse] with the extension [.gib] returns whenever
    [parseGib] does, and the root then says [SZ] 19, whatever the game,
    with every other field as [parseGib] left it. *)
Theorem parseGib_root_keys (gib : string) (h : heap) (r : handle) :
  parseGib gib = Ok (h, r) →
  (∀ k, k ∈ keys (props_of h root) → k ∈ gib_root_keys) ∧
  ∃ h', parse gib ".gib" = Ok (h', root) ∧
        stored h' "SZ" = Some ["19"] ∧
        ∀ k, none_is k ["FF"; "GM"; "CA"; "SZ"] = true → stored h' k = stored h k.
Proof.
  intros E. split; [|now apply (parse_gib_returns gib h r)].
  intros k Hin. apply none_is_elem.
  destruct (none_is k gib_root_keys) eqn:N; [|reflexivity].
  apply keys_stored in Hin. now rewrite (parseGib_root_other gib h r k E N) in Hin.
Qed.

Lemma parseGib_root_keys_witness :
  parseGib gib_fields_example = Ok (gib_fields_example_heap, root) ∧
  (∀ k, k ∈ keys (props_of gib_fields_example_heap root) → k ∈ gib_root_keys) ∧
  ∃ h', parse gib_fields_example ".gib" = Ok (h', root) ∧
        stored h' "SZ" = Some ["19"] ∧
        ∀ k, none_is k ["FF"; "GM"; "CA"; "SZ"] = true →
             stored h' k = stored gib_fields_example_heap k.
Proof.
  assert (E : parseGib gib_fields_example = Ok (gib_fields_example_heap, root))
    by (vm_compute; reflexivity).
  split; [exact E|].
  exact (parseGib_root_keys _ _ _ E).
Defined.

(** *** What [parse] and [xyz2sgf] throw *)

(** The board size [parseNgf] leaves passes the check of [parse]. *)
Lemma parse_ngf_returns (ngf : string) (h : heap) (r : handle) :
  parseNgf ngf = Ok (h, r) → ∃ h', normalize h r = Ok (h', r).
Proof.
  intros E.
  assert (r = root) as -> by (apply (parser_returns ngf h r); now right).
  assert (Hlen : (root < length h)%nat).
  { destruct (parsers_returns_tip ngf h (or_intror E)) as [L _]. unfold root. lia. }
  pose proof (parseNgf_root ngf h root E "SZ" eq_refl) as F. cbv zeta in F.
  change (Str.eqb "KM" "SZ") with false in F. rewrite andb_false_r in F.
  change (Str.eqb "SZ" "SZ") with true in F. cbv iota in F.
  destruct (normalize h root) as [[h' r']|e] eqn:N.
  - apply (normalize_spec h root Hlen) in N as N'. destruct N' as [-> _]. now eexists.
  - exfalso. apply normalize_throws_only in N as N'. subst e.
    apply (normalize_spec h root Hlen) in N. cbv zeta in N.
    unfold size_of, stored in *. rewrite F in N.
    destruct (ngf_boardsize_cases (Str.split "010" (Str.trim ngf)))
      as [B | [B | [B | B]]]; rewrite B in N; vm_compute in N; discriminate.
Qed.

Lemma parse_throws_only (contents ext : string) (e : error) :
  parse contents ext = Throw e →
  (e = ParserFail ∧ ext ∈ [".gib"; ".ngf"; ".ugf"; ".ugi"]) ∨
  (e = TypeError ∧ ext ∉ [".gib"; ".ngf"; ".ugf"; ".ugi"]).
Proof.
  intros E. unfold parse, loaders in E. cbn [loader_of] in E.
  destruct (Str.eqb ".gib" ext) eqn:X1.
  { apply str_eqb_eq in X1 as <-. left. split; [|rewrite !elem_of_cons; auto].
    destruct (parseGib contents) as [[h r]|e'] eqn:P; cbn [mbind result_bind] in E.
    - destruct (parse_gib_returns contents h r P) as (h' & P' & _).
      unfold parse, loaders in P'. cbn [loader_of] in P'.
      change (Str.eqb ".gib" ".gib") with true in P'. cbv iota in P'.
      rewrite P in P'. cbn [mbind result_bind] in P'. congruence.
    - injection E as <-. now apply parseGib_throws_only in P. }
  destruct (Str.eqb ".ngf" ext) eqn:X2.
  { apply str_eqb_eq in X2 as <-. left. split; [|rewrite !elem_of_cons; auto].
    destruct (parseNgf contents) as [[h r]|e'] eqn:P; cbn [mbind result_bind] in E.
    - destruct (parse_ngf_returns contents h r P) as (h' & P'). congruence.
    - injection E as <-. now apply parseNgf_throws_only in P. }
  destruct (Str.eqb ".ugf" ext) eqn:X3.
  { apply str_eqb_eq in X3 as <-. left. split; [|rewrite !elem_of_cons; auto].
    rewrite parseUgf_never_returns in E. now injection E. }
  destruct (Str.eqb ".ugi" ext) eqn:X4.
  { apply str_eqb_eq in X4 as <-. left. split; [|rewrite !elem_of_cons; auto 6].
    rewrite parseUgf_never_returns in E. now injection E. }
  right. split; [now injection E|].
  rewrite !elem_of_cons. intros [-> | [-> | [-> | [-> | H]]]];
    try discriminate. now apply elem_of_nil in H.
Qed.

(** X12.  [parse] and [xyz2sgf] fail in two ways only: with [ParserFail],
    on one of the four extensions of the table, or with a [TypeError], on
    any other extension.  [BadBoardSize] is never thrown, since no parser
    leaves a board size that the check of [parse] refuses. *)
Theorem parse_throws (contents ext : string) (e : error) :
  parse contents ext = Throw e ∨ xyz2sgf contents ext = Throw e →
  (e = ParserFail ∧ ext ∈ [".gib"; ".ngf"; ".ugf"; ".ugi"]) ∨
  (e = TypeError ∧ ext ∉ [".gib"; ".ngf"; ".ugf"; ".ugi"]).
Proof.
  intros H. apply (parse_throws_only contents ext e).
  destruct H as [H|H]; [exact H|]. unfold xyz2sgf in H.
  destruct (parse contents ext) as [[h r]|e']; cbn [mbind result_bind] in H;
    [discriminate|now injection H as <-].
Qed.

Lemma parse_throws_witness :
  (parse "" ".gib" = Throw ParserFail ∨ xyz2sgf "" ".gib" = Throw ParserFail) ∧
  ((ParserFail = ParserFail ∧ ".gib" ∈ [".gib"; ".ngf"; ".ugf"; ".ugi"]) ∨
   (ParserFail = TypeError ∧ ".gib" ∉ [".gib"; ".ngf"; ".ugf"; ".ugi"])).
Proof.
  assert (E : parse "" ".gib" = Throw ParserFail ∨ xyz2sgf "" ".gib" = Throw ParserFail)
    by (left; vm_compute; reflexivity).
  split; [exact E|].
  exact (parse_throws "" ".gib" ParserFail E).
Defined.

(** ** Further properties: file names *)

Section PathFacts.
Implicit Types (s a b : string) (c : ascii).

Lemma has_char_append c a b : has_char c (a +:+ b) = has_char c a || has_char c b.
Proof.
  induction a as [|x a IH]; [reflexivity|].
  rewrite append_String. cbn [has_char]. now rewrite IH, orb_assoc.
Qed.

Lemma lastIndexOf_absent c s : has_char c s = false → StrMore.lastIndexOf s c = -1.
Proof.
  induction s as [|x s IH]; [reflexivity|]. cbn [has_char StrMore.lastIndexOf].
  intros H. apply orb_false_iff in H as [Hx Hs]. now rewrite (IH Hs), Hx.
Qed.

Lemma lastIndexOf_at c a b :
  has_char c b = false → StrMore.lastIndexOf (a +:+ String c b) c = Str.len a.
Proof.
  intros Hb. induction a as [|x a IH].
  - change (EmptyString +:+ String c b) with (String c b).
    cbn [StrMore.lastIndexOf]. rewrite (lastIndexOf_absent c b Hb).
    now rewrite Ascii.eqb_refl.
  - rewrite append_String. cbn [StrMore.lastIndexOf]. rewrite IH.
    assert (H0 : 0 ≤ Str.len a) by (unfold Str.len; lia).
    replace (0 <=? Str.len a) with true by lia.
    unfold Str.len. cbn [String.length]. lia.
Qed.

(** A string without [c], or the part before the last [c] and the part
    after it. *)
Lemma cut_last c s :
  has_char c s = false ∨ ∃ a b, s = a +:+ String c b ∧ has_char c b = false.
Proof.
  induction s as [|x s IH]; [now left|].
  destruct IH as [Hs | (a & b & -> & Hb)].
  - destruct (Ascii.eqb x c) eqn:Hx.
    + right. apply Ascii.eqb_eq in Hx as ->. now exists EmptyString, s.
    + left. cbn [has_char]. now rewrite Hx, Hs.
  - right. exists (String x a), b. now rewrite append_String.
Qed.

Lemma substring_back a b :
  String.substring (String.length a) (String.length b) (a +:+ b) = b.
Proof.
  induction a as [|x a IH]; [|exact IH].
  change (EmptyString +:+ b) with b. cbn [String.length].
  induction b as [|y b IHb]; [reflexivity|].
  cbn [String.length String.substring]. now rewrite IHb.
Qed.

Lemma substring_from a b : StrMore.substring (a +:+ b) (Str.len a) None = b.
Proof.
  unfold StrMore.substring. cbv zeta. rewrite len_append.
  assert (Ha : 0 ≤ Str.len a) by (unfold Str.len; lia).
  assert (Hb : 0 ≤ Str.len b) by (unfold Str.len; lia).
  rewrite (Z.max_l (Str.len a) 0) by lia.
  rewrite (Z.min_l (Str.len a)) by lia.
  rewrite Z.min_l, Z.max_r by lia.
  replace (Z.to_nat (Str.len a)) with (String.length a) by (unfold Str.len; lia).
  replace (Z.to_nat (Str.len a + Str.len b - Str.len a)) with (String.length b)
    by (unfold Str.len; lia).
  apply substring_back.
Qed.

Lemma substring_to a b : StrMore.substring (a +:+ b) 0 (Some (Str.len a)) = a.
Proof.
  unfold StrMore.substring. cbv zeta. rewrite len_append.
  assert (Ha : 0 ≤ Str.len a) by (unfold Str.len; lia).
  assert (Hb : 0 ≤ Str.len b) by (unfold Str.len; lia).
  rewrite (Z.max_l 0 0) by lia.
  rewrite (Z.min_l 0) by lia.
  rewrite (Z.max_l (Str.len a) 0) by lia.
  rewrite (Z.min_l (Str.len a)) by lia.
  rewrite Z.min_l, Z.max_r by lia.
  replace (Z.to_nat (Str.len a - 0)) with (String.length a) by (unfold Str.len; lia).
  apply substring_front.
Qed.

(** The first step of [baseName]: what follows the last slash. *)
Lemma after_last_slash pre last :
  pre = EmptyString ∨ (∃ dir, pre = dir +:+ "/") →
  has_char "/" last = false →
  StrMore.substring (pre +:+ last) (StrMore.lastIndexOf (pre +:+ last) "/" + 1) None
    = last.
Proof.
  intros [-> | [dir ->]] Hl.
  - change (EmptyString +:+ last) with last.
    rewrite (lastIndexOf_absent _ _ Hl). exact (substring_from EmptyString last).
  - replace (StrMore.lastIndexOf ((dir +:+ "/") +:+ last) "/") with (Str.len dir).
    + replace (Str.len dir + 1) with (Str.len (dir +:+ "/"))
        by (rewrite len_append; reflexivity).
      apply substring_from.
    + rewrite append_assoc. symmetry. now apply lastIndexOf_at.
Qed.

(** The second step: what precedes the last dot, if there is a dot. *)
Lemma before_last_dot base :
  (if negb (StrMore.lastIndexOf base "." =? -1)
   then StrMore.substring base 0 (Some (StrMore.lastIndexOf base "."))
   else base) =
  base ∧ has_char "." base = false ∨
  ∃ stem ext, base = stem +:+ String "." ext ∧ has_char "." ext = false ∧
    (if negb (StrMore.lastIndexOf base "." =? -1)
     then StrMore.substring base 0 (Some (StrMore.lastIndexOf base "."))
     else base) = stem.
Proof.
  destruct (cut_last "." base) as [H | (stem & ext & -> & He)].
  - left. now rewrite (lastIndexOf_absent _ _ H).
  - right. exists stem, ext. split; [reflexivity|]. split; [exact He|].
    rewrite (lastIndexOf_at _ stem ext He).
    assert (Hs : 0 ≤ Str.len stem) by (unfold Str.len; lia).
    replace (Str.len stem =? -1) with false by lia. cbn [negb].
    apply substring_to.
Qed.

Lemma all_word_dot a b : StrMore.all_word (a +:+ String "." b) = false.
Proof.
  induction a as [|x a IH]; [reflexivity|].
  rewrite append_String. cbn [StrMore.all_word]. now rewrite IH, andb_false_r.
Qed.

Lemma match_extension_at name w :
  w ≠ EmptyString → StrMore.all_word w = true →
  match_extension (name +:+ String "." w) = Some (String "." w).
Proof.
  intros Hw Ha. induction name as [|x name IH].
  - change (EmptyString +:+ String "." w) with (String "." w).
    cbn [match_extension]. rewrite Ha. now destruct w.
  - rewrite append_String. cbn [match_extension].
    now rewrite all_word_dot, andb_false_r.
Qed.

Lemma match_extension_found s m :
  match_extension s = Some m →
  ∃ name w, s = name +:+ String "." w ∧ m = String "." w ∧
            w ≠ EmptyString ∧ StrMore.all_word w = true.
Proof.
  induction s as [|x s IH]; [discriminate|]. cbn [match_extension].
  destruct (_ && _) eqn:E.
  - intros H. injection H as <-.
    apply andb_prop in E as [E Ha]. apply andb_prop in E as [Ex Hn].
    apply Ascii.eqb_eq in Ex as ->.
    exists EmptyString, s. repeat split; [|exact Ha].
    intros ->. discriminate.
  - intros H. destruct (IH H) as (name & w & -> & -> & Hw & Ha).
    exists (String x name), w. now rewrite append_String.
Qed.
End PathFacts.

(** X13.  [getExtension] gives the lower-cased extension of a file name
    that ends with a dot and one or more letters, digits or underscores,
    whatever precedes the dot; it gives [null] for every other name. *)
Theorem getExtension_cases (filename : string) :
  (∀ ext, getExtension filename = Some ext ↔
          ∃ name w, filename = name +:+ "." +:+ w ∧ w ≠ EmptyString ∧
                    StrMore.all_word w = true ∧
                    ext = "." +:+ StrMore.toLowerCase w) ∧
  (getExtension filename = None ↔
   ∀ name w, filename = name +:+ "." +:+ w → w = EmptyString ∨ StrMore.all_word w = false).
Proof.
  assert (Hsome : ∀ ext, getExtension filename = Some ext ↔
            ∃ name w, filename = name +:+ "." +:+ w ∧ w ≠ EmptyString ∧
                      StrMore.all_word w = true ∧
                      ext = "." +:+ StrMore.toLowerCase w).
  { intros ext. unfold getExtension. split.
    - destruct (match_extension filename) as [m|] eqn:E; [|discriminate].
      intros H. injection H as <-.
      destruct (match_extension_found _ _ E) as (name & w & -> & -> & Hw & Ha).
      now exists name, w.
    - intros (name & w & -> & Hw & Ha & ->).
      change (name +:+ "." +:+ w) with (name +:+ String "." w).
      now rewrite (match_extension_at name w Hw Ha). }
  split; [exact Hsome|]. split.
  - intros Hn name w ->.
    destruct w as [|c w]; [now left|]. right.
    destruct (StrMore.all_word (String c w)) eqn:Ha; [|reflexivity].
    assert (H : getExtension (name +:+ "." +:+ String c w)
                = Some ("." +:+ StrMore.toLowerCase (String c w))).
    { apply Hsome. exists name, (String c w). repeat split; [discriminate|exact Ha]. }
    rewrite Hn in H. discriminate.
  - intros H. destruct (getExtension filename) as [ext|] eqn:E; [|reflexivity].
    destruct (proj1 (Hsome ext) eq_refl) as (name & w & Hf & Hw & Ha & _).
    destruct (H name w Hf) as [->|Hb]; [now contradiction Hw|congruence].
Qed.

(** X14.  [baseName] never keeps a slash.  Of a path it keeps the last
    component, without what follows the last dot of that component: the
    directories are dropped, and of several dots only the last one cuts. *)
Theorem baseName_cases :
  (∀ str, has_char "/" (baseName str) = false) ∧
  (∀ pre stem ext,
     pre = EmptyString ∨ (∃ dir, pre = dir +:+ "/") →
     has_char "/" stem = false → has_char "/" ext = false →
     has_char "." ext = false →
     baseName (pre +:+ stem +:+ "." +:+ ext) = stem) ∧
  (∀ pre name,
     pre = EmptyString ∨ (∃ dir, pre = dir +:+ "/") →
     has_char "/" name = false → has_char "." name = false →
     baseName (pre +:+ name) = name).
Proof.
  split; [|split].
  - intros str. unfold baseName. cbv zeta.
    assert (Hbase : ∃ pre last,
              (pre = EmptyString ∨ ∃ dir, pre = dir +:+ "/") ∧
              has_char "/" last = false ∧ str = pre +:+ last).
    { destruct (cut_last "/" str) as [H | (a & b & -> & Hb)].
      - exists EmptyString, str. auto.
      - exists (a +:+ "/"), b. split; [right; now exists a|].
        split; [exact Hb|]. now rewrite append_assoc. }
    destruct Hbase as (pre & last & Hpre & Hl & ->).
    rewrite (after_last_slash pre last Hpre Hl).
    destruct (before_last_dot last) as [[-> _] | (stem & ext & E & _ & ->)];
      [exact Hl|].
    rewrite E, has_char_append in Hl. now apply orb_false_iff in Hl as [Hl _].
  - intros pre stem ext Hpre Hs He Hd. unfold baseName. cbv zeta.
    assert (Hl : has_char "/" (stem +:+ "." +:+ ext) = false).
    { rewrite has_char_append, Hs. cbn [orb].
      change ("." +:+ ext) with (String "." ext). cbn [has_char]. exact He. }
    rewrite (after_last_slash pre _ Hpre Hl).
    change (stem +:+ "." +:+ ext) with (stem +:+ String "." ext).
    rewrite (lastIndexOf_at _ stem ext Hd).
    assert (H0 : 0 ≤ Str.len stem) by (unfold Str.len; lia).
    replace (Str.len stem =? -1) with false by lia. cbn [negb].
    apply substring_to.
  - intros pre name Hpre Hs Hd. unfold baseName. cbv zeta.
    rewrite (after_last_slash pre name Hpre Hs).
    now rewrite (lastIndexOf_absent _ _ Hd).
Qed.

Lemma baseName_cases_witness :
  baseName ("games/2016/" +:+ "lee.sedol" +:+ "." +:+ "gib") = "lee.sedol" ∧
  baseName ("/usr/bin/" +:+ "xyz2sgf") = "xyz2sgf".
Proof.
  destruct baseName_cases as (_ & Hcut & Hkeep). split.
  - apply Hcut; [right; now exists "games/2016"|reflexivity|reflexivity|reflexivity].
  - apply Hkeep; [right; now exists "/usr/bin"|reflexivity|reflexivity].
Defined.

Lemma getExtension_cases_witness :
  getExtension ("games/Lee" +:+ "." +:+ "GIB") = Some ("." +:+ StrMore.toLowerCase "GIB").
Proof.
  apply (proj1 (getExtension_cases ("games/Lee" +:+ "." +:+ "GIB"))).
  exists "games/Lee", "GIB". repeat split. discriminate.
Defined.

(** What [load] hands on is what [parse] makes of the text that was read. *)
Lemma load_known (read : string → string → option string) (filename ext enc : string) :
  getExtension filename = Some ext → encoding_of loaders ext = Some enc →
  load read filename = option_map (fun contents => parse contents ext) (read filename enc).
Proof.
  intros E1 E2. unfold load. rewrite E1, E2. now destruct (read filename enc).
Qed.

Lemma encoding_known (ext : string) :
  ext ∈ [".gib"; ".ngf"; ".ugf"; ".ugi"] ↔ encoding_of loaders ext ≠ None.
Proof.
  unfold loaders. cbn [encoding_of]. rewrite !elem_of_cons. split.
  - intros [-> | [-> | [-> | [-> | H]]]]; try discriminate.
    now apply elem_of_nil in H.
  - destruct (Str.eqb ".gib" ext) eqn:X1; [apply str_eqb_eq in X1; auto|].
    destruct (Str.eqb ".ngf" ext) eqn:X2; [apply str_eqb_eq in X2; auto|].
    destruct (Str.eqb ".ugf" ext) eqn:X3; [apply str_eqb_eq in X3; auto|].
    destruct (Str.eqb ".ugi" ext) eqn:X4; [apply str_eqb_eq in X4; auto 6|].
    intros H. now contradiction H.
Qed.

(** X15.  [fileToConvertedString] is [xyz2sgf] on the text of the file and
    the lower-cased extension of its name, read in the encoding of the
    table.  Without an extension of the table nothing is parsed and the
    promise is rejected with [UnknownFormat].  Apart from an exception of
    the read itself, the only rejections are [UnknownFormat] and
    [ParserFail], and only a [.gib] or [.ngf] name can resolve. *)
Theorem fileToConvertedString_by_extension
    (read : string → string → option string) (filename : string) :
  (∀ ext enc,
     getExtension filename = Some ext → encoding_of loaders ext = Some enc →
     fileToConvertedString read filename
       = option_map (fun contents => xyz2sgf contents ext) (read filename enc)) ∧
  ((∀ ext, getExtension filename = Some ext →
           ext ∉ [".gib"; ".ngf"; ".ugf"; ".ugi"]) →
     fileToConvertedString read filename = Some (Throw UnknownFormat)) ∧
  (∀ e, fileToConvertedString read filename = Some (Throw e) →
        e = UnknownFormat ∨ e = ParserFail) ∧
  (∀ out, fileToConvertedString read filename = Some (Ok out) →
          getExtension filename = Some ".gib" ∨ getExtension filename = Some ".ngf").
Proof.
  assert (Hknown : ∀ ext enc,
     getExtension filename = Some ext → encoding_of loaders ext = Some enc →
     fileToConvertedString read filename
       = option_map (fun contents => xyz2sgf contents ext) (read filename enc)).
  { intros ext enc E1 E2. unfold fileToConvertedString.
    rewrite (load_known read filename ext enc E1 E2).
    now destruct (read filename enc). }
  assert (Hunknown : (∀ ext, getExtension filename = Some ext →
                             encoding_of loaders ext = None) →
     fileToConvertedString read filename = Some (Throw UnknownFormat)).
  { intros H. unfold fileToConvertedString, load.
    destruct (getExtension filename) as [ext|]; [|reflexivity].
    now rewrite (H ext eq_refl). }
  assert (Hcases : (∃ ext enc, getExtension filename = Some ext ∧
                               encoding_of loaders ext = Some enc) ∨
                   (∀ ext, getExtension filename = Some ext →
                           encoding_of loaders ext = None)).
  { destruct (getExtension filename) as [ext|]; [|right; discriminate].
    destruct (encoding_of loaders ext) as [enc|] eqn:E.
    - left. now exists ext, enc.
    - right. intros ext' H. now injection H as <-. }
  split; [exact Hknown|]. split; [|split].
  - intros H. apply Hunknown. intros ext E.
    destruct (encoding_of loaders ext) eqn:X; [|reflexivity].
    exfalso. apply (H ext E). apply encoding_known. now rewrite X.
  - intros e. destruct Hcases as [(ext & enc & E1 & E2) | H].
    + rewrite (Hknown ext enc E1 E2).
      destruct (read filename enc) as [contents|]; [|discriminate].
      cbn [option_map]. intros X. injection X as X.
      assert (P : parse contents ext = Throw e).
      { unfold xyz2sgf in X.
        destruct (parse contents ext) as [[h r]|e']; cbn [mbind result_bind] in X;
          [discriminate|now injection X as <-]. }
      destruct (parse_throws_only contents ext e P) as [[-> _] | [_ Hno]];
        [now right|].
      exfalso. apply Hno, encoding_known. now rewrite E2.
    + rewrite (Hunknown H). intros X. injection X as <-. now left.
  - intros out. destruct Hcases as [(ext & enc & E1 & E2) | H].
    + rewrite (Hknown ext enc E1 E2).
      destruct (read filename enc) as [contents|]; [|discriminate].
      cbn [option_map]. intros X. injection X as X. rewrite E1.
      unfold xyz2sgf in X.
      destruct (parse contents ext) as [[h r]|] eqn:P; [|discriminate].
      clear X. unfold parse, loaders in P. cbn [loader_of] in P.
      destruct (Str.eqb ".gib" ext) eqn:X1; [apply str_eqb_eq in X1 as <-; now left|].
      destruct (Str.eqb ".ngf" ext) eqn:X2; [apply str_eqb_eq in X2 as <-; now right|].
      destruct (Str.eqb ".ugf" ext);
        [rewrite parseUgf_never_returns in P; discriminate|].
      destruct (Str.eqb ".ugi" ext);
        [rewrite parseUgf_never_returns in P; discriminate|].
      discriminate.
    + rewrite (Hunknown H). discriminate.
Qed.

Lemma fileToConvertedString_by_extension_witness :
  let read := fun (_ _ : string) => Some gib_fields_example in
  (getExtension "games/Lee.GIB" = Some ".gib" ∧
   encoding_of loaders ".gib" = Some "utf8") ∧
  fileToConvertedString read "games/Lee.GIB"
    = option_map (fun contents => xyz2sgf contents ".gib") (read "games/Lee.GIB" "utf8").
Proof.
  intros read.
  assert (E1 : getExtension "games/Lee.GIB" = Some ".gib") by reflexivity.
  assert (E2 : encoding_of loaders ".gib" = Some "utf8") by reflexivity.
  split; [now split|].
  exact (proj1 (fileToConvertedString_by_extension read "games/Lee.GIB") ".gib" "utf8" E1 E2).
Defined.

(** ** Further properties: the moves *)

Section Moves.
Implicit Types (h : heap) (f : PMap.t → PMap.t).

Lemma moves_alter_root h (g : Node → Node) : moves_of (alter g root h) = moves_of h.
Proof. unfold moves_of. destruct h as [|nd h]; reflexivity. Qed.

Lemma moves_setValue_root h k v : moves_of (setValue h root k v) = moves_of h.
Proof. apply moves_alter_root. Qed.

Lemma moves_addValue_root h k v : moves_of (addValue h root k v) = moves_of h.
Proof. apply moves_alter_root. Qed.

Lemma moves_safeCommit_root h k v : moves_of (safeCommit h root k v) = moves_of h.
Proof. unfold safeCommit. destruct (Str.truthy _); apply moves_alter_root. Qed.

Lemma map_alter {A B} (g : A → B) (a : A → A) (b : B → B) (n : nat) (l : list A) :
  (∀ x, g (a x) = b (g x)) → map g (alter a n l) = alter b n (map g l).
Proof.
  intros H. revert n. induction l as [|x l IH]; intros [|n]; try reflexivity.
  - cbn. now rewrite H.
  - cbn. f_equal. apply IH.
Qed.

Lemma alter_same {B} (n : nat) (l : list B) : alter (fun x => x) n l = l.
Proof.
  revert n. induction l as [|x l IH]; intros [|n]; try reflexivity.
  cbn. f_equal. apply IH.
Qed.

(** A new node with one value: the properties of the store, node by node. *)
Lemma properties_new_move h node k v :
  map properties (setValue (fst (new_Node h (Some node))) (length h) k v)
    = map properties h ++ [[(k, [v])]].
Proof.
  unfold new_Node, setValue. cbn [fst].
  rewrite (map_alter properties _ (fun m => PMap.set m k [v])) by reflexivity.
  rewrite (map_alter properties _ (fun m => m)) by reflexivity.
  rewrite alter_same, map_app. cbn [map properties].
  replace (length h) with (length (map properties h) + 0)%nat
    by (rewrite length_map; lia).
  rewrite alter_app_r. reflexivity.
Qed.

Lemma moves_new_move h node k v :
  (0 < length h)%nat →
  moves_of (setValue (fst (new_Node h (Some node))) (length h) k v)
    = moves_of h ++ [[(k, [v])]].
Proof.
  intros Hpos. unfold moves_of.
  rewrite <- !skipn_map, properties_new_move.
  destruct h as [|nd h]; [simpl in Hpos; lia|]. reflexivity.
Qed.
End Moves.

(** Case analysis along the code of a step that only writes to the root. *)
Ltac moves_root_steps :=
  repeat first
    [ reflexivity
    | rewrite moves_setValue_root
    | rewrite moves_safeCommit_root
    | rewrite moves_addValue_root
    | match goal with
      | |- moves_of (if ?c then _ else _) = _ => destruct c
      | |- moves_of (match ?c with Some _ => _ | None => _ end) = _ => destruct c
      | |- moves_of (let '(_, _) := ?c in _) = _ => destruct c
      end ].

Lemma moves_gib_name (tag kn kr : string) (h : heap) (line : string) :
  moves_of (gib_name tag kn kr h line) = moves_of h.
Proof. unfold gib_name. cbv zeta. moves_root_steps. Qed.

Lemma moves_gib_infomain (h : heap) (line : string) :
  moves_of (gib_infomain h line) = moves_of h.
Proof. unfold gib_infomain. cbv zeta. moves_root_steps. Qed.

Lemma moves_gib_gametag (h : heap) (line : string) :
  moves_of (gib_gametag h line) = moves_of h.
Proof. unfold gib_gametag. cbv zeta. moves_root_steps. Qed.

Lemma moves_gib_meta (h : heap) (line : string) :
  moves_of (gib_meta h line) = moves_of h.
Proof.
  unfold gib_meta. cbv zeta.
  now rewrite moves_gib_gametag, moves_gib_infomain, !moves_gib_name.
Qed.

Lemma moves_add_stones (stones : list point) : ∀ (h h' : heap),
  for_of (fun h (pt : point) =>
            v ← stringFromPoint (fst pt) (snd pt);
            Ok (addValue h root "AB" v)) h stones = Ok h' →
  moves_of h' = moves_of h.
Proof.
  induction stones as [|pt stones IH]; intros h h' E; cbn [for_of] in E.
  - now injection E as <-.
  - destruct (stringFromPoint (fst pt) (snd pt)) as [v|];
      cbn [mbind result_bind] in E; [|discriminate].
    apply IH in E. now rewrite E, moves_addValue_root.
Qed.

Lemma moves_gib_ini (h : heap) (node : handle) (line : string) (t : turn heap) :
  gib_ini h node line = Ok t →
  moves_of (match t with Next h' | Continue h' => h' end) = moves_of h.
Proof.
  intros E. unfold gib_ini in E.
  destruct (Str.eqb (Str.slice line 0 (Some 3)) "INI"); [|now injection E as <-].
  destruct (negb (node =? root)%nat) eqn:En; [discriminate|].
  apply negb_false_iff, Nat.eqb_eq in En. subst node.
  destruct (truthy_opt _); [|now injection E as <-].
  destruct (_ || _); [discriminate|].
  destruct (Num.ge _ _); [|now injection E as <-].
  match type of E with
  | mbind _ ?c = _ =>
      destruct c as [h2|] eqn:E2; cbn [mbind result_bind] in E; [|discriminate]
  end.
  injection E as <-. apply moves_add_stones in E2.
  now rewrite E2, moves_setValue_root.
Qed.

Lemma moves_gib_sto (h : heap) (node : handle) (line : string) :
  (0 < length h)%nat →
  moves_of (fst (gib_sto h node line))
    = moves_of h ++ match gib_move line with Some m => [m] | None => [] end.
Proof.
  intros Hpos. unfold gib_sto, gib_move. cbv zeta.
  destruct (Str.eqb _ "STO"); [|now rewrite app_nil_r].
  destruct (truthy_opt (at_ _ 4)); [|now rewrite app_nil_r].
  destruct (truthy_opt (at_ _ 5)); [|now rewrite app_nil_r].
  cbn [andb].
  destruct (stringFromPoint _ _) as [value|]; [|now rewrite app_nil_r].
  pose proof (moves_new_move h node
                (if decide (at_ (Str.split_ws (Str.trim line)) 3 = Some "1")
                 then "B" else "W") value Hpos) as H.
  destruct (new_Node h (Some node)) as [h2 n2] eqn:En.
  assert (n2 = length h) as -> by (now apply (f_equal snd) in En).
  exact H.
Qed.

Lemma moves_gib_line (h h' : heap) (node node' : handle) (line : string) :
  (0 < length h)%nat →
  gib_line (h, node) line = Ok (h', node') →
  (0 < length h')%nat ∧
  moves_of h' = moves_of h ++
                match gib_move (Str.trim line) with Some m => [m] | None => [] end.
Proof.
  intros Hpos E.
  split; [exact (proj1 (gib_line_stored h h' node node' line Hpos E))|].
  unfold gib_line in E. set (l := Str.trim line) in *.
  destruct (gib_meta_stored h l Hpos) as (Lm & _).
  destruct (gib_ini (gib_meta h l) node l) as [t|] eqn:Ei;
    cbn [mbind result_bind] in E; [|discriminate].
  pose proof (moves_gib_ini _ _ _ _ Ei) as Mi. rewrite moves_gib_meta in Mi.
  assert (Hini : match t with
                 | Continue _ => Str.eqb (Str.slice l 0 (Some 3)) "INI" = true
                 | Next _ => True
                 end).
  { unfold gib_ini in Ei. destruct (Str.eqb _ "INI").
    - now destruct t.
    - now injection Ei as <-. }
  apply gib_ini_stored in Ei as [Li _]; [|lia].
  destruct t as [h2|h2]; cbn beta iota in Li, Mi.
  - pose proof (moves_gib_sto h2 node l ltac:(lia)) as Ms.
    injection E as E. rewrite E in Ms. cbn [fst] in Ms. now rewrite Ms, Mi.
  - injection E as <- <-. rewrite Mi.
    assert (gib_move l = None) as ->; [|now rewrite app_nil_r].
    unfold gib_move. now rewrite (eqb_trans_false _ _ _ Hini).
Qed.

Lemma moves_gib_loop (lines : list string) : ∀ (h h' : heap) (node node' : handle),
  (0 < length h)%nat →
  for_of gib_line (h, node) lines = Ok (h', node') →
  moves_of h' = moves_of h ++ omap gib_move (map Str.trim lines).
Proof.
  induction lines as [|line lines IH]; intros h h' node node' Hpos E;
    cbn [for_of] in E.
  - injection E as <- <-. now rewrite app_nil_r.
  - destruct (gib_line (h, node) line) as [[h1 n1]|] eqn:E1;
      cbn [mbind result_bind] in E; [|discriminate].
    destruct (moves_gib_line _ _ _ _ _ Hpos E1) as [L1 M1].
    rewrite (IH _ _ _ _ L1 E), M1, <- app_assoc. f_equal.
    change (omap gib_move (map Str.trim (line :: lines)))
      with (match gib_move (Str.trim line) with
            | Some m => m :: omap gib_move (map Str.trim lines)
            | None => omap gib_move (map Str.trim lines)
            end).
    now destruct (gib_move (Str.trim line)).
Qed.

Lemma moves_ngf_line (h h' : heap) (node node' : handle) (line : string) :
  (0 < length h)%nat →
  ngf_line (h, node) line = Ok (h', node') →
  (0 < length h')%nat ∧
  moves_of h' = moves_of h ++ match ngf_move line with Some m => [m] | None => [] end.
Proof.
  intros Hpos E. unfold ngf_line in E. unfold ngf_move. cbv zeta.
  set (l := Str.toUpperCase (Str.trim line)) in *.
  destruct (7 <=? Str.len l); [|injection E as <- <-; now rewrite app_nil_r].
  destruct (Str.eqb _ "PM"); [|injection E as <- <-; now rewrite app_nil_r].
  destruct (existsb _ _); [|injection E as <- <-; now rewrite app_nil_r].
  cbn [andb].
  destruct (stringFromPoint _ _) as [value|];
    [|injection E as <- <-; now rewrite app_nil_r].
  pose proof (moves_new_move h node (Str.charAt l 4) value Hpos) as H.
  pose proof (length_new_Node h (Some node)) as L.
  destruct (new_Node h (Some node)) as [h2 n2] eqn:En.
  assert (n2 = length h) as -> by (now apply (f_equal snd) in En).
  cbn [fst] in *. injection E as <- <-.
  rewrite length_setValue. split; [lia|exact H].
Qed.

Lemma moves_ngf_loop (lines : list string) : ∀ (h h' : heap) (node node' : handle),
  (0 < length h)%nat →
  for_of ngf_line (h, node) lines = Ok (h', node') →
  moves_of h' = moves_of h ++ omap ngf_move lines.
Proof.
  induction lines as [|line lines IH]; intros h h' node node' Hpos E;
    cbn [for_of] in E.
  - injection E as <- <-. now rewrite app_nil_r.
  - destruct (ngf_line (h, node) line) as [[h1 n1]|] eqn:E1;
      cbn [mbind result_bind] in E; [|discriminate].
    destruct (moves_ngf_line _ _ _ _ _ Hpos E1) as [L1 M1].
    rewrite (IH _ _ _ _ L1 E), M1, <- app_assoc. f_equal.
    change (omap ngf_move (line :: lines))
      with (match ngf_move line with
            | Some m => m :: omap ngf_move lines
            | None => omap ngf_move lines
            end).
    now destruct (ngf_move line).
Qed.


Lemma moves_parseNgf_loop (ngf : string) (h : heap) (node : handle) :
  parseNgf_loop ngf = Ok (h, node) →
  moves_of h = omap ngf_move (Str.split "010" (Str.trim ngf)).
Proof.
  intros El. unfold parseNgf_loop in El. cbv zeta in El.
  destruct (ngf_root _) as [h0|] eqn:E0; cbn [mbind result_bind] in El;
    [|discriminate].
  pose proof (at_tip_ngf_root _ _ E0) as (Hpos & _ & _).
  rewrite (moves_ngf_loop _ _ _ _ _ Hpos El).
  rewrite ngf_root_steps in E0. destruct (_ || _) eqn:G; [discriminate|].
  rewrite (ngf_root_head_ok _ G) in E0. cbn [mbind result_bind] in E0.
  injection E0 as <-.
  replace (moves_of (ngf_root_tail _ _)) with (@nil PMap.t); [reflexivity|].
  unfold moves_of. rewrite drop_ge; [reflexivity|].
  rewrite ngf_root_tail_length. simpl. lia.
Qed.









(** ** Further properties: when the parsers give up *)

Lemma gib_ini_outcome (h : heap) (node : handle) (line : string) :
  is_Ok (gib_ini h node line) = negb (ini_refused (negb (node =? root)%nat) line).
Proof.
  unfold gib_ini, ini_refused.
  destruct (Str.eqb _ "INI"); [|reflexivity].
  destruct (negb (node =? root)%nat); [reflexivity|].
  destruct (truthy_opt _); [|reflexivity].
  cbn [andb orb]. unfold parseInt_opt.
  destruct (_ || _) eqn:Hr; [reflexivity|].
  destruct (Num.ge _ _) eqn:Hg; [|reflexivity].
  destruct (handicap_in_range _ Hr Hg) as (z & -> & Hz).
  pose proof (forallb_zrange _ _ _ stones_of_19_encodable z) as Hs.
  simpl Z.of_nat in Hs. specialize (Hs ltac:(lia)).
  destruct (add_stones_ok node _ (setValue h node "HA" (Num.toString (Int z))) Hs)
    as [h' ->].
  reflexivity.
Qed.

Lemma gib_line_outcome (h : heap) (node : handle) (line : string) :
  is_Ok (gib_line (h, node) line)
    = negb (ini_refused (negb (node =? root)%nat) (Str.trim line)).
Proof.
  rewrite <- (gib_ini_outcome (gib_meta h (Str.trim line)) node (Str.trim line)).
  unfold gib_line. destruct (gib_ini _ _ _) as [[h1|h1]|]; reflexivity.
Qed.

Lemma at_tip_moved (h : heap) (node : handle) :
  at_tip h node → negb (node =? root)%nat = has_moves h.
Proof.
  intros (Hpos & -> & _). unfold has_moves, moves_of.
  destruct h as [|a [|b h]]; [simpl in Hpos; lia|reflexivity|reflexivity].
Qed.

Lemma gib_loop_outcome (lines : list string) : ∀ (h : heap) (node : handle),
  at_tip h node →
  is_Ok (for_of gib_line (h, node) lines)
    = negb (gib_refused (has_moves h) (map Str.trim lines)).
Proof.
  induction lines as [|line lines IH]; intros h node Ht; [reflexivity|].
  cbn [for_of map gib_refused].
  pose proof (gib_line_outcome h node line) as O.
  rewrite (at_tip_moved h node Ht) in O.
  destruct (gib_line (h, node) line) as [[h1 n1]|e] eqn:E1;
    cbn [mbind result_bind is_Ok] in *.
  - apply (f_equal negb) in O. rewrite negb_involutive in O. cbn [negb] in O.
    rewrite <- O. cbn [orb].
    pose proof (at_tip_gib_line _ _ _ _ _ Ht E1) as Ht1.
    rewrite (IH h1 n1 Ht1). do 2 f_equal.
    destruct (moves_gib_line _ _ _ _ _ (proj1 Ht) E1) as [_ M].
    unfold has_moves. rewrite M.
    destruct (moves_of h), (gib_move (Str.trim line)); reflexivity.
  - apply (f_equal negb) in O. rewrite negb_involutive in O. cbn [negb] in O.
    now rewrite <- O.
Qed.

(** The check after the loop asks whether the store holds a move. *)
Lemma no_children_no_moves (h : heap) (node : handle) :
  at_tip h node → (length (children_of h root) =? 0)%nat = negb (has_moves h).
Proof.
  intros (Hpos & _ & Hl). unfold has_moves, moves_of, children_of.
  destruct (lookup_lt_is_Some_2 h root ltac:(unfold root; lia)) as [nd Hnd].
  rewrite Hnd. destruct (Hl _ _ Hnd) as (-> & _).
  destruct h as [|a [|b h]]; [simpl in Hpos; lia|reflexivity|reflexivity].
Qed.

Lemma has_moves_nil (h : heap) : has_moves h = false ↔ moves_of h = [].
Proof. unfold has_moves. now destruct (moves_of h). Qed.

(** X18.  [parseGib] fails with [ParserFail] and with nothing else, and it
    fails exactly when a line is refused or no line is a move.  A line is
    refused when it begins with INI and either follows a move or has a
    fourth field that reads as a number outside 0..9. *)
Theorem parseGib_fails_iff (gib : string) :
  (parseGib gib = Throw ParserFail ↔
     gib_refused false (gib_lines gib) = true ∨ omap gib_move (gib_lines gib) = []) ∧
  (∀ e, parseGib gib = Throw e → e = ParserFail) ∧
  ((∃ h, parseGib gib = Ok (h, root)) ↔
     gib_refused false (gib_lines gib) = false ∧ omap gib_move (gib_lines gib) ≠ []).
Proof.
  assert (T0 : at_tip [mkNode [] [] None] root).
  { split; [simpl; lia|]. split; [reflexivity|]. apply linear_root_only. }
  pose proof (gib_loop_outcome (Str.split "010" gib) _ _ T0) as O.
  change (has_moves [mkNode [] [] None]) with false in O.
  fold (gib_lines gib) in O.
  assert (Eloop : parseGib_loop gib
                  = for_of gib_line ([mkNode [] [] None], root) (Str.split "010" gib))
    by reflexivity.
  rewrite <- Eloop in O.
  assert (Hok : ∀ h node, parseGib_loop gib = Ok (h, node) →
            moves_of h = omap gib_move (gib_lines gib) ∧
            parseGib gib = if has_moves h then Ok (h, root) else Throw ParserFail).
  { intros h node El. pose proof (at_tip_parseGib_loop gib h node El) as Ht.
    split.
    - rewrite Eloop in El. exact (moves_gib_loop _ _ _ _ _ (proj1 T0) El).
    - unfold parseGib. rewrite El. cbn [mbind result_bind].
      rewrite (no_children_no_moves h node Ht). now destruct (has_moves h). }
  assert (Hcases :
    (gib_refused false (gib_lines gib) = true ∧ parseGib gib = Throw ParserFail) ∨
    (gib_refused false (gib_lines gib) = false ∧
     omap gib_move (gib_lines gib) = [] ∧ parseGib gib = Throw ParserFail) ∨
    (gib_refused false (gib_lines gib) = false ∧
     omap gib_move (gib_lines gib) ≠ [] ∧ ∃ h, parseGib gib = Ok (h, root))).
  { destruct (parseGib_loop gib) as [[h node]|e] eqn:El.
    - destruct (Hok h node eq_refl) as [M P]. cbn [is_Ok] in O.
      assert (R : gib_refused false (gib_lines gib) = false)
        by (now destruct (gib_refused false (gib_lines gib))).
      right. destruct (has_moves h) eqn:Hm.
      + right. split; [exact R|]. split; [|now exists h].
        rewrite <- M. intros N. apply has_moves_nil in N. congruence.
      + left. split; [exact R|]. split; [|exact P].
        rewrite <- M. now apply has_moves_nil.
    - left. cbn [is_Ok] in O.
      split; [now destruct (gib_refused false (gib_lines gib))|].
      assert (P : parseGib gib = Throw e)
        by (unfold parseGib; now rewrite El).
      now rewrite P, (parseGib_throws_only gib e P). }
  split; [|split].
  - destruct Hcases as [[R P] | [(R & M & P) | (R & M & h & P)]].
    + split; [now left|now intros _].
    + split; [now right|now intros _].
    + rewrite P. split; [discriminate|]. intros [X|X]; congruence.
  - apply parseGib_throws_only.
  - destruct Hcases as [[R P] | [(R & M & P) | (R & M & h & P)]].
    + rewrite P. split; [intros [h X]; discriminate|intros [X _]; congruence].
    + rewrite P. split; [intros [h X]; discriminate|intros [_ X]; congruence].
    + split; [now intros _|intros _; now exists h].
Qed.

Lemma parseGib_fails_iff_witness :
  gib_refused false (gib_lines (gib_moves_example +:+ String "010" "INI 0 1 2"))
    = true ∧
  parseGib (gib_moves_example +:+ String "010" "INI 0 1 2") = Throw ParserFail.
Proof.
  assert (R : gib_refused false
                (gib_lines (gib_moves_example +:+ String "010" "INI 0 1 2")) = true)
    by (vm_compute; reflexivity).
  split; [exact R|].
  exact (proj2 (proj1 (parseGib_fails_iff
                         (gib_moves_example +:+ String "010" "INI 0 1 2")))
               (or_introl R)).
Defined.

Lemma ngf_guard_cases (lines : list string) :
  Num.lt (ngf_handicap lines) (Int 0) || Num.gt (ngf_handicap lines) (Int 9) = true ↔
  parseInt_opt (at_ lines 5) = Infinity ∨ parseInt_opt (at_ lines 5) = NegInfinity.
Proof.
  unfold ngf_handicap. cbv zeta.
  destruct (parseInt_opt_cases (at_ lines 5)) as [-> | [-> | [-> | [z ->]]]];
    cbn [Num.isInteger]; split; try discriminate; auto;
    intros [H|H]; discriminate.
Qed.

(** X19.  [parseNgf] fails with [ParserFail] and with nothing else, and it
    fails exactly when the handicap line reads as an infinity or no line is
    a move: no handicap that reads as an integer, whatever its size, and no
    other line makes it fail. *)
Theorem parseNgf_fails_iff (ngf : string) :
  (parseNgf ngf = Throw ParserFail ↔
     parseInt_opt (at_ (Str.split "010" (Str.trim ngf)) 5) = Infinity ∨
     parseInt_opt (at_ (Str.split "010" (Str.trim ngf)) 5) = NegInfinity ∨
     omap ngf_move (Str.split "010" (Str.trim ngf)) = []) ∧
  (∀ e, parseNgf ngf = Throw e → e = ParserFail) ∧
  ((∃ h, parseNgf ngf = Ok (h, root)) ↔
     parseInt_opt (at_ (Str.split "010" (Str.trim ngf)) 5) ≠ Infinity ∧
     parseInt_opt (at_ (Str.split "010" (Str.trim ngf)) 5) ≠ NegInfinity ∧
     omap ngf_move (Str.split "010" (Str.trim ngf)) ≠ []).
Proof.
  set (lines := Str.split "010" (Str.trim ngf)).
  pose proof (ngf_guard_cases lines) as G.
  assert (Hcases :
    ((parseInt_opt (at_ lines 5) = Infinity ∨ parseInt_opt (at_ lines 5) = NegInfinity) ∧
     parseNgf ngf = Throw ParserFail) ∨
    (parseInt_opt (at_ lines 5) ≠ Infinity ∧ parseInt_opt (at_ lines 5) ≠ NegInfinity ∧
     ((omap ngf_move lines = [] ∧ parseNgf ngf = Throw ParserFail) ∨
      (omap ngf_move lines ≠ [] ∧ ∃ h, parseNgf ngf = Ok (h, root))))).
  { destruct (parseNgf_loop ngf) as [[h node]|e] eqn:El.
    - right.
      assert (Hg : Num.lt (ngf_handicap lines) (Int 0)
                   || Num.gt (ngf_handicap lines) (Int 9) = false).
      { pose proof El as El'. unfold parseNgf_loop in El'. cbv zeta in El'.
        fold lines in El'. rewrite ngf_root_steps in El'.
        now destruct (_ || _). }
      split; [intros X; rewrite (proj2 G (or_introl X)) in Hg; discriminate|].
      split; [intros X; rewrite (proj2 G (or_intror X)) in Hg; discriminate|].
      pose proof (moves_parseNgf_loop ngf h node El) as M. fold lines in M.
      pose proof (at_tip_parseNgf_loop ngf h node El) as Ht.
      unfold parseNgf. rewrite El. cbn [mbind result_bind].
      rewrite (no_children_no_moves h node Ht).
      destruct (has_moves h) eqn:Hm; cbn [negb].
      + right. split; [|now exists h].
        rewrite <- M. intros N. apply has_moves_nil in N. congruence.
      + left. split; [|reflexivity]. rewrite <- M. now apply has_moves_nil.
    - left.
      assert (P : parseNgf ngf = Throw e) by (unfold parseNgf; now rewrite El).
      rewrite P, (parseNgf_throws_only ngf e P). split; [|reflexivity].
      apply G. unfold parseNgf_loop in El. cbv zeta in El. fold lines in El.
      rewrite ngf_root_steps in El.
      destruct (_ || _) eqn:Hg; [reflexivity|].
      rewrite (ngf_root_head_ok _ Hg) in El. cbn [mbind result_bind] in El.
      match type of El with
      | for_of _ (?h0, _) ?ls = _ =>
          destruct (ngf_loop_root ls h0 root) as (h' & n' & E' & _);
            [rewrite ngf_root_tail_length; simpl; lia|]
      end.
      rewrite E' in El. discriminate. }
  split; [|split].
  - destruct Hcases as [[I P] | (I1 & I2 & [[M P] | (M & h & P)])].
    + split; [intros _; tauto|now intros _].
    + split; [intros _; tauto|now intros _].
    + rewrite P. split; [discriminate|]. intros [X | [X | X]]; congruence.
  - apply parseNgf_throws_only.
  - destruct Hcases as [[I P] | (I1 & I2 & [[M P] | (M & h & P)])].
    + rewrite P. split; [intros [h X]; discriminate|]. intros (X1 & X2 & _). tauto.
    + rewrite P. split; [intros [h X]; discriminate|]. intros (_ & _ & X). congruence.
    + split; [now intros _|intros _; now exists h].
Qed.

Lemma parseNgf_fails_iff_witness :
  omap ngf_move (Str.split "010" (Str.trim "Rated game")) = [] ∧
  parseNgf "Rated game" = Throw ParserFail.
Proof.
  assert (M : omap ngf_move (Str.split "010" (Str.trim "Rated game")) = [])
    by (vm_compute; reflexivity).
  split; [exact M|].
  exact (proj2 (proj1 (parseNgf_fails_iff "Rated game")) (or_intror (or_intror M))).
Defined.

(** ** Further properties: the result and the date of a .gib file *)

Lemma gibMakeResult_form (grlt zipsu : number) :
  gibMakeResult grlt zipsu = "" ∨
  Str.startsWith (gibMakeResult grlt zipsu) "B+" = true ∨
  Str.startsWith (gibMakeResult grlt zipsu) "W+" = true.
Proof.
  unfold gibMakeResult. cbv zeta.
  destruct (Str.eqb _ "3"); [right; left; reflexivity|].
  destruct (Str.eqb _ "4"); [right; right; reflexivity|].
  destruct (Str.eqb _ "7"); [right; left; reflexivity|].
  destruct (Str.eqb _ "8"); [right; right; reflexivity|].
  destruct (_ || _); [|now left].
  destruct (Num.eq grlt (Int 0)); right; [left|right];
    set (X := Num.toString _);
    [change (Str.startsWith (String "B" (String "+" X)) "B+" = true)
    |change (Str.startsWith (String "W" (String "+" X)) "W+" = true)];
    cbn [Str.startsWith]; rewrite !Ascii.eqb_refl; now destruct X.
Qed.

Lemma gibGetResult_form (line grltPre zipsuPre : string) :
  gibGetResult line grltPre zipsuPre = "" ∨
  Str.startsWith (gibGetResult line grltPre zipsuPre) "B+" = true ∨
  Str.startsWith (gibGetResult line grltPre zipsuPre) "W+" = true.
Proof.
  unfold gibGetResult.
  destruct (match_number grltPre line); [|now left].
  destruct (match_number zipsuPre line); [|now left].
  apply gibMakeResult_form.
Qed.

Lemma match_date_form (s : string) (groups : list string) :
  match_date s = Some groups →
  ∃ y m d, groups = [y; m; d] ∧
           all_digits y 4 = true ∧ all_digits m 2 = true ∧ all_digits d 2 = true.
Proof.
  induction s as [|c s IH]; cbn [match_date]; cbv zeta;
    (destruct (_ && _) eqn:E; [|first [exact IH|discriminate]]);
    intros H; injection H as <-;
    repeat (apply andb_prop in E as [E ?]);
    eauto 10.
Qed.

Lemma first_some_sat {A} (offer : string → option A) (P : A → Prop) :
  (∀ l v, offer l = Some v → P v) →
  ∀ lines v, first_some offer lines = Some v → P v.
Proof.
  intros H. induction lines as [|l lines IH]; intros v; cbn [first_some];
    [discriminate|].
  destruct (offer l) as [w|] eqn:E; cbn [or_else].
  - intros X. injection X as <-. now apply (H l).
  - apply IH.
Qed.

(** X20.  The result [parseGib] stores begins with [B+] or [W+], whichever
    line it came from, and the date it stores is four digits, two digits
    and two digits joined by dashes. *)
Theorem parseGib_result_and_date (gib : string) (h : heap) (r : handle) :
  parseGib gib = Ok (h, r) →
  (∀ vs, stored h "RE" = Some vs →
     ∃ v, vs = [v] ∧
          (Str.startsWith v "B+" = true ∨ Str.startsWith v "W+" = true)) ∧
  (∀ vs, stored h "DT" = Some vs →
     ∃ y m d, vs = [y +:+ "-" +:+ m +:+ "-" +:+ d] ∧
              all_digits y 4 = true ∧ all_digits m 2 = true ∧
              all_digits d 2 = true).
Proof.
  intros E. unfold parseGib in E.
  destruct (parseGib_loop gib) as [[h1 n1]|] eqn:El;
    cbn [mbind result_bind] in E; [|discriminate].
  destruct (_ =? _)%nat in E; [discriminate|]. injection E as <- <-.
  assert (Eloop : parseGib_loop gib
                  = for_of gib_line ([mkNode [] [] None], root) (Str.split "010" gib))
    by reflexivity.
  rewrite Eloop in El.
  assert (L0 : (0 < length [mkNode [] [] None])%nat) by (simpl; lia).
  destruct (gib_loop_stored _ _ _ _ _ L0 El) as (R & _ & D & _).
  change (stored [mkNode [] [] None] "RE") with (@None (list string)) in R.
  change (stored [mkNode [] [] None] "DT") with (@None (list string)) in D.
  cbn [keep_first] in R, D. split.
  - intros vs Hvs. rewrite R in Hvs.
    destruct (first_some re_offer _) as [v|] eqn:F; [|discriminate].
    injection Hvs as <-. exists v. split; [reflexivity|].
    refine (first_some_sat re_offer
              (fun v => Str.startsWith v "B+" = true ∨ Str.startsWith v "W+" = true)
              _ _ v F).
    clear. intros l v.
    unfold re_offer, infomain_re, gametag_re. cbv zeta.
    assert (G : ∀ a b, Str.truthy (gibGetResult l a b) = true →
                Str.startsWith (gibGetResult l a b) "B+" = true ∨
                Str.startsWith (gibGetResult l a b) "W+" = true).
    { intros a b T. destruct (gibGetResult_form l a b) as [X|X]; [|exact X].
      rewrite X in T. discriminate. }
    destruct (Str.startsWith l "\[GAMEINFOMAIN=");
      [destruct (Str.truthy (gibGetResult l "GRLT:" "ZIPSU:")) eqn:T1|];
      cbn [or_else];
      try (intros X; injection X as <-; now apply G);
      (destruct (Str.startsWith l "\[GAMETAG=");
       [destruct (Str.truthy (gibGetResult l ",W" ",Z")) eqn:T2|]);
      try discriminate;
      intros X; injection X as <-; now apply G.
  - intros vs Hvs. rewrite D in Hvs.
    destruct (first_some dt_offer _) as [v|] eqn:F; [|discriminate].
    injection Hvs as <-.
    refine (first_some_sat dt_offer
      (fun v => ∃ y m d, single v = [y +:+ "-" +:+ m +:+ "-" +:+ d] ∧
                         all_digits y 4 = true ∧ all_digits m 2 = true ∧
                         all_digits d 2 = true) _ _ v F).
    clear. intros l v. unfold dt_offer.
    destruct (Str.startsWith l "\[GAMETAG="); [|discriminate].
    destruct (match_date l) as [groups|] eqn:M; [|discriminate].
    intros X. injection X as <-.
    destruct (match_date_form l groups M) as (y & m & d & -> & Hy & Hm & Hd).
    exists y, m, d. repeat split; assumption.
Qed.

Lemma parseGib_result_and_date_witness :
  parseGib gib_moves_example = Ok (gib_moves_example_heap, root) ∧
  stored gib_moves_example_heap "RE" = Some ["B+R"] ∧
  ∃ v, ["B+R"] = [v] ∧
       (Str.startsWith v "B+" = true ∨ Str.startsWith v "W+" = true).
Proof.
  assert (E : parseGib gib_moves_example = Ok (gib_moves_example_heap, root))
    by (vm_compute; reflexivity).
  assert (S : stored gib_moves_example_heap "RE" = Some ["B+R"]) by reflexivity.
  split; [exact E|]. split; [exact S|].
  exact (proj1 (parseGib_result_and_date _ _ _ E) ["B+R"] S).
Defined.
